(** * FastReader (RSVP): tokenizer, pacing engine, scheduler and PDF loader

    A shallow embedding of [src/app.js] (tokenizer, pacing and play control)
    and of the PDF loader class [PdfLoader] ([src/unnamed/part_000]).

    Text is a list of Unicode code points.  The two character classes the
    regular expressions use, [\p{L}\p{N}] and [\s], are parameters
    ([isLN], [isS]) of the tokenizer, so that the results hold for the real
    Unicode tables; the concrete ASCII instance [ascii_LN]/[ascii_S] is only
    used to run the definitions on examples. *)

From Stdlib Require Import List Bool Arith ZArith NArith Lia String Ascii Permutation Sorted.
From Stdlib Require QArith_base.
Import ListNotations.

Definition char := N.
Definition text := list char.

Definition of_string (s : string) : text :=
  map N_of_ascii (list_ascii_of_string s).

(** A few code points the source names literally. *)
Definition c_nl : char := 10%N.     (* \n *)
Definition c_cr : char := 13%N.     (* \r *)
Definition c_sp : char := 32%N.     (* ' ' *)
Definition c_apos : char := 39%N.   (* ' *)
Definition c_dot : char := 46%N.    (* . *)

(** ASCII case folding, as a non-unicode [/i] regular expression does it. *)
Definition lower (c : char) : char :=
  if ((65 <=? c) && (c <=? 90))%N then (c + 32)%N else c.

(** ** String helpers *)

Fixpoint strip_prefix (p s : text) : option text :=
  match p, s with
  | [], _ => Some s
  | a :: p', c :: s' => if (a =? c)%N then strip_prefix p' s' else None
  | _ :: _, [] => None
  end.

Fixpoint span_len (f : char -> bool) (s : text) : nat :=
  match s with
  | c :: t => if f c then S (span_len f t) else 0
  | [] => 0
  end.

Fixpoint drop_while (f : char -> bool) (s : text) : text :=
  match s with
  | c :: t => if f c then drop_while f t else s
  | [] => []
  end.

(** ** The tokenizer ([tokenize] in app.js, [PdfLoader.tokenizePage]) *)

Record token := mkToken { word : text; isParagraphEnd : bool }.

Section Tokenizer.

Variable isLN : char -> bool.   (* [\p{L}\p{N}] *)
Variable isS : char -> bool.    (* [\s], also what String.prototype.trim strips *)

(** [.replace(/\r\n/g, '\n')] *)
Fixpoint replace_crlf (s : text) : text :=
  match s with
  | c :: ((d :: t) as r) =>
      if (c =? c_cr)%N && (d =? c_nl)%N then c_nl :: replace_crlf t
      else c :: replace_crlf r
  | _ => s
  end.

(** [.replace(/\r/g, '\n')] *)
Definition replace_cr (s : text) : text :=
  map (fun c => if (c =? c_cr)%N then c_nl else c) s.

(** [.replace(/\n{2,}/g, '\n\n')]: [k] counts the newlines of the current
    run, capped at 2; the run is written out when it ends. *)
Fixpoint collapse_nl (k : nat) (s : text) : text :=
  match s with
  | [] => repeat c_nl k
  | c :: t =>
      if (c =? c_nl)%N then collapse_nl (Nat.min 2 (S k)) t
      else repeat c_nl k ++ c :: collapse_nl 0 t
  end.

Definition normalize (s : text) : text :=
  collapse_nl 0 (replace_cr (replace_crlf s)).

Definition cons_first (c : char) (ps : list text) : list text :=
  match ps with
  | p :: ps' => (c :: p) :: ps'
  | [] => [[c]]
  end.

(** [.split(/\n\n+/)]: [sep] is true inside a separator, whose further
    newlines are swallowed. *)
Fixpoint split_aux (sep : bool) (s : text) : list text :=
  match s with
  | [] => [[]]
  | c :: t =>
      if (c =? c_nl)%N then
        if sep then split_aux true t
        else match t with
             | d :: t' =>
                 if (d =? c_nl)%N then [] :: split_aux true t'
                 else cons_first c (split_aux false t)
             | [] => cons_first c (split_aux false t)
             end
      else cons_first c (split_aux false t)
  end.

Definition split_paras (s : text) : list text := split_aux false s.

(** [String.prototype.trim] *)
Definition trim (s : text) : text :=
  rev (drop_while isS (rev (drop_while isS s))).

(** The regular expression
    [/https?:\/\/[^\s]+|www\.[^\s]+|[\p{L}\p{N}]+(?:[''][\p{L}\p{N}]+)*(?:\.[\p{L}\p{N}]+)*|[^\p{L}\p{N}\s]+/gu]
    one alternative at a time; each returns the length of the match at the
    start of the input.  No alternative is followed by anything, so the
    backtracking engine returns the greedy match of each. *)

Definition nonspace (c : char) : bool := negb (isS c).

(** [https?:\/\/[^\s]+]; an ['s'] that is not followed by [://] cannot
    be followed by it without the ['s'] either. *)
Definition alt_http (s : text) : option nat :=
  match strip_prefix (of_string "http") s with
  | Some r =>
      let '(k, r2) :=
        match r with
        | c :: r' => if (c =? 115)%N then (5, r') else (4, r)
        | [] => (4, r)
        end in
      match strip_prefix (of_string "://") r2 with
      | Some r3 =>
          let m := span_len nonspace r3 in
          if Nat.eqb m 0 then None else Some (k + 3 + m)
      | None => None
      end
  | None => None
  end.

(** [www\.[^\s]+] *)
Definition alt_www (s : text) : option nat :=
  match strip_prefix (of_string "www.") s with
  | Some r =>
      let m := span_len nonspace r in
      if Nat.eqb m 0 then None else Some (4 + m)
  | None => None
  end.

(** [[\p{L}\p{N}]+(?:['][\p{L}\p{N}]+)*(?:\.[\p{L}\p{N}]+)*] after its
    first character: [dots] is false while apostrophe groups may still
    follow and true once the dot groups have started.  A separator is
    taken only when a letter or digit follows it. *)
Fixpoint word_run (dots : bool) (s : text) : nat :=
  match s with
  | [] => 0
  | c :: t =>
      if isLN c then S (word_run dots t)
      else match t with
           | d :: _ =>
               if isLN d then
                 if (c =? c_apos)%N && negb dots then S (word_run false t)
                 else if (c =? c_dot)%N then S (word_run true t)
                 else 0
               else 0
           | [] => 0
           end
  end.

Definition alt_word (s : text) : option nat :=
  match s with
  | c :: _ => if isLN c then Some (word_run false s) else None
  | [] => None
  end.

(** [[^\p{L}\p{N}\s]+] *)
Definition punct (c : char) : bool := negb (isLN c || isS c).

Definition alt_punct (s : text) : option nat :=
  let m := span_len punct s in
  if Nat.eqb m 0 then None else Some m.

Definition match_at (s : text) : option nat :=
  match alt_http s with
  | Some n => Some n
  | None =>
      match alt_www s with
      | Some n => Some n
      | None =>
          match alt_word s with
          | Some n => Some n
          | None => alt_punct s
          end
      end
  end.

(** [para.match(re) || []]: the global search, retried one position further
    on where no alternative matches. *)
Fixpoint match_all (fuel : nat) (s : text) : list text :=
  match fuel with
  | O => []
  | S f =>
      match s with
      | [] => []
      | _ :: t =>
          match match_at s with
          | Some n => firstn n s :: match_all f (skipn n s)
          | None => match_all f t
          end
      end
  end.

Definition starts_ci (p t : text) : bool :=
  match strip_prefix p (map lower t) with Some _ => true | None => false end.

(** [/^[\p{L}\p{N}]/u.test(t) || /^https?:\/\//i.test(t) || /^www\./i.test(t)] *)
Definition isWordLike (t : text) : bool :=
  match t with c :: _ => isLN c | [] => false end
  || starts_ci (of_string "http://") t || starts_ci (of_string "https://") t
  || starts_ci (of_string "www.") t.

(** The output array, most recent token first. *)
Definition push_token (out : list token) (t : text) : list token :=
  if isWordLike t then mkToken t false :: out
  else match out with
       | x :: r => mkToken (word x ++ t) (isParagraphEnd x) :: r
       | [] => []
       end.

Definition mark_last (out : list token) : list token :=
  match out with
  | x :: r => mkToken (word x) true :: r
  | [] => []
  end.

(** The loop over paragraphs; [rest <> []] is [p < paragraphs.length - 1]. *)
Fixpoint tok_paras (ps : list text) (out : list token) : list token :=
  match ps with
  | [] => out
  | p :: rest =>
      let para := trim p in
      match para with
      | [] => tok_paras rest out
      | _ :: _ =>
          let out1 := fold_left push_token (match_all (List.length para) para) out in
          let out2 := match rest with [] => out1 | _ :: _ => mark_last out1 end in
          tok_paras rest out2
      end
  end.

(** [PdfLoader.tokenizePage]; [tokenize] of app.js has the same body and
    only adds the fallback token. *)
Definition tokenizePage (s : text) : list token :=
  rev (tok_paras (split_paras (normalize s)) []).

Definition tokenize (s : text) : list token :=
  match tokenizePage s with
  | [] => [mkToken [c_sp] false]
  | out => out
  end.

End Tokenizer.

(** ASCII instance of the character classes, for running examples. *)
Definition ascii_LN (c : char) : bool :=
  ((48 <=? c) && (c <=? 57))%N || ((65 <=? c) && (c <=? 90))%N
  || ((97 <=? c) && (c <=? 122))%N.
Definition ascii_S (c : char) : bool :=
  ((9 <=? c) && (c <=? 13))%N || (c =? 32)%N.

Definition words_of (l : list token) : list string :=
  map (fun t => string_of_list_ascii (map ascii_of_N (word t))) l.

Example tok_ex1 :
  words_of (tokenize ascii_LN ascii_S (of_string "Hello, world. don't e.g. stop"))
  = ["Hello,"; "world."; "don't"; "e.g."; "stop"]%string.
Proof. vm_compute. reflexivity. Qed.

Example tok_ex2 :
  words_of (tokenize ascii_LN ascii_S (of_string "Ph.D's ... x http://a.b/c www.q.org!"))
  = ["Ph.D'"; "s..."; "x"; "http://a.b/c"; "www.q.org!"]%string.
Proof. vm_compute. reflexivity. Qed.

Example tok_ex3 :
  tokenize ascii_LN ascii_S (of_string "a b" ++ [c_nl; c_cr; c_nl; c_nl] ++ of_string "!c")
  = [mkToken (of_string "a") false; mkToken (of_string "b!") true;
     mkToken (of_string "c") false].
Proof. vm_compute. reflexivity. Qed.

(** ** Pacing engine ([PAUSE_PROFILES], [baseIntervalMs], [dwellMsForToken])

    Multipliers are kept in tenths ([30] is [3.0]), and [Math.floor] of the
    product [base * multiplier] is taken on the exact rational product. *)

Open Scope Z_scope.

Record profile := mkProfile {
  sentence : Z; comma : Z; paragraph : Z; longWord : Z; number : Z;
  minSentenceMs : Z; minCommaMs : Z }.

Definition profile_relaxed := mkProfile 40 20 40 15 20 400 200.
Definition profile_normal := mkProfile 30 15 30 13 15 300 150.
Definition profile_speed := mkProfile 15 12 15 11 12 150 80.

(** [PAUSE_PROFILES[profileKey] || PAUSE_PROFILES.normal] *)
Definition getActiveProfile (profileKey : string) : profile :=
  if String.eqb profileKey "relaxed" then profile_relaxed
  else if String.eqb profileKey "normal" then profile_normal
  else if String.eqb profileKey "speed" then profile_speed
  else profile_normal.

(** [if (wpm <= 0) return null; return Math.max(1, Math.floor(60000 / wpm));] *)
Definition baseIntervalMs (wpm : Z) : option Z :=
  if wpm <=? 0 then None else Some (Z.max 1 (60000 / wpm)).

Definition last_char (w : text) : option char :=
  match rev w with c :: _ => Some c | [] => None end.

(** [/[.!?]$/.test(word)] *)
Definition ends_sentence (w : text) : bool :=
  match last_char w with
  | Some c => ((c =? 46) || (c =? 33) || (c =? 63))%N
  | None => false
  end.

(** [/[,;:]$/.test(word)] *)
Definition ends_comma (w : text) : bool :=
  match last_char w with
  | Some c => ((c =? 44) || (c =? 59) || (c =? 58))%N
  | None => false
  end.

(** [/\d/.test(word)] *)
Definition has_digit (w : text) : bool :=
  existsb (fun c => ((48 <=? c) && (c <=? 57))%N) w.

(** [String.prototype.length] counts UTF-16 code units. *)
Definition utf16_length (w : text) : nat :=
  fold_right (fun c n => if (65536 <=? c)%N then S (S n) else S n) 0%nat w.

Section Pacing.

Variable isLN : char -> bool.

(** The [multiplier] that [dwellMsForToken] computes, in tenths. *)
Definition tokenMultiplier (p : profile) (tok : token) : Z :=
  let w := word tok in
  let m0 := 10 in
  let m1 := if ends_sentence w then Z.max m0 (sentence p)
            else if ends_comma w then Z.max m0 (comma p)
            else m0 in
  let cleanWord := filter isLN w in
  let m2 := if (8 <? utf16_length cleanWord)%nat then Z.max m1 (longWord p) else m1 in
  let m3 := if has_digit w then Z.max m2 (number p) else m2 in
  if isParagraphEnd tok then Z.max m3 (paragraph p) else m3.

Definition dwellMsForToken (wpm : Z) (profileKey : string) (tok : token) : option Z :=
  match baseIntervalMs wpm with
  | None => None
  | Some base =>
      let p := getActiveProfile profileKey in
      let w := word tok in
      let dwell := (base * tokenMultiplier p tok) / 10 in
      if ends_sentence w then Some (Z.max dwell (minSentenceMs p))
      else if ends_comma w then Some (Z.max dwell (minCommaMs p))
      else Some dwell
  end.

End Pacing.

Close Scope Z_scope.

(** ** The PDF loader ([class PdfLoader])

    The loader's fields, plus what its asynchronous callers observe: the
    [loadPage] calls still waiting for their own fetch ([fetches]) or
    polling every 50 ms for a page another call is fetching ([pollers]),
    the calls already settled ([results]), the [waitForContent] promises
    already resolved ([released]) and whether a [_loadNextPageInBackground]
    timer is pending ([bgTimer]).  Callers and waiters are named by
    numbers; the background cycle's own [loadPage] call is caller [0].
    Page text extraction from PDF.js items is not modelled: a completed
    fetch delivers the page text. *)

Record PageData := mkPageData { pd_text : text; pd_words : list token }.

Record WordRange := mkWordRange { wr_start : Z; wr_end : Z }.

Inductive CallResult := Returned (r : option text) | Threw.

Record Loader := mkLoader {
  totalPages : nat;
  loadedPages : list (nat * PageData);      (* Map, in insertion order *)
  loadingPages : list nat;                  (* Set *)
  nextPageToLoad : nat;
  isBackgroundLoading : bool;
  allPagesLoaded : bool;
  allText : text;
  allWords : list token;
  pageWordRanges : list (nat * WordRange);  (* index pageNum - 1 |-> range *)
  contentWaiters : list nat;
  released : list nat;
  fetches : list (nat * nat);               (* (caller, pageNum) *)
  pollers : list (nat * nat);               (* (caller, pageNum) *)
  results : list (nat * CallResult);
  bgTimer : bool }.

Definition bg_caller : nat := 0.

Definition init (total : nat) : Loader :=
  mkLoader total [] [] 1 false false [] [] [] [] [] [] [] [] false.

Fixpoint lookup {A} (k : nat) (l : list (nat * A)) : option A :=
  match l with
  | [] => None
  | (k', v) :: r => if Nat.eqb k k' then Some v else lookup k r
  end.

(** [Map.prototype.set]: in place for a present key, appended otherwise. *)
Fixpoint map_set {A} (k : nat) (v : A) (l : list (nat * A)) : list (nat * A) :=
  match l with
  | [] => [(k, v)]
  | (k', v') :: r => if Nat.eqb k k' then (k, v) :: r else (k', v') :: map_set k v r
  end.

(** [Set.prototype.add] and [Set.prototype.delete] *)
Definition set_add (n : nat) (s : list nat) : list nat :=
  if existsb (Nat.eqb n) s then s else s ++ [n].
Definition set_delete (n : nat) (s : list nat) : list nat :=
  filter (fun m => negb (Nat.eqb n m)) s.

(** [.sort((a, b) => a - b)] on distinct page numbers. *)
Fixpoint insert_sorted (x : nat) (l : list nat) : list nat :=
  match l with
  | [] => [x]
  | y :: t => if Nat.leb x y then x :: l else y :: insert_sorted x t
  end.
Definition sort_nat (l : list nat) : list nat := fold_right insert_sorted [] l.

(** One iteration of the loop of [rebuildAggregatedContent]. *)
Definition rebuild_step (loaded : list (nat * PageData))
    (acc : text * list token * list (nat * WordRange)) (pageNum : nat)
    : text * list token * list (nat * WordRange) :=
  let '(txt, ws, rs) := acc in
  match lookup pageNum loaded with
  | Some pd =>
      let startIdx := Z.of_nat (List.length ws) in
      let ws' := ws ++ pd_words pd in
      (txt ++ pd_text pd ++ [c_nl; c_nl], ws',
       map_set (pageNum - 1) (mkWordRange startIdx (Z.of_nat (List.length ws') - 1)%Z) rs)
  | None => acc    (* every key of the map has an entry *)
  end.

Definition rebuildAggregatedContent (loaded : list (nat * PageData))
    : text * list token * list (nat * WordRange) :=
  fold_left (rebuild_step loaded) (sort_nat (map fst loaded)) ([], [], []).

Definition pageWordRange (st : Loader) (pageNum : nat) : option WordRange :=
  lookup (pageNum - 1) (pageWordRanges st).

Section LoaderOps.

Variable isLN isS : char -> bool.

(** Field updates. *)
Definition set_loading (st : Loader) (l : list nat) (f : list (nat * nat)) : Loader :=
  mkLoader (totalPages st) (loadedPages st) l (nextPageToLoad st)
    (isBackgroundLoading st) (allPagesLoaded st) (allText st) (allWords st)
    (pageWordRanges st) (contentWaiters st) (released st) f (pollers st)
    (results st) (bgTimer st).

Definition set_pollers (st : Loader) (p : list (nat * nat)) : Loader :=
  mkLoader (totalPages st) (loadedPages st) (loadingPages st) (nextPageToLoad st)
    (isBackgroundLoading st) (allPagesLoaded st) (allText st) (allWords st)
    (pageWordRanges st) (contentWaiters st) (released st) (fetches st) p
    (results st) (bgTimer st).

Definition set_waiters (st : Loader) (w r : list nat) : Loader :=
  mkLoader (totalPages st) (loadedPages st) (loadingPages st) (nextPageToLoad st)
    (isBackgroundLoading st) (allPagesLoaded st) (allText st) (allWords st)
    (pageWordRanges st) w r (fetches st) (pollers st) (results st) (bgTimer st).

Definition set_background (st : Loader) (next : nat) (bg all timer : bool) : Loader :=
  mkLoader (totalPages st) (loadedPages st) (loadingPages st) next bg all
    (allText st) (allWords st) (pageWordRanges st) (contentWaiters st)
    (released st) (fetches st) (pollers st) (results st) timer.

Definition set_pages (st : Loader) (loaded : list (nat * PageData)) : Loader :=
  let '(txt, ws, rs) := rebuildAggregatedContent loaded in
  mkLoader (totalPages st) loaded (loadingPages st) (nextPageToLoad st)
    (isBackgroundLoading st) (allPagesLoaded st) txt ws rs (contentWaiters st)
    (released st) (fetches st) (pollers st) (results st) (bgTimer st).

Definition add_result (st : Loader) (c : nat) (r : CallResult) : Loader :=
  mkLoader (totalPages st) (loadedPages st) (loadingPages st) (nextPageToLoad st)
    (isBackgroundLoading st) (allPagesLoaded st) (allText st) (allWords st)
    (pageWordRanges st) (contentWaiters st) (released st) (fetches st)
    (pollers st) (results st ++ [(c, r)]) (bgTimer st).

(** A [loadPage] call settles; for the background cycle's call this runs
    the rest of [_loadNextPageInBackground]: [nextPageToLoad++] and a new
    timer, after a success as after a caught failure. *)
Definition settle (st : Loader) (c : nat) (r : CallResult) : Loader :=
  let st1 := add_result st c r in
  if Nat.eqb c bg_caller then
    set_background st1 (S (nextPageToLoad st1)) (isBackgroundLoading st1)
      (allPagesLoaded st1) true
  else st1.

(** [resolveWaiters]: every queued waiter, first registered first. *)
Definition resolveWaiters (st : Loader) : Loader :=
  set_waiters st [] (released st ++ contentWaiters st).

(** The synchronous part of [loadPage(pageNum)] called by caller [c]. *)
Definition loadPage (c pageNum : nat) (st : Loader) : Loader :=
  if Nat.ltb pageNum 1 || Nat.ltb (totalPages st) pageNum then
    settle st c (Returned None)
  else match lookup pageNum (loadedPages st) with
  | Some pd => settle st c (Returned (Some (pd_text pd)))
  | None =>
      if existsb (Nat.eqb pageNum) (loadingPages st) then
        set_pollers st (pollers st ++ [(c, pageNum)])
      else
        set_loading st (set_add pageNum (loadingPages st))
          (fetches st ++ [(c, pageNum)])
  end.

Fixpoint find_fetch (n : nat) (f : list (nat * nat)) : option nat :=
  match f with
  | [] => None
  | (c, m) :: r => if Nat.eqb n m then Some c else find_fetch n r
  end.

Fixpoint remove_fetch (n : nat) (f : list (nat * nat)) : list (nat * nat) :=
  match f with
  | [] => []
  | (c, m) :: r => if Nat.eqb n m then r else (c, m) :: remove_fetch n r
  end.

(** The rest of [loadPage] once [getPage]/[getTextContent] delivered the
    text of the page: store it, [loadingPages.delete], rebuild, resolve
    the waiters, return the text. *)
Definition fetchSucceeded (pageNum : nat) (pageText : text) (st : Loader) : Loader :=
  match find_fetch pageNum (fetches st) with
  | None => st
  | Some c =>
      let pageWords := tokenizePage isLN isS pageText in
      let st1 := set_pages st
                   (map_set pageNum (mkPageData pageText pageWords) (loadedPages st)) in
      let st2 := set_loading st1 (set_delete pageNum (loadingPages st1))
                   (remove_fetch pageNum (fetches st1)) in
      let st3 := resolveWaiters st2 in
      settle st3 c (Returned (Some pageText))
  end.

(** The [catch] of [loadPage]: [loadingPages.delete], rethrow. *)
Definition fetchFailed (pageNum : nat) (st : Loader) : Loader :=
  match find_fetch pageNum (fetches st) with
  | None => st
  | Some c =>
      let st1 := set_loading st (set_delete pageNum (loadingPages st))
                   (remove_fetch pageNum (fetches st)) in
      settle st1 c Threw
  end.

(** One tick of the [setInterval] of caller [c]: it only looks for the page
    in [loadedPages]. *)
Definition pollTick (c : nat) (st : Loader) : Loader :=
  match lookup c (pollers st) with
  | None => st
  | Some pageNum =>
      match lookup pageNum (loadedPages st) with
      | Some pd =>
          settle (set_pollers st (filter (fun p => negb (Nat.eqb (fst p) c)) (pollers st)))
            c (Returned (Some (pd_text pd)))
      | None => st
      end
  end.

(** [waitForContent] called by waiter [w]. *)
Definition waitForContent (w : nat) (st : Loader) : Loader :=
  if negb (Nat.eqb (List.length (loadingPages st)) 0) || isBackgroundLoading st then
    set_waiters st (contentWaiters st ++ [w]) (released st)
  else set_waiters st (contentWaiters st) (released st ++ [w]).

(** The synchronous part of [_loadNextPageInBackground]. *)
Definition loadNextPageInBackground (st : Loader) : Loader :=
  if negb (isBackgroundLoading st) then st
  else if Nat.ltb (totalPages st) (nextPageToLoad st) then
    set_background st (nextPageToLoad st) false true (bgTimer st)
  else loadPage bg_caller (nextPageToLoad st) st.

Definition startBackgroundLoading (st : Loader) : Loader :=
  if isBackgroundLoading st || allPagesLoaded st then st
  else loadNextPageInBackground
         (set_background st (nextPageToLoad st) true (allPagesLoaded st) (bgTimer st)).

Definition backgroundTimer (st : Loader) : Loader :=
  if bgTimer st then
    loadNextPageInBackground
      (set_background st (nextPageToLoad st) (isBackgroundLoading st)
         (allPagesLoaded st) false)
  else st.

Inductive event :=
| LoadPage (c pageNum : nat)
| FetchOk (pageNum : nat) (pageText : text)
| FetchFail (pageNum : nat)
| PollTick (c : nat)
| WaitForContent (w : nat)
| StartBackground
| BackgroundTimer.

Definition exec (st : Loader) (e : event) : Loader :=
  match e with
  | LoadPage c n => loadPage c n st
  | FetchOk n t => fetchSucceeded n t st
  | FetchFail n => fetchFailed n st
  | PollTick c => pollTick c st
  | WaitForContent w => waitForContent w st
  | StartBackground => startBackgroundLoading st
  | BackgroundTimer => backgroundTimer st
  end.

Definition run (st : Loader) (evs : list event) : Loader := fold_left exec evs st.

End LoaderOps.

(** [needsMoreContent(currentWordIndex)]: [loadedPages.size < totalPages]
    and [currentWordIndex >= allWords.length - 10]. *)
Definition needsMoreContent (st : Loader) (currentWordIndex : Z) : bool :=
  Nat.ltb (List.length (loadedPages st)) (totalPages st)
  && (Z.of_nat (List.length (allWords st)) - 10 <=? currentWordIndex)%Z.

(** ** Play control ([setPlaying], [scheduleNext], [stopLoop])

    The player's state.  [timerId] is the dwell of the pending
    [setTimeout], if any.  [isPdfMode] and [pdfLoader] are the PDF state of
    app.js; [pdfWaits] are the [waitForContent] promises [scheduleNext]
    waits on whose [.then] callback has not run yet, by waiter number. *)

Open Scope Z_scope.

Record App := mkApp {
  wpm : Z; profileKey : string; words : list token; index : nat;
  isPlaying : bool; loopEnabled : bool; timerId : option Z;
  isPdfMode : bool; pdfLoader : option Loader; pdfWaits : list nat }.

(** Field updates of the app state. *)
Definition with_play (a : App) (v : bool) (t : option Z) : App :=
  mkApp (wpm a) (profileKey a) (words a) (index a) v (loopEnabled a) t
    (isPdfMode a) (pdfLoader a) (pdfWaits a).
Definition set_index (a : App) (i : nat) : App :=
  mkApp (wpm a) (profileKey a) (words a) i (isPlaying a) (loopEnabled a) (timerId a)
    (isPdfMode a) (pdfLoader a) (pdfWaits a).
Definition set_wpm (a : App) (v : Z) : App :=
  mkApp v (profileKey a) (words a) (index a) (isPlaying a) (loopEnabled a) (timerId a)
    (isPdfMode a) (pdfLoader a) (pdfWaits a).
Definition set_words (a : App) (ws : list token) : App :=
  mkApp (wpm a) (profileKey a) ws (index a) (isPlaying a) (loopEnabled a) (timerId a)
    (isPdfMode a) (pdfLoader a) (pdfWaits a).
Definition set_profile (a : App) (k : string) : App :=
  mkApp (wpm a) k (words a) (index a) (isPlaying a) (loopEnabled a) (timerId a)
    (isPdfMode a) (pdfLoader a) (pdfWaits a).
Definition set_loop (a : App) (l : bool) : App :=
  mkApp (wpm a) (profileKey a) (words a) (index a) (isPlaying a) l (timerId a)
    (isPdfMode a) (pdfLoader a) (pdfWaits a).
Definition set_pdf (a : App) (m : bool) (ld : option Loader) (ws : list nat) : App :=
  mkApp (wpm a) (profileKey a) (words a) (index a) (isPlaying a) (loopEnabled a) (timerId a)
    m ld ws.

(** [stopLoop] *)
Definition stopLoop (a : App) : App := with_play a (isPlaying a) None.

(** The PDF branch of [scheduleNext]: [isPdfMode && pdfLoader],
    [pdfLoader.needsMoreContent(index)] and [index >= words.length - 1];
    the loader to wait on. *)
Definition pdf_wait (a : App) : option Loader :=
  if isPdfMode a then
    match pdfLoader a with
    | Some ld =>
        if needsMoreContent ld (Z.of_nat (index a))
           && (Z.of_nat (index a) >=? Z.of_nat (List.length (words a)) - 1)
        then Some ld else None
    | None => None
    end
  else None.

(** The number of the waiter a [waitForContent] call adds: one more than
    the waiters the loader has seen. *)
Definition fresh_waiter (ld : Loader) : nat :=
  S (List.length (contentWaiters ld) + List.length (released ld)).

Section PlayControl.

Variable isLN : char -> bool.

Definition scheduleNext (a : App) : App :=
  if negb (isPlaying a) then a
  else match pdf_wait a with
  | Some ld =>
      (* showLoadingOverlay(true); pdfLoader.waitForContent().then(...); return *)
      let w := fresh_waiter ld in
      set_pdf a (isPdfMode a) (Some (waitForContent w ld)) (pdfWaits a ++ [w])
  | None =>
      if negb (loopEnabled a)
         && (Z.of_nat (index a) >=? Z.of_nat (List.length (words a)) - 1) then
        (* setPlaying(false) *)
        with_play a false None
      else
        match nth_error (words a) (index a) with
        | Some tok =>
            match dwellMsForToken isLN (wpm a) (profileKey a) tok with
            | None => a
            | Some ms => with_play a true (Some ms)
            end
        | None => a
        end
  end.

Definition setPlaying (v : bool) (a : App) : App :=
  let a1 := stopLoop (with_play a v (timerId a)) in
  if v && (0 <? wpm a) then scheduleNext a1 else a1.

End PlayControl.

Close Scope Z_scope.

(** ** Auxiliary definitions: classes, scenarios and word shapes *)

Definition ascii_letters_LN (isLN : char -> bool) : Prop :=
  forall c : char, ((65 <= c <= 90) \/ (97 <= c <= 122))%N -> isLN c = true.
Definition classes_ok (isLN isS : char -> bool) : Prop :=
  ascii_letters_LN isLN /\ isS c_nl = true
  /\ (forall c, isS c = true -> isLN c = false).

Definition page_words (L : list (nat * PageData)) (k : nat) : list token :=
  match lookup k L with Some pd => pd_words pd | None => [] end.

Definition acc_words (a : text * list token * list (nat * WordRange)) : list token :=
  snd (fst a).
Definition acc_ranges (a : text * list token * list (nat * WordRange))
  : list (nat * WordRange) := snd a.

Definition two_pages : list (nat * PageData) :=
  [(2, mkPageData (of_string "b c") [mkToken (of_string "b") false; mkToken (of_string "c") false]);
   (1, mkPageData (of_string "a") [mkToken (of_string "a") false])].

Definition reachable (isLN isS : char -> bool) (st : Loader) : Prop :=
  exists total evs, st = run isLN isS (init total) evs.

Definition Inv (st : Loader) : Prop :=
  NoDup (map fst (loadedPages st))
  /\ Forall (le 1) (map fst (loadedPages st))
  /\ NoDup (map snd (fetches st))
  /\ Forall (le 1) (map snd (fetches st))
  /\ (forall n, In n (loadingPages st) <-> In n (map snd (fetches st)))
  /\ (forall n, In n (map snd (fetches st)) -> ~ In n (map fst (loadedPages st)))
  /\ (allText st, allWords st, pageWordRanges st) = rebuildAggregatedContent (loadedPages st).

Definition core (st : Loader) :=
  (loadedPages st, loadingPages st, fetches st, allText st, allWords st, pageWordRanges st).

Definition c1_loads : list event :=
  [LoadPage 1 2; FetchOk 2 (of_string "b"); LoadPage 2 1].

Definition c3_trace : list event :=
  [StartBackground; WaitForContent 7; LoadPage 5 2; FetchOk 1 (of_string "x")].

Definition c3_before : list event :=
  [StartBackground; WaitForContent 7; LoadPage 5 2].

Definition c4_trace : list event := [LoadPage 1 2; LoadPage 2 2; FetchFail 2].

Definition ws_before (isS : char -> bool) (a : text) : Prop :=
  a = [] \/ exists a0 w, a = a0 ++ [w] /\ isS w = true.
Definition ws_after (isS : char -> bool) (b : text) : Prop :=
  b = [] \/ exists w b0, b = w :: b0 /\ isS w = true.
Definition classes_ok_words (isLN isS : char -> bool) : Prop :=
  classes_ok isLN isS /\ isS c_cr = true
  /\ (forall c, In c [c_apos; c_dot; 47%N; 58%N] -> isS c = false)
  /\ isLN c_apos = false /\ isLN c_dot = false.
Definition word_form (w0 : text) (A D : list text) : text :=
  w0 ++ List.concat (map (cons c_apos) A) ++ List.concat (map (cons c_dot) D).
Definition has_prefix (P : text) (out : list token) : Prop :=
  exists tok r, In tok out /\ word tok = P ++ r.

Definition word_stop (isLN : char -> bool) (f : text) : Prop :=
  match f with
  | [] => True
  | c :: f' => isLN c = false
      /\ (c = c_apos \/ c = c_dot -> forall d f'', f' = d :: f'' -> isLN d = false)
  end.

Definition ln_group (isLN : char -> bool) (w : text) : bool :=
  negb (Nat.eqb (List.length w) 0) && forallb isLN w.

(** ** Play control, keyboard, and the loader's sequential page loads *)

Open Scope Z_scope.

(** [advanceTo(newIndex)]:
    [index = Math.max(0, Math.min(words.length - 1, newIndex))]; the
    redrawing is not modelled. *)
Definition advanceTo (a : App) (newIndex : Z) : App :=
  set_index a (Z.to_nat (Z.max 0 (Z.min (Z.of_nat (List.length (words a)) - 1) newIndex))).

Section Control.

Variable isLN : char -> bool.

(** The callback of the [setTimeout] that [scheduleNext] arms, when it
    fires: the timer is no longer pending. *)
Definition timerFire (a : App) : App :=
  match timerId a with
  | None => a
  | Some _ =>
      let a0 := with_play a (isPlaying a) None in
      if negb (isPlaying a0) then a0
      else if Z.of_nat (index a0) <? Z.of_nat (List.length (words a0)) - 1 then
        scheduleNext isLN (advanceTo a0 (Z.of_nat (index a0) + 1))
      else if loopEnabled a0 then scheduleNext isLN (advanceTo a0 0)
      else setPlaying isLN false a0
  end.

(** [restartIfPlaying] *)
Definition restartIfPlaying (a : App) : App :=
  if negb (isPlaying a) then a else scheduleNext isLN (stopLoop a).

(** [resetToStart] *)
Definition resetToStart (a : App) : App := restartIfPlaying (advanceTo a 0).

(** [applyWpm(v)]: [wpm = Math.max(50, Math.min(1500, v))], stored, and the
    loop restarted; for an integer [v]. *)
Definition applyWpm (v : Z) (a : App) : App :=
  restartIfPlaying (set_wpm a (Z.max 50 (Z.min 1500 v))).

(** [handleKeyDown] for a key pressed outside the input fields; the
    theme toggle and [Escape] leave the player alone. *)
Definition handleKeyDown (key : string) (a : App) : App :=
  if String.eqb key " " then setPlaying isLN (negb (isPlaying a)) a
  else if String.eqb key "ArrowLeft" then
    (if negb (isPlaying a) then advanceTo a (Z.of_nat (index a) - 1) else a)
  else if String.eqb key "ArrowRight" then
    (if negb (isPlaying a) then advanceTo a (Z.of_nat (index a) + 1) else a)
  else if String.eqb key "r" || String.eqb key "R" then resetToStart a
  else a.

End Control.

(** [setText(text)]: [isPdfMode = false], [pdfLoader = null], the words
    of the new text, from the first one, playing. *)
Definition setText (isLN isS : char -> bool) (s : text) (a : App) : App :=
  setPlaying isLN true
    (advanceTo (set_words (set_pdf a false None (pdfWaits a)) (tokenize isLN isS s)) 0).

(** A three-word text at 300 words per minute, shown from word [i]. *)
Definition demo_app (i : nat) (loop : bool) : App :=
  mkApp 300 "normal" (tokenize ascii_LN ascii_S (of_string "One two three.")) i false loop None
    false None [].

Close Scope Z_scope.

(** Profile [p] is nowhere above profile [q]. *)
Definition profile_le (p q : profile) : Prop :=
  (sentence p <= sentence q /\ comma p <= comma q /\ paragraph p <= paragraph q
   /\ longWord p <= longWord q /\ number p <= number q
   /\ minSentenceMs p <= minSentenceMs q /\ minCommaMs p <= minCommaMs q)%Z.

(** The setting a play-through keeps, and what it shows: word [j] of
    [words a], playing, with the timer armed for that word's dwell. *)
Definition same_setup (a b : App) : Prop :=
  words b = words a /\ wpm b = wpm a /\ profileKey b = profileKey a
  /\ loopEnabled b = loopEnabled a /\ isPdfMode b = isPdfMode a.

Definition shows (isLN : char -> bool) (a b : App) (j : nat) : Prop :=
  isPlaying b = true /\ index b = j
  /\ exists tok, nth_error (words a) j = Some tok
       /\ timerId b = dwellMsForToken isLN (wpm a) (profileKey a) tok.

(** How the fetch of each page ends: its text, or [None] when it throws. *)
Definition fetch_event (out : nat -> option text) (n : nat) : event :=
  match out n with Some t => FetchOk n t | None => FetchFail n end.

(** How a loop of [await this.loadPage(i)] ends: all awaited, a call threw,
    or a call is suspended polling for a page another call is fetching. *)
Inductive SeqEnd := SeqDone | SeqThrew | SeqWaiting.

Section SequentialLoads.

Variable isLN isS : char -> bool.

(** [for (i of ps) await this.loadPage(i)] by caller [c], run alone: each
    call either returns at once, or fetches the page and is awaited. *)
Fixpoint loadSeq (c : nat) (out : nat -> option text) (ps : list nat) (st : Loader)
    : Loader * SeqEnd :=
  match ps with
  | [] => (st, SeqDone)
  | i :: ps' =>
      let st1 := loadPage c i st in
      if Nat.ltb i 1 || Nat.ltb (totalPages st) i then loadSeq c out ps' st1
      else match lookup i (loadedPages st) with
           | Some _ => loadSeq c out ps' st1
           | None =>
               if existsb (Nat.eqb i) (loadingPages st) then (st1, SeqWaiting)
               else match out i with
                    | Some t => loadSeq c out ps' (fetchSucceeded isLN isS i t st1)
                    | None => (fetchFailed i st1, SeqThrew)
                    end
           end
  end.

(** [loadInitialPages(count)]: pages [1 .. min(count, totalPages)] in turn,
    then [nextPageToLoad = pagesToLoad + 1]. *)
Definition loadInitialPages (c count : nat) (out : nat -> option text) (st : Loader)
    : Loader * SeqEnd :=
  let pagesToLoad := Nat.min count (totalPages st) in
  match loadSeq c out (seq 1 pagesToLoad) st with
  | (st1, SeqDone) =>
      (set_background st1 (S pagesToLoad) (isBackgroundLoading st1) (allPagesLoaded st1)
         (bgTimer st1), SeqDone)
  | r => r
  end.

(** [loadAllPdfPages] of app.js: every page in turn, then
    [pdfLoader.allPagesLoaded = true]. *)
Definition loadAllPdfPages (c : nat) (out : nat -> option text) (st : Loader)
    : Loader * SeqEnd :=
  match loadSeq c out (seq 1 (totalPages st)) st with
  | (st1, SeqDone) =>
      (set_background st1 (nextPageToLoad st1) (isBackgroundLoading st1) true (bgTimer st1),
       SeqDone)
  | r => r
  end.

(** The pages of [ps] whose fetch succeeds, as [loadPage] stores them. *)
Definition loaded_of (out : nat -> option text) (ps : list nat) : list (nat * PageData) :=
  flat_map (fun n => match out n with
                     | Some t => [(n, mkPageData t (tokenizePage isLN isS t))]
                     | None => []
                     end) ps.

Definition page_tokens (out : nat -> option text) (n : nat) : list token :=
  match out n with Some t => tokenizePage isLN isS t | None => [] end.

End SequentialLoads.

(** The background cycle over pages [ps]: each fetch ends, then the
    [setTimeout] of [_loadNextPageInBackground] fires. *)
Definition bg_cycle (out : nat -> option text) (ps : list nat) : list event :=
  flat_map (fun n => [fetch_event out n; BackgroundTimer]) ps.

(** Every stored and every fetched page number is at most [totalPages]. *)
Definition Bnd (st : Loader) : Prop :=
  Forall (fun n => n <= totalPages st) (map fst (loadedPages st))
  /\ Forall (fun n => n <= totalPages st) (map snd (fetches st)).

(** The fields the sequential loads and the background cycle act on. *)
Definition lview (st : Loader) :=
  (totalPages st, loadedPages st, loadingPages st, fetches st,
   nextPageToLoad st, isBackgroundLoading st, allPagesLoaded st, bgTimer st).

(** The fetch of page [n] throws. *)
Definition fetch_fails (out : nat -> option text) (n : nat) : bool :=
  match out n with None => true | Some _ => false end.

(** A token whose word is word-like and made of characters satisfying [G]. *)
Definition good_token (isLN : char -> bool) (G : char -> Prop) (tok : token) : Prop :=
  isWordLike isLN (word tok) = true /\ forall c, In c (word tok) -> G c.

(** ** The app's event handlers

    The handlers of app.js that change the player or its PDF loader, as
    events on [App].  A stored setting is [Some] of the value read, or
    [None] when nothing usable is stored; rates are whole numbers. *)

(** [loadNum(key, fallback)]: [Number.isFinite(v) && v > 0 ? v : fallback]. *)
Definition loadNum (stored : option Z) (fallback : Z) : Z :=
  match stored with
  | Some v => if (0 <? v)%Z then v else fallback
  | None => fallback
  end.

(** The same two assignments of the rate on JavaScript numbers, for the
    values the model above leaves out: [NaN], infinities and fractions. *)
Module JsNum.
Import QArith_base.

(** A JavaScript number: [NaN], an infinity, or a finite value (a rational;
    every double is one).  Signed zeros are not told apart. *)
Inductive jsnum := JNaN | JPosInf | JNegInf | JFin (q : Q).

(** [x <= y] *)
Definition js_le (x y : jsnum) : bool :=
  match x, y with
  | JNaN, _ | _, JNaN => false
  | JNegInf, _ | _, JPosInf => true
  | JPosInf, _ | _, JNegInf => false
  | JFin p, JFin q => Qle_bool p q
  end.

(** [Math.min(x, y)] and [Math.max(x, y)] *)
Definition js_min (x y : jsnum) : jsnum :=
  match x, y with
  | JNaN, _ | _, JNaN => JNaN
  | _, _ => if js_le x y then x else y
  end.
Definition js_max (x y : jsnum) : jsnum :=
  match x, y with
  | JNaN, _ | _, JNaN => JNaN
  | _, _ => if js_le x y then y else x
  end.

(** [Number.isFinite(v) && v > 0] *)
Definition js_finite_pos (v : jsnum) : bool :=
  match v with JFin q => negb (Qle_bool q 0) | _ => false end.

(** [wpm <= 0], the test of [baseIntervalMs] *)
Definition js_nonpos (x : jsnum) : bool := js_le x (JFin 0).

(** [loadNum(STORAGE_KEYS.wpm, 300)], [v] being
    [Number(localStorage.getItem(key))]. *)
Definition loadNum_js (v : jsnum) : jsnum := if js_finite_pos v then v else JFin 300.

(** The rate [applyWpm(v)] stores: [Math.max(50, Math.min(1500, v))]. *)
Definition clampWpm_js (v : jsnum) : jsnum := js_max (JFin 50) (js_min (JFin 1500) v).

End JsNum.
Import JsNum.

(** [loadBool] and [loadStr] *)
Definition loadBool (stored : option bool) (fallback : bool) : bool :=
  match stored with Some b => b | None => fallback end.
Definition loadStr (stored : option string) (fallback : string) : string :=
  match stored with Some v => v | None => fallback end.

(** The caller number of the app's own [loadPage] loops. *)
Definition app_caller : nat := 1.

(** [PAUSE_PROFILES[key]] is set, for the keys of the profile select. *)
Definition is_profile (key : string) : bool :=
  String.eqb key "relaxed" || String.eqb key "normal" || String.eqb key "speed".

Inductive ui :=
| StartApp                                (* startApp, once the fonts are ready *)
| TimerFires                              (* the timer armed by scheduleNext *)
| TogglePlay                              (* play button, single tap *)
| Reset                                   (* reset button, double tap *)
| StepBack                                (* back button, right swipe *)
| StepForward                             (* forward button, left swipe *)
| KeyDown (key : string)                  (* a key outside the input fields *)
| ToggleLoop                              (* loop button *)
| SelectProfile (key : string)            (* profile select *)
| SetRate (v : Z)                         (* rate slider, rate field *)
| ApplyButton (s : text)                  (* Apply of the text modal *)
| OpenPdf (total : nat)                   (* a PDF file chosen *)
| QuickStart (out : nat -> option text)   (* the quick start button *)
| LoadAll (out : nat -> option text)      (* the load all button *)
| LoaderStep (e : event)                  (* the loader's asynchronous work *)
| ContentReady.                           (* a waitForContent promise settles *)

Section AppEvents.

Variable isLN isS : char -> bool.

(** [applyText()]: the trimmed text of the text area, unless empty. *)
Definition applyText (s : text) (a : App) : App :=
  match trim isS s with
  | [] => a
  | t => setText isLN isS t a
  end.

(** A new state of the loader, as the app sees it: [onWordsUpdated]
    copies the loader's words when a page was stored and [isPdfMode]
    holds. *)
Definition loader_update (a : App) (ld ld' : Loader) : App :=
  let a1 := set_pdf a (isPdfMode a) (Some ld') (pdfWaits a) in
  if isPdfMode a && Nat.ltb (List.length (loadedPages ld)) (List.length (loadedPages ld'))
  then set_words a1 (allWords ld') else a1.

(** [applyPdfText()]; [cacheForOffline] is not modelled. *)
Definition applyPdfText (s : text) (a : App) : App :=
  match pdfLoader a with
  | None => applyText s a
  | Some ld =>
      let a1 := setPlaying isLN true
                  (advanceTo (set_words (set_pdf a true (Some ld) (pdfWaits a)) (allWords ld)) 0) in
      match pdfLoader a1 with
      | Some ld1 => set_pdf a1 (isPdfMode a1) (Some (startBackgroundLoading ld1)) (pdfWaits a1)
      | None => a1
      end
  end.

(** The [.then] callback of the first promise of [pdfWaits] the loader has
    resolved: [words = pdfLoader.getAllWords()], then [scheduleNext()] if
    still playing. *)
Definition contentReady (a : App) : App :=
  match pdfLoader a with
  | Some ld =>
      match find (fun w => existsb (Nat.eqb w) (released ld)) (pdfWaits a) with
      | Some w =>
          let a1 := set_words (set_pdf a (isPdfMode a) (Some ld)
                                 (filter (fun x => negb (Nat.eqb x w)) (pdfWaits a)))
                      (allWords ld) in
          if isPlaying a1 then scheduleNext isLN a1 else a1
      | None => a
      end
  | None => a
  end.

Definition app_step (e : ui) (a : App) : App :=
  match e with
  | StartApp => setPlaying isLN false (applyWpm isLN (wpm a) a)
  | TimerFires => timerFire isLN a
  | TogglePlay => setPlaying isLN (negb (isPlaying a)) a
  | Reset => resetToStart isLN a
  | StepBack => if isPlaying a then a else advanceTo a (Z.of_nat (index a) - 1)%Z
  | StepForward => if isPlaying a then a else advanceTo a (Z.of_nat (index a) + 1)%Z
  | KeyDown k => handleKeyDown isLN k a
  | ToggleLoop => set_loop a (negb (loopEnabled a))
  | SelectProfile k => if is_profile k then restartIfPlaying isLN (set_profile a k) else a
  | SetRate v => applyWpm isLN v a
  | ApplyButton s =>
      if isPdfMode a && match pdfLoader a with Some _ => true | None => false end
      then applyPdfText s a else applyText s a
  | OpenPdf total => set_pdf a (isPdfMode a) (Some (init total)) (pdfWaits a)
  | QuickStart out =>
      match pdfLoader a with
      | Some ld => loader_update a ld (fst (loadInitialPages isLN isS app_caller 3 out ld))
      | None => a
      end
  | LoadAll out =>
      match pdfLoader a with
      | Some ld => loader_update a ld (fst (loadAllPdfPages isLN isS app_caller out ld))
      | None => a
      end
  | LoaderStep e =>
      match pdfLoader a with
      | Some ld => loader_update a ld (exec isLN isS ld e)
      | None => a
      end
  | ContentReady => contentReady a
  end.

Definition app_run (a : App) (evs : list ui) : App :=
  fold_left (fun a e => app_step e a) evs a.

End AppEvents.

(** The state [init()] leaves: the settings read from storage, the words
    of the last text, nothing playing, no PDF. *)
Definition boot (isLN isS : char -> bool) (wpmS : option Z) (profileS : option string)
    (loopS : option bool) (lastText : text) : App :=
  mkApp (loadNum wpmS 300) (loadStr profileS "normal") (tokenize isLN isS lastText) 0 false
    (loadBool loopS false) None false None [].

Definition app_reachable (isLN isS : char -> bool) (a : App) : Prop :=
  exists wpmS profileS loopS lastText evs,
    a = app_run isLN isS (boot isLN isS wpmS profileS loopS lastText) evs.

(** What the player's handlers leave alone in text mode: the mode, the
    pending waiters, the rate and the words. *)
Definition keeps (a b : App) : Prop :=
  isPdfMode b = isPdfMode a /\ pdfWaits b = pdfWaits a /\ wpm b = wpm a /\ words b = words a.

(** Text mode, no pending waiter, a positive rate, and the words of some
    text. *)
Definition app_text (isLN isS : char -> bool) (a : App) : Prop :=
  isPdfMode a = false /\ pdfWaits a = [] /\ (0 < wpm a)%Z
  /\ exists s, words a = tokenize isLN isS s.

(** A four-page document whose pages 1 to 3 load and whose page 4 throws;
    caller 1 loads the first three pages, then the background cycle runs
    while waiter 7 waits for content. *)
Definition c3_out (n : nat) : option text :=
  if Nat.leb n 3 then Some (of_string "w") else None.

Definition c3_quick : Loader := fst (loadInitialPages ascii_LN ascii_S 1 3 c3_out (init 4)).

Definition c3_events : list event :=
  [StartBackground; WaitForContent 7; FetchFail 4; BackgroundTimer].

Example loader_ex1 :
  let st := run ascii_LN ascii_S (init 3)
              [LoadPage 1 2; FetchOk 2 (of_string "b c"); LoadPage 2 1;
               FetchOk 1 (of_string "a")] in
  words_of (allWords st) = ["a"; "b"; "c"]%string
  /\ pageWordRange st 1 = Some (mkWordRange 0 0)
  /\ pageWordRange st 2 = Some (mkWordRange 1 2)
  /\ results st = [(1, Returned (Some (of_string "b c"))); (2, Returned (Some (of_string "a")))].
Proof. vm_compute. repeat split. Qed.

(** * Properties *)

(** ** Pacing engine and play control *)

Lemma utf16_length_le_ascii (w : text) :
  Forall (fun c => (c < 65536)%N) w -> utf16_length w = List.length w.
Proof.
  induction 1 as [|c w Hc _ IH]; simpl; [reflexivity|].
  destruct (65536 <=? c)%N eqn:E; [apply N.leb_le in E; lia | now rewrite IH].
Qed.

Lemma Forall_filter_sub {A} (P : A -> Prop) (f : A -> bool) (l : list A) :
  Forall P l -> Forall P (filter f l).
Proof.
  intro H. apply Forall_forall. intros x Hx.
  apply filter_In in Hx. exact (proj1 (Forall_forall P l) H x (proj1 Hx)).
Qed.

Lemma ends_comma_not_sentence (w : text) :
  ends_comma w = true -> ends_sentence w = false.
Proof.
  unfold ends_comma, ends_sentence. destruct (last_char w) as [c|]; [|discriminate].
  intro H. repeat rewrite Bool.orb_true_iff in H.
  destruct H as [[H|H]|H]; apply N.eqb_eq in H; subst; reflexivity.
Qed.

Lemma baseIntervalMs_pos (wpm : Z) :
  (0 < wpm)%Z -> baseIntervalMs wpm = Some (Z.max 1 (60000 / wpm)).
Proof.
  intro H. unfold baseIntervalMs. destruct (Z.leb_spec wpm 0); [lia | reflexivity].
Qed.

(** C6: a token ending in [.], [!] or [?] dwells at least the active
    profile's [minSentenceMs], one ending in [,], [;] or [:] at least its
    [minCommaMs], at every rate of [[50, 1500]] words per minute. *)
Theorem dwell_respects_minimums (isLN : char -> bool) (wpm : Z) (key : string) (tok : token) :
  (50 <= wpm <= 1500)%Z ->
  (ends_sentence (word tok) = true ->
     exists d, dwellMsForToken isLN wpm key tok = Some d
               /\ (minSentenceMs (getActiveProfile key) <= d)%Z)
  /\ (ends_comma (word tok) = true ->
     exists d, dwellMsForToken isLN wpm key tok = Some d
               /\ (minCommaMs (getActiveProfile key) <= d)%Z).
Proof.
  intro Hw. unfold dwellMsForToken. rewrite baseIntervalMs_pos by lia.
  cbv zeta. split; intro He.
  - rewrite He. eexists. split; [reflexivity | apply Z.le_max_r].
  - rewrite (ends_comma_not_sentence _ He), He. eexists.
    split; [reflexivity | apply Z.le_max_r].
Qed.

Lemma dwell_respects_minimums_witness :
  (50 <= 300 <= 1500)%Z /\
  ((ends_sentence (word (mkToken (of_string "Hello.") false)) = true ->
     exists d, dwellMsForToken ascii_LN 300 "speed" (mkToken (of_string "Hello.") false) = Some d
               /\ (minSentenceMs (getActiveProfile "speed") <= d)%Z)
  /\ (ends_comma (word (mkToken (of_string "Hello.") false)) = true ->
     exists d, dwellMsForToken ascii_LN 300 "speed" (mkToken (of_string "Hello.") false) = Some d
               /\ (minCommaMs (getActiveProfile "speed") <= d)%Z)).
Proof.
  split; [lia|]. apply (dwell_respects_minimums ascii_LN 300 "speed"). lia.
Defined.

(** C7: profile "normal" at 300 words per minute: a base interval of 200 ms,
    multiplier 3.0 and 600 ms for ["Hello."], 200 ms for ["cat"]. *)
Theorem normal_profile_300wpm_scenario (isLN : char -> bool) :
  baseIntervalMs 300 = Some 200%Z
  /\ sentence (getActiveProfile "normal") = 30%Z
  /\ minSentenceMs (getActiveProfile "normal") = 300%Z
  /\ tokenMultiplier isLN (getActiveProfile "normal") (mkToken (of_string "Hello.") false) = 30%Z
  /\ dwellMsForToken isLN 300 "normal" (mkToken (of_string "Hello.") false) = Some 600%Z
  /\ dwellMsForToken isLN 300 "normal" (mkToken (of_string "cat") false) = Some 200%Z.
Proof.
  assert (Hshort : forall w, Forall (fun c => (c < 65536)%N) w -> (List.length w <= 8)%nat ->
            (8 <? utf16_length (filter isLN w))%nat = false).
  { intros w Hw Hl. rewrite utf16_length_le_ascii by (apply Forall_filter_sub; exact Hw).
    pose proof (filter_length_le isLN w).
    unfold char in *.
    destruct (Nat.ltb_spec 8 (List.length (filter isLN w))); [lia | reflexivity]. }
  assert (H1 : (8 <? utf16_length (filter isLN (of_string "Hello.")))%nat = false)
    by (apply Hshort; [repeat constructor | simpl; lia]).
  assert (H2 : (8 <? utf16_length (filter isLN (of_string "cat")))%nat = false)
    by (apply Hshort; [repeat constructor | simpl; lia]).
  unfold dwellMsForToken, tokenMultiplier. cbn [word isParagraphEnd].
  rewrite H1, H2. vm_compute. repeat split.
Qed.

(** ** Tokenizer: where the characters of a token come from *)

Lemma text_len_ind (P : text -> Prop) :
  (forall s, (forall s', (List.length s' < List.length s)%nat -> P s') -> P s) ->
  forall s, P s.
Proof.
  intros H s. remember (List.length s) as n eqn:En.
  revert s En. induction n as [n IHn] using lt_wf_ind.
  intros s ->. apply H. intros s' Hs'. exact (IHn _ Hs' s' eq_refl).
Qed.

Lemma replace_crlf_incl (s : text) : incl (replace_crlf s) s.
Proof.
  induction s as [s IH] using text_len_ind.
  destruct s as [|a [|b t]]; simpl; [apply incl_refl | apply incl_refl|].
  destruct ((a =? c_cr)%N && (b =? c_nl)%N) eqn:E.
  - apply andb_true_iff in E as [_ E]. apply N.eqb_eq in E. subst b.
    apply incl_cons; [right; left; reflexivity|].
    intros x Hx. right; right. apply (IH t); simpl; [lia | exact Hx].
  - apply incl_cons; [left; reflexivity|].
    intros x Hx. right. apply (IH (b :: t)); simpl; [lia | exact Hx].
Qed.

Lemma replace_cr_chars (s : text) (c : char) :
  In c (replace_cr s) -> c = c_nl \/ In c s.
Proof.
  unfold replace_cr. intro H. apply in_map_iff in H as [x [Hx Hin]].
  destruct (x =? c_cr)%N; [left; congruence | right; subst; exact Hin].
Qed.

Lemma collapse_nl_chars (s : text) (k : nat) (c : char) :
  In c (collapse_nl k s) -> c = c_nl \/ In c s.
Proof.
  revert k. induction s as [|a t IH]; intros k H; simpl in H.
  - left. exact (repeat_spec _ _ _ H).
  - destruct (a =? c_nl)%N.
    + destruct (IH _ H) as [H'|H']; [now left | right; now right].
    + apply in_app_or in H as [H|[H|H]].
      * left. exact (repeat_spec _ _ _ H).
      * right. left. exact H.
      * destruct (IH _ H) as [H'|H']; [now left | right; now right].
Qed.

Lemma normalize_chars (s : text) (c : char) :
  In c (normalize s) -> c = c_nl \/ In c s.
Proof.
  unfold normalize. intro H.
  destruct (collapse_nl_chars _ _ _ H) as [H1|H1]; [now left|].
  destruct (replace_cr_chars _ _ H1) as [H2|H2]; [now left|].
  right. exact (replace_crlf_incl _ _ H2).
Qed.

Lemma cons_first_incl (c : char) (ps : list text) (s : text) :
  (forall p, In p ps -> incl p s) ->
  forall p, In p (cons_first c ps) -> incl p (c :: s).
Proof.
  intros Hps p Hp. destruct ps as [|q ps]; simpl in Hp.
  - destruct Hp as [<-|[]]. intros x [<-|[]]. now left.
  - destruct Hp as [<-|Hp].
    + apply incl_cons; [now left|]. intros x Hx. right. exact (Hps q (or_introl eq_refl) x Hx).
    + intros x Hx. right. exact (Hps p (or_intror Hp) x Hx).
Qed.

Lemma split_aux_incl (b : bool) (s : text) :
  forall p, In p (split_aux b s) -> incl p s.
Proof.
  revert b. induction s as [s IH] using text_len_ind. intros b p Hp.
  destruct s as [|c t]; simpl in Hp.
  { destruct Hp as [<-|[]]. apply incl_refl. }
  assert (IHt : forall b', forall q, In q (split_aux b' t) -> incl q t)
    by (intros; eapply IH; [simpl; lia | eassumption]).
  destruct (c =? c_nl)%N.
  - destruct b.
    + intros x Hx. right. exact (IHt true p Hp x Hx).
    + destruct t as [|d t'].
      * exact (cons_first_incl c _ [] (IHt false) p Hp).
      * destruct (d =? c_nl)%N.
        -- destruct Hp as [<-|Hp]; [intros x []|].
           intros x Hx. right; right.
           apply (IH t' ltac:(simpl; lia) true p Hp x Hx).
        -- exact (cons_first_incl c _ _ (IHt false) p Hp).
  - exact (cons_first_incl c _ _ (IHt false) p Hp).
Qed.

Lemma drop_while_incl (f : char -> bool) (s : text) : incl (drop_while f s) s.
Proof.
  induction s as [|a t IH]; simpl; [apply incl_refl|].
  destruct (f a); [intros x Hx; right; exact (IH x Hx) | apply incl_refl].
Qed.

Lemma trim_incl (isS : char -> bool) (s : text) : incl (trim isS s) s.
Proof.
  unfold trim. intros x Hx. apply in_rev in Hx.
  apply drop_while_incl in Hx. apply in_rev in Hx. exact (drop_while_incl _ _ x Hx).
Qed.

Lemma drop_while_all (f : char -> bool) (s : text) :
  (forall c, In c s -> f c = true) -> drop_while f s = [].
Proof.
  induction s as [|a t IH]; intro H; simpl; [reflexivity|].
  rewrite (H a (or_introl eq_refl)). apply IH. intros c Hc. exact (H c (or_intror Hc)).
Qed.

Lemma match_all_incl (isLN isS : char -> bool) (fuel : nat) (s : text) :
  forall t, In t (match_all isLN isS fuel s) -> incl t s.
Proof.
  revert s. induction fuel as [|f IH]; intros s t Ht; simpl in Ht; [destruct Ht|].
  destruct s as [|c r]; [destruct Ht|].
  destruct (match_at isLN isS (c :: r)) as [n|].
  - destruct Ht as [<-|Ht].
    + intros x Hx. rewrite <- (firstn_skipn n (c :: r)).
      apply in_or_app. now left.
    + intros x Hx. apply (IH _ _ Ht) in Hx. rewrite <- (firstn_skipn n (c :: r)).
      apply in_or_app. now right.
  - intros x Hx. right. exact (IH r t Ht x Hx).
Qed.

(** Facts of the Unicode classes the tokenizer relies on: ASCII letters
    are letters, newline is white space, and no white space character is a
    letter or a digit. *)
Lemma ascii_classes_ok : classes_ok ascii_LN ascii_S.
Proof.
  split; [|split; [reflexivity|]].
  - intros c Hc. unfold ascii_LN.
    destruct Hc as [[H1 H2]|[H1 H2]].
    + apply N.leb_le in H1, H2. rewrite H1, H2. now rewrite orb_true_r.
    + apply N.leb_le in H1, H2. rewrite H1, H2. now rewrite !orb_true_r.
  - intros c Hc. unfold ascii_S, ascii_LN in *.
    apply orb_true_iff in Hc as [Hc|Hc].
    + apply andb_true_iff in Hc as [H1 H2]. apply N.leb_le in H1, H2.
      assert (c = 9 \/ c = 10 \/ c = 11 \/ c = 12 \/ c = 13)%N as Hc by lia.
      destruct Hc as [->|[->|[->|[->| ->]]]]; reflexivity.
    + apply N.eqb_eq in Hc. subst c. reflexivity.
Qed.

Lemma starts_ci_head (a : char) (p t : text) :
  starts_ci (a :: p) t = true -> exists c t', t = c :: t' /\ lower c = a.
Proof.
  unfold starts_ci. destruct t as [|c t']; simpl; [discriminate|].
  destruct (N.eqb_spec a (lower c)); [|discriminate].
  intros _. exists c, t'. auto.
Qed.

Lemma lower_cases (c : char) : c = lower c \/ (c + 32 = lower c /\ 65 <= c <= 90)%N.
Proof.
  unfold lower. destruct ((65 <=? c)%N && (c <=? 90)%N) eqn:E; [right|now left].
  apply andb_true_iff in E as [E1 E2]. apply N.leb_le in E1, E2. split; [reflexivity|lia].
Qed.

Lemma isWordLike_no_LN (isLN : char -> bool) (t : text) :
  ascii_letters_LN isLN -> (forall c, In c t -> isLN c = false) ->
  isWordLike isLN t = false.
Proof.
  intros Hasc Ht.
  assert (Hci : forall a p, ((65 <= a <= 90) \/ (97 <= a <= 122))%N ->
                 starts_ci (a :: p) t = false).
  { intros a p Ha. destruct (starts_ci (a :: p) t) eqn:E; [|reflexivity].
    apply starts_ci_head in E as [c [t' [-> Hc]]].
    assert (isLN c = true).
    { apply Hasc. destruct (lower_cases c) as [H|[H1 H2]]; [|lia].
      rewrite H, Hc. exact Ha. }
    rewrite (Ht c (or_introl eq_refl)) in H. discriminate. }
  assert (E1 : starts_ci (of_string "http://") t = false)
    by (apply (Hci 104%N (of_string "ttp://")); lia).
  assert (E2 : starts_ci (of_string "https://") t = false)
    by (apply (Hci 104%N (of_string "ttps://")); lia).
  assert (E3 : starts_ci (of_string "www.") t = false)
    by (apply (Hci 119%N (of_string "ww.")); lia).
  unfold isWordLike. rewrite E1, E2, E3.
  destruct t as [|c t']; [reflexivity|]. now rewrite (Ht c (or_introl eq_refl)).
Qed.

Lemma fold_push_nil (isLN : char -> bool) (ts : list text) :
  (forall t, In t ts -> isWordLike isLN t = false) ->
  fold_left (push_token isLN) ts [] = [].
Proof.
  induction ts as [|t ts IH]; intro H; simpl; [reflexivity|].
  unfold push_token at 2. rewrite (H t (or_introl eq_refl)).
  apply IH. intros u Hu. exact (H u (or_intror Hu)).
Qed.

Lemma tok_paras_nil (isLN isS : char -> bool) (ps : list text) :
  (forall p t, In p ps -> In t (match_all isLN isS (List.length (trim isS p)) (trim isS p)) ->
     isWordLike isLN t = false) ->
  tok_paras isLN isS ps [] = [].
Proof.
  induction ps as [|p ps IH]; intro H; simpl; [reflexivity|].
  destruct (trim isS p) as [|c r] eqn:Et.
  - apply IH. intros q t Hq. exact (H q t (or_intror Hq)).
  - rewrite fold_push_nil.
    + destruct ps as [|p2 ps2]; [reflexivity|]. apply IH. intros q t Hq. exact (H q t (or_intror Hq)).
    + intros t Ht. apply (H p t (or_introl eq_refl)). now rewrite Et.
Qed.

(** A paragraph of [normalize s] holds only characters of [s] and newlines. *)
Lemma paragraph_chars (isS : char -> bool) (s p : text) (c : char) :
  In p (split_paras (normalize s)) -> In c (trim isS p) -> c = c_nl \/ In c s.
Proof.
  intros Hp Hc. apply trim_incl in Hc. apply (split_aux_incl _ _ _ Hp) in Hc.
  exact (normalize_chars _ _ Hc).
Qed.

(** C8: [tokenize] never returns an empty sequence, and a text without any
    letter or digit (the empty text, white space, punctuation only) gives
    exactly the single token [" "], not ending a paragraph. *)
Theorem tokenize_total (isLN isS : char -> bool) (s : text) :
  classes_ok isLN isS ->
  tokenize isLN isS s <> []
  /\ ((forall c, In c s -> isLN c = false) -> tokenize isLN isS s = [mkToken [c_sp] false]).
Proof.
  intros [Hasc [Hnl Hdis]]. split.
  - unfold tokenize. destruct (tokenizePage isLN isS s); discriminate.
  - intro Hs. unfold tokenize, tokenizePage. rewrite tok_paras_nil; [reflexivity|].
    intros p t Hp Ht. apply isWordLike_no_LN; [exact Hasc|].
    intros c Hc. apply (match_all_incl _ _ _ _ _ Ht) in Hc.
    destruct (paragraph_chars isS s p c Hp Hc) as [->|Hc']; [exact (Hdis _ Hnl) | exact (Hs c Hc')].
Qed.

Lemma tokenize_total_witness :
  classes_ok ascii_LN ascii_S
  /\ tokenize ascii_LN ascii_S (of_string " ... ") <> []
  /\ ((forall c, In c (of_string " ... ") -> ascii_LN c = false) ->
      tokenize ascii_LN ascii_S (of_string " ... ") = [mkToken [c_sp] false]).
Proof.
  split; [exact ascii_classes_ok|].
  exact (tokenize_total ascii_LN ascii_S (of_string " ... ") ascii_classes_ok).
Defined.

(** ** PDF loader: sorting page numbers *)

Lemma insert_sorted_perm (x : nat) (l : list nat) : Permutation (insert_sorted x l) (x :: l).
Proof.
  induction l as [|y t IH]; simpl; [reflexivity|].
  destruct (Nat.leb x y); [reflexivity|].
  rewrite IH. apply perm_swap.
Qed.

Lemma sort_nat_perm (l : list nat) : Permutation (sort_nat l) l.
Proof.
  induction l as [|x t IH]; simpl; [reflexivity|].
  rewrite insert_sorted_perm. now apply perm_skip.
Qed.

Lemma insert_sorted_sorted (x : nat) (l : list nat) :
  StronglySorted le l -> StronglySorted le (insert_sorted x l).
Proof.
  induction 1 as [|y t Ht IH Hy]; simpl; [repeat constructor|].
  destruct (Nat.leb_spec x y).
  - constructor; [constructor; assumption|].
    constructor; [lia|]. eapply Forall_impl; [|exact Hy]. simpl; intros; lia.
  - constructor; [exact IH|].
    apply Forall_forall. intros z Hz.
    apply (Permutation_in _ (insert_sorted_perm x t)) in Hz.
    destruct Hz as [<-|Hz]; [lia | exact (proj1 (Forall_forall _ _) Hy z Hz)].
Qed.

Lemma sort_nat_sorted (l : list nat) : StronglySorted le (sort_nat l).
Proof.
  induction l as [|x t IH]; simpl; [constructor|]. now apply insert_sorted_sorted.
Qed.

Lemma sorted_perm_unique (l1 l2 : list nat) :
  StronglySorted le l1 -> StronglySorted le l2 -> Permutation l1 l2 -> l1 = l2.
Proof.
  revert l2. induction l1 as [|a t1 IH]; intros l2 H1 H2 Hp.
  - symmetry. exact (Permutation_nil Hp).
  - destruct l2 as [|b t2]; [apply Permutation_sym, Permutation_nil in Hp; discriminate|].
    apply StronglySorted_inv in H1 as [H1 Ha], H2 as [H2 Hb].
    assert (a = b).
    { assert (Hab : In a (b :: t2)) by (apply (Permutation_in _ Hp); now left).
      assert (Hba : In b (a :: t1)) by (apply (Permutation_in _ (Permutation_sym Hp)); now left).
      destruct Hab as [|Hab]; [congruence|]. destruct Hba as [|Hba]; [congruence|].
      pose proof (proj1 (Forall_forall _ _) Ha b Hba).
      pose proof (proj1 (Forall_forall _ _) Hb a Hab). lia. }
    subst b. f_equal. apply IH; [exact H1 | exact H2 | exact (Permutation_cons_inv Hp)].
Qed.

Lemma sort_nat_perm_eq (l1 l2 : list nat) : Permutation l1 l2 -> sort_nat l1 = sort_nat l2.
Proof.
  intro Hp. apply sorted_perm_unique; try apply sort_nat_sorted.
  rewrite !sort_nat_perm. exact Hp.
Qed.

Lemma sort_nat_snoc (l : list nat) (n : nat) :
  sort_nat (l ++ [n]) = insert_sorted n (sort_nat l).
Proof.
  apply sorted_perm_unique; [apply sort_nat_sorted | apply insert_sorted_sorted, sort_nat_sorted|].
  rewrite sort_nat_perm, insert_sorted_perm, sort_nat_perm.
  symmetry. apply Permutation_cons_append.
Qed.

Lemma filter_none {A} (f : A -> bool) (l : list A) :
  (forall x, In x l -> f x = false) -> filter f l = [].
Proof.
  induction l as [|x t IH]; intro H; simpl; [reflexivity|].
  rewrite (H x (or_introl eq_refl)). apply IH. intros y Hy. exact (H y (or_intror Hy)).
Qed.

Lemma filter_all {A} (f : A -> bool) (l : list A) :
  (forall x, In x l -> f x = true) -> filter f l = l.
Proof.
  induction l as [|x t IH]; intro H; simpl; [reflexivity|].
  rewrite (H x (or_introl eq_refl)). f_equal. apply IH. intros y Hy. exact (H y (or_intror Hy)).
Qed.

(** Inserting a new page number splits the sorted list at it. *)
Lemma insert_sorted_split (n : nat) (l : list nat) :
  StronglySorted le l -> ~ In n l ->
  l = filter (fun k => Nat.ltb k n) l ++ filter (fun k => Nat.ltb n k) l
  /\ insert_sorted n l = filter (fun k => Nat.ltb k n) l ++ n :: filter (fun k => Nat.ltb n k) l.
Proof.
  induction 1 as [|y t Ht IH Hy]; intro Hn; simpl; [split; reflexivity|].
  assert (Hyn : y <> n) by (intro; apply Hn; now left).
  destruct (IH (fun H => Hn (or_intror H))) as [E1 E2].
  destruct (Nat.leb_spec n y).
  - assert (Hall : forall k, In k t -> n < k).
    { intros k Hk. pose proof (proj1 (Forall_forall _ _) Hy k Hk). lia. }
    rewrite (proj2 (Nat.ltb_ge y n)) by lia. rewrite (proj2 (Nat.ltb_lt n y)) by lia.
    rewrite filter_none by (intros k Hk; apply Nat.ltb_ge; pose proof (Hall k Hk); lia).
    rewrite filter_all by (intros k Hk; apply Nat.ltb_lt; exact (Hall k Hk)).
    split; reflexivity.
  - rewrite (proj2 (Nat.ltb_lt y n)) by lia. rewrite (proj2 (Nat.ltb_ge n y)) by lia.
    simpl. split; f_equal; assumption.
Qed.

(** ** PDF loader: the aggregated sequence *)

Lemma lookup_map_set {A} (i k : nat) (v : A) (r : list (nat * A)) :
  lookup i (map_set k v r) = if Nat.eqb i k then Some v else lookup i r.
Proof.
  induction r as [|[k' v'] r IH]; simpl.
  - reflexivity.
  - destruct (Nat.eqb_spec k k'); simpl.
    + subst k'. destruct (Nat.eqb i k); reflexivity.
    + rewrite IH. destruct (Nat.eqb_spec i k), (Nat.eqb_spec i k'); congruence.
Qed.

Lemma fold_rebuild_words (L : list (nat * PageData)) (ks : list nat) acc :
  acc_words (fold_left (rebuild_step L) ks acc) = acc_words acc ++ flat_map (page_words L) ks.
Proof.
  revert acc. induction ks as [|k ks IH]; intros [[t w] r]; simpl.
  - now rewrite app_nil_r.
  - rewrite IH. unfold rebuild_step, page_words, acc_words. simpl.
    destruct (lookup k L); simpl; [now rewrite app_assoc | reflexivity].
Qed.

Lemma fold_rebuild_ranges_other (L : list (nat * PageData)) (ks : list nat) acc (i : nat) :
  (forall k, In k ks -> k - 1 <> i) ->
  lookup i (acc_ranges (fold_left (rebuild_step L) ks acc)) = lookup i (acc_ranges acc).
Proof.
  revert acc. induction ks as [|k ks IH]; intros [[t w] r] H; simpl; [reflexivity|].
  rewrite IH by (intros; apply H; now right).
  unfold rebuild_step. destruct (lookup k L); [|reflexivity].
  unfold acc_ranges; simpl. rewrite lookup_map_set.
  destruct (Nat.eqb_spec i (k - 1)); [|reflexivity].
  exfalso. apply (H k); [now left | congruence].
Qed.

(** The range recorded for a page is where its words sit in the sequence. *)
Lemma rebuild_range_at (L : list (nat * PageData)) (ks1 ks2 : list nat) (k : nat) (pd : PageData) :
  lookup k L = Some pd -> 1 <= k -> ~ In k ks2 -> Forall (le 1) ks2 ->
  lookup (k - 1) (acc_ranges (fold_left (rebuild_step L) (ks1 ++ k :: ks2) ([], [], [])))
  = Some (mkWordRange (Z.of_nat (List.length (flat_map (page_words L) ks1)))
            (Z.of_nat (List.length (flat_map (page_words L) ks1) + List.length (pd_words pd)) - 1)%Z).
Proof.
  intros Hk Hk1 Hn H1. rewrite fold_left_app. simpl fold_left.
  rewrite fold_rebuild_ranges_other.
  - remember (fold_left (rebuild_step L) ks1 ([], [], [])) as a eqn:Ea.
    assert (Hw : acc_words a = flat_map (page_words L) ks1)
      by (subst a; now rewrite fold_rebuild_words).
    destruct a as [[t w] r]. unfold acc_words in Hw; simpl in Hw. subst w.
    unfold rebuild_step. rewrite Hk. unfold acc_ranges; simpl.
    rewrite lookup_map_set, Nat.eqb_refl, length_app. reflexivity.
  - intros k' Hk'. pose proof (proj1 (Forall_forall _ _) H1 k' Hk').
    intro E. apply Hn. replace k with k' by lia. exact Hk'.
Qed.

Lemma lookup_in_keys {A} (k : nat) (L : list (nat * A)) (v : A) :
  lookup k L = Some v -> In k (map fst L).
Proof.
  induction L as [|[k' v'] L IH]; simpl; [discriminate|].
  destruct (Nat.eqb_spec k k'); [now left|]. intro H. right. exact (IH H).
Qed.

Lemma lookup_not_in_keys {A} (k : nat) (L : list (nat * A)) :
  ~ In k (map fst L) -> lookup k L = None.
Proof.
  induction L as [|[k' v'] L IH]; simpl; [reflexivity|]. intro H.
  destruct (Nat.eqb_spec k k'); [exfalso; apply H; now left|]. apply IH. tauto.
Qed.

Lemma skipn_length_app {A} (l1 l2 : list A) : skipn (List.length l1) (l1 ++ l2) = l2.
Proof. induction l1; simpl; auto. Qed.

Lemma firstn_length_app {A} (l1 l2 : list A) : firstn (List.length l1) (l1 ++ l2) = l1.
Proof. induction l1; simpl; [reflexivity|]. now f_equal. Qed.

Lemma sorted_before (ks1 ks2 : list nat) (p x : nat) :
  StronglySorted le (ks1 ++ p :: ks2) -> In x ks1 -> x <= p.
Proof.
  induction ks1 as [|y t IH]; simpl; [tauto|]. intros H [<-|Hx].
  - apply StronglySorted_inv in H as [_ H]. apply (proj1 (Forall_forall _ _) H).
    apply in_or_app. right. now left.
  - apply StronglySorted_inv in H as [H _]. exact (IH H Hx).
Qed.

Lemma fold_left_ext {A B} (f g : A -> B -> A) (l : list B) (a : A) :
  (forall x y, f x y = g x y) -> fold_left f l a = fold_left g l a.
Proof. revert a. induction l as [|b l IH]; intros a H; simpl; [reflexivity|]. rewrite H. now apply IH. Qed.

Lemma NoDup_keys_perm {A} (L L' : list (nat * A)) :
  Permutation L L' -> NoDup (map fst L) -> NoDup (map fst L').
Proof. intros Hp H. apply (Permutation_NoDup (Permutation_map fst Hp)) in H. exact H. Qed.

Lemma lookup_perm {A} (L L' : list (nat * A)) (k : nat) :
  Permutation L L' -> NoDup (map fst L) -> lookup k L = lookup k L'.
Proof.
  induction 1 as [|[a v] l l' Hp IH|[a v] [b w] l|l l' l'' H1 IH1 H2 IH2]; intro Hnd; simpl.
  - reflexivity.
  - inversion Hnd; subst. now rewrite IH.
  - simpl in Hnd. inversion Hnd as [|? ? Hn Hnd']; subst.
    destruct (Nat.eqb_spec k b), (Nat.eqb_spec k a); try reflexivity.
    subst. exfalso. apply Hn. now left.
  - rewrite IH1 by exact Hnd. apply IH2. exact (NoDup_keys_perm _ _ H1 Hnd).
Qed.

Lemma sorted_keys_decomp {A} (L : list (nat * A)) (p : nat) :
  NoDup (map fst L) -> Forall (le 1) (map fst L) -> In p (map fst L) ->
  exists ks1 ks2, sort_nat (map fst L) = ks1 ++ p :: ks2
    /\ ~ In p ks1 /\ ~ In p ks2 /\ Forall (le 1) (ks1 ++ p :: ks2)
    /\ NoDup (ks1 ++ p :: ks2).
Proof.
  intros Hnd H1 Hp.
  assert (Hin : In p (sort_nat (map fst L)))
    by (apply (Permutation_in _ (Permutation_sym (sort_nat_perm _))); exact Hp).
  apply in_split in Hin as [ks1 [ks2 E]]. exists ks1, ks2.
  assert (Hnd' : NoDup (ks1 ++ p :: ks2))
    by (rewrite <- E; exact (Permutation_NoDup (Permutation_sym (sort_nat_perm _)) Hnd)).
  pose proof (NoDup_remove_2 _ _ _ Hnd') as Hn.
  repeat split; try exact E; try exact Hnd'.
  - intro H. apply Hn. apply in_or_app. now left.
  - intro H. apply Hn. apply in_or_app. now right.
  - rewrite <- E. apply Forall_forall. intros x Hx.
    apply (Permutation_in _ (sort_nat_perm _)) in Hx.
    exact (proj1 (Forall_forall _ _) H1 x Hx).
Qed.

Lemma page_words_some (L : list (nat * PageData)) (k : nat) (pd : PageData) :
  lookup k L = Some pd -> page_words L k = pd_words pd.
Proof. unfold page_words. now intros ->. Qed.

Lemma rebuild_words (L : list (nat * PageData)) :
  acc_words (rebuildAggregatedContent L) = flat_map (page_words L) (sort_nat (map fst L)).
Proof. unfold rebuildAggregatedContent. now rewrite fold_rebuild_words. Qed.

Lemma Forall_app_r {A} (P : A -> Prop) (l1 l2 : list A) : Forall P (l1 ++ l2) -> Forall P l2.
Proof. intro H. apply Forall_app in H. exact (proj2 H). Qed.

(** C2: after a rebuild, each loaded page's range is exactly where its words
    sit in the aggregated sequence, a page with a smaller number ends
    before one with a larger number starts, and the result does not depend
    on the order in which the pages were loaded. *)
Theorem rebuild_ranges_sorted_disjoint (L : list (nat * PageData)) :
  NoDup (map fst L) -> Forall (le 1) (map fst L) ->
  (forall p pd, lookup p L = Some pd ->
     exists start : nat,
       lookup (p - 1) (acc_ranges (rebuildAggregatedContent L))
       = Some (mkWordRange (Z.of_nat start)
                 (Z.of_nat (start + List.length (pd_words pd)) - 1)%Z)
       /\ firstn (List.length (pd_words pd))
            (skipn start (acc_words (rebuildAggregatedContent L))) = pd_words pd)
  /\ (forall p q pdp pdq rp rq, lookup p L = Some pdp -> lookup q L = Some pdq -> p < q ->
       lookup (p - 1) (acc_ranges (rebuildAggregatedContent L)) = Some rp ->
       lookup (q - 1) (acc_ranges (rebuildAggregatedContent L)) = Some rq ->
       (wr_end rp < wr_start rq)%Z)
  /\ (forall L', Permutation L L' -> rebuildAggregatedContent L' = rebuildAggregatedContent L).
Proof.
  intros Hnd H1.
  assert (Hpage : forall p pd ks1 ks2, lookup p L = Some pd ->
            sort_nat (map fst L) = ks1 ++ p :: ks2 -> ~ In p ks2 ->
            Forall (le 1) (ks1 ++ p :: ks2) ->
            lookup (p - 1) (acc_ranges (rebuildAggregatedContent L))
            = Some (mkWordRange (Z.of_nat (List.length (flat_map (page_words L) ks1)))
                     (Z.of_nat (List.length (flat_map (page_words L) ks1)
                                + List.length (pd_words pd)) - 1)%Z)).
  { intros p pd ks1 ks2 Hp E Hn Hf. unfold rebuildAggregatedContent. rewrite E.
    apply Forall_app_r in Hf. inversion Hf; subst.
    apply rebuild_range_at; assumption. }
  split; [|split].
  - intros p pd Hp.
    destruct (sorted_keys_decomp L p Hnd H1 (lookup_in_keys _ _ _ Hp))
      as [ks1 [ks2 [E [_ [Hn [Hf _]]]]]].
    exists (List.length (flat_map (page_words L) ks1)). split.
    + exact (Hpage p pd ks1 ks2 Hp E Hn Hf).
    + rewrite rebuild_words, E, flat_map_app. simpl flat_map.
      rewrite (page_words_some _ _ _ Hp).
      rewrite skipn_length_app. apply firstn_length_app.
  - intros p q pdp pdq rp rq Hp Hq Hpq Hrp Hrq.
    destruct (sorted_keys_decomp L p Hnd H1 (lookup_in_keys _ _ _ Hp))
      as [ks1 [ks2 [E [_ [Hn [Hf Hnd']]]]]].
    assert (Hq2 : In q ks2).
    { assert (Hqs : In q (ks1 ++ p :: ks2)).
      { rewrite <- E. apply (Permutation_in _ (Permutation_sym (sort_nat_perm _))).
        exact (lookup_in_keys _ _ _ Hq). }
      apply in_app_or in Hqs as [Hqs|[Hqs|Hqs]]; [|lia|exact Hqs].
      pose proof (sorted_before ks1 ks2 p q ltac:(rewrite <- E; apply sort_nat_sorted) Hqs).
      lia. }
    apply in_split in Hq2 as [ks21 [ks22 E2]]. subst ks2.
    assert (E' : sort_nat (map fst L) = (ks1 ++ p :: ks21) ++ q :: ks22)
      by (rewrite E, <- app_assoc; reflexivity).
    assert (Hnq : ~ In q ks22).
    { assert (Hnd2 : NoDup ((ks1 ++ p :: ks21) ++ q :: ks22))
        by (rewrite <- E', E; exact Hnd').
      intro H. apply (NoDup_remove_2 _ _ _ Hnd2). apply in_or_app. now right. }
    rewrite (Hpage p pdp ks1 _ Hp E Hn Hf) in Hrp.
    rewrite (Hpage q pdq _ ks22 Hq E' Hnq ltac:(rewrite <- E'; rewrite E; exact Hf)) in Hrq.
    injection Hrp as <-. injection Hrq as <-. simpl.
    rewrite flat_map_app, length_app. simpl flat_map. rewrite length_app.
    rewrite (page_words_some _ _ _ Hp). lia.
  - intros L' Hp. unfold rebuildAggregatedContent.
    rewrite (sort_nat_perm_eq (map fst L') (map fst L))
      by exact (Permutation_sym (Permutation_map fst Hp)).
    apply fold_left_ext. intros [[t w] r] k. unfold rebuild_step.
    now rewrite (lookup_perm L L' k Hp Hnd).
Qed.

Lemma rebuild_ranges_sorted_disjoint_witness :
  NoDup (map fst two_pages) /\ Forall (le 1) (map fst two_pages)
  /\ acc_words (rebuildAggregatedContent two_pages)
     = [mkToken (of_string "a") false; mkToken (of_string "b") false;
        mkToken (of_string "c") false]
  /\ ((forall p pd, lookup p two_pages = Some pd ->
        exists start : nat,
          lookup (p - 1) (acc_ranges (rebuildAggregatedContent two_pages))
          = Some (mkWordRange (Z.of_nat start)
                    (Z.of_nat (start + List.length (pd_words pd)) - 1)%Z)
          /\ firstn (List.length (pd_words pd))
               (skipn start (acc_words (rebuildAggregatedContent two_pages))) = pd_words pd)
     /\ (forall p q pdp pdq rp rq, lookup p two_pages = Some pdp ->
          lookup q two_pages = Some pdq -> p < q ->
          lookup (p - 1) (acc_ranges (rebuildAggregatedContent two_pages)) = Some rp ->
          lookup (q - 1) (acc_ranges (rebuildAggregatedContent two_pages)) = Some rq ->
          (wr_end rp < wr_start rq)%Z)
     /\ (forall L', Permutation two_pages L' ->
          rebuildAggregatedContent L' = rebuildAggregatedContent two_pages)).
Proof.
  assert (H1 : NoDup (map fst two_pages)).
  { simpl. constructor; [simpl; lia|]. constructor; [simpl; lia | constructor]. }
  assert (H2 : Forall (le 1) (map fst two_pages)) by (simpl; repeat constructor).
  split; [exact H1|]. split; [exact H2|]. split; [vm_compute; reflexivity|].
  exact (rebuild_ranges_sorted_disjoint two_pages H1 H2).
Defined.

(** ** PDF loader: the invariant of reachable states *)

Lemma Inv_core (st st' : Loader) : core st' = core st -> Inv st -> Inv st'.
Proof.
  unfold core, Inv. intro E. injection E as E1 E2 E3 E4 E5 E6.
  rewrite E1, E2, E3, E4, E5, E6. tauto.
Qed.

Lemma Inv_init (total : nat) : Inv (init total).
Proof.
  unfold Inv, init; simpl. repeat split; try constructor; tauto.
Qed.

Lemma core_settle (st : Loader) (c : nat) (r : CallResult) : core (settle st c r) = core st.
Proof. unfold settle. destruct (Nat.eqb c bg_caller); reflexivity. Qed.

Lemma lookup_None_not_in {A} (k : nat) (L : list (nat * A)) :
  lookup k L = None -> ~ In k (map fst L).
Proof.
  induction L as [|[k' v] L IH]; simpl; [tauto|].
  destruct (Nat.eqb_spec k k'); [discriminate|]. intros H [E|H']; [congruence | exact (IH H H')].
Qed.

Lemma map_set_new {A} (k : nat) (v : A) (L : list (nat * A)) :
  ~ In k (map fst L) -> map_set k v L = L ++ [(k, v)].
Proof.
  induction L as [|[k' v'] L IH]; simpl; [reflexivity|]. intro H.
  destruct (Nat.eqb_spec k k'); [exfalso; apply H; now left|]. f_equal. apply IH. tauto.
Qed.

Lemma find_fetch_in (n c : nat) (f : list (nat * nat)) :
  find_fetch n f = Some c -> In n (map snd f).
Proof.
  induction f as [|[c' m] r IH]; simpl; [discriminate|].
  destruct (Nat.eqb_spec n m); [now left|]. intro H. right. exact (IH H).
Qed.

Lemma remove_fetch_spec (n : nat) (f : list (nat * nat)) :
  NoDup (map snd f) ->
  NoDup (map snd (remove_fetch n f))
  /\ (forall m, In m (map snd (remove_fetch n f)) <-> In m (map snd f) /\ m <> n).
Proof.
  induction f as [|[c m] r IH]; simpl; intro Hnd.
  - split; [constructor | tauto].
  - inversion Hnd as [|? ? Hm Hr]; subst.
    destruct (Nat.eqb_spec n m).
    + subst m. split; [exact Hr|]. intro x. split.
      * intro Hx. split; [now right|]. intro; subst; contradiction.
      * intros [[Hx|Hx] Hne]; [congruence | exact Hx].
    + destruct (IH Hr) as [IH1 IH2]. simpl. split.
      * constructor; [|exact IH1]. rewrite IH2. tauto.
      * intro x. rewrite IH2. split; [intros [<-|[H1 H2]]; [split; [now left|congruence]|tauto]|].
        intros [[<-|H1] H2]; [now left | right; tauto].
Qed.

Lemma NoDup_snoc (l : list nat) (n : nat) : NoDup l -> ~ In n l -> NoDup (l ++ [n]).
Proof.
  intros H Hn. apply (Permutation_NoDup (Permutation_cons_append l n)). now constructor.
Qed.

Lemma existsb_eqb_false (n : nat) (l : list nat) : existsb (Nat.eqb n) l = false -> ~ In n l.
Proof.
  intros H Hn. assert (existsb (Nat.eqb n) l = true) by (apply existsb_exists; exists n; split; [exact Hn | apply Nat.eqb_refl]).
  congruence.
Qed.

Section LoaderInvariant.

Variable isLN isS : char -> bool.

Lemma fetchSucceeded_fields (n : nat) (t : text) (st : Loader) (c : nat) :
  find_fetch n (fetches st) = Some c ->
  let L' := map_set n (mkPageData t (tokenizePage isLN isS t)) (loadedPages st) in
  let st' := fetchSucceeded isLN isS n t st in
  loadedPages st' = L'
  /\ loadingPages st' = set_delete n (loadingPages st)
  /\ fetches st' = remove_fetch n (fetches st)
  /\ (allText st', allWords st', pageWordRanges st') = rebuildAggregatedContent L'
  /\ contentWaiters st' = []
  /\ released st' = released st ++ contentWaiters st
  /\ isBackgroundLoading st' = isBackgroundLoading st
  /\ results st' = results st ++ [(c, Returned (Some t))].
Proof.
  intro Hf. unfold fetchSucceeded. rewrite Hf. unfold set_pages.
  destruct (rebuildAggregatedContent _) as [[txt ws] rs] eqn:E.
  unfold settle. destruct (Nat.eqb c bg_caller); simpl; repeat split.
Qed.

Lemma fetchFailed_fields (n : nat) (st : Loader) (c : nat) :
  find_fetch n (fetches st) = Some c ->
  let st' := fetchFailed n st in
  core st' = (loadedPages st, set_delete n (loadingPages st), remove_fetch n (fetches st),
              allText st, allWords st, pageWordRanges st)
  /\ pollers st' = pollers st
  /\ results st' = results st ++ [(c, Threw)].
Proof.
  intro Hf. unfold fetchFailed. rewrite Hf. unfold settle.
  destruct (Nat.eqb c bg_caller); simpl; repeat split.
Qed.

Lemma Inv_loadPage (c n : nat) (st : Loader) : Inv st -> Inv (loadPage c n st).
Proof.
  intro HI. unfold loadPage.
  destruct (Nat.ltb n 1 || Nat.ltb (totalPages st) n) eqn:Er;
    [exact (Inv_core _ _ (core_settle _ _ _) HI)|].
  destruct (lookup n (loadedPages st)) as [pd|] eqn:El;
    [exact (Inv_core _ _ (core_settle _ _ _) HI)|].
  destruct (existsb (Nat.eqb n) (loadingPages st)) eqn:Ex; [exact (Inv_core _ _ eq_refl HI)|].
  apply orb_false_iff in Er as [Er _]. apply Nat.ltb_ge in Er.
  unfold set_add. rewrite Ex.
  apply existsb_eqb_false in Ex. apply lookup_None_not_in in El.
  destruct HI as [H1 [H2 [H3 [H4 [H5 [H6 H7]]]]]].
  unfold Inv; simpl. rewrite map_app. simpl.
  assert (Hnf : ~ In n (map snd (fetches st))) by (rewrite <- H5; exact Ex).
  repeat split; try assumption.
  - apply NoDup_snoc; assumption.
  - apply Forall_app. split; [exact H4 | constructor; [lia | constructor]].
  - intro Hm. apply in_app_or in Hm as [Hm|[<-|[]]]; apply in_or_app;
      [left; now apply H5 | right; now left].
  - intro Hm. apply in_app_or in Hm as [Hm|[<-|[]]]; apply in_or_app;
      [left; now apply H5 | right; now left].
  - intros m Hm. apply in_app_or in Hm as [Hm|[<-|[]]]; [exact (H6 m Hm) | exact El].
Qed.

Lemma Inv_fetchSucceeded (n : nat) (t : text) (st : Loader) :
  Inv st -> Inv (fetchSucceeded isLN isS n t st).
Proof.
  intro HI. destruct (find_fetch n (fetches st)) as [c|] eqn:Hf;
    [|unfold fetchSucceeded; rewrite Hf; exact HI].
  destruct (fetchSucceeded_fields n t st c Hf) as [E1 [E2 [E3 [E4 _]]]].
  pose proof (find_fetch_in _ _ _ Hf) as Hn.
  destruct HI as [H1 [H2 [H3 [H4 [H5 [H6 H7]]]]]].
  destruct (remove_fetch_spec n _ H3) as [R1 R2].
  assert (HnL : ~ In n (map fst (loadedPages st))) by exact (H6 n Hn).
  unfold Inv. rewrite E1, E2, E3, E4. rewrite map_set_new by exact HnL.
  rewrite map_app. simpl. repeat split.
  - apply NoDup_snoc; assumption.
  - apply Forall_app. split; [exact H2|]. constructor; [|constructor].
    exact (proj1 (Forall_forall _ _) H4 n Hn).
  - exact R1.
  - apply Forall_forall. intros m Hm. apply R2 in Hm as [Hm _].
    exact (proj1 (Forall_forall _ _) H4 m Hm).
  - intro Hm. unfold set_delete in Hm. apply filter_In in Hm as [Hm Hne].
    apply R2. split; [now apply H5|]. intro; subst. now rewrite Nat.eqb_refl in Hne.
  - intro Hm. apply R2 in Hm as [Hm Hne]. unfold set_delete. apply filter_In.
    split; [now apply H5|]. now rewrite (proj2 (Nat.eqb_neq n _)) by congruence.
  - intros m Hm Hin. apply R2 in Hm as [Hm Hne].
    apply in_app_or in Hin as [Hin|[<-|[]]]; [exact (H6 m Hm Hin) | exact (Hne eq_refl)].
Qed.

Lemma Inv_fetchFailed (n : nat) (st : Loader) : Inv st -> Inv (fetchFailed n st).
Proof.
  intro HI. destruct (find_fetch n (fetches st)) as [c|] eqn:Hf;
    [|unfold fetchFailed; rewrite Hf; exact HI].
  destruct (fetchFailed_fields n st c Hf) as [E _].
  unfold core in E. injection E as E1 E2 E3 E4 E5 E6.
  destruct HI as [H1 [H2 [H3 [H4 [H5 [H6 H7]]]]]].
  destruct (remove_fetch_spec n _ H3) as [R1 R2].
  unfold Inv. rewrite E1, E2, E3, E4, E5, E6. repeat split; try assumption.
  - apply Forall_forall. intros m Hm. apply R2 in Hm as [Hm _].
    exact (proj1 (Forall_forall _ _) H4 m Hm).
  - intro Hm. unfold set_delete in Hm. apply filter_In in Hm as [Hm Hne].
    apply R2. split; [now apply H5|]. intro; subst. now rewrite Nat.eqb_refl in Hne.
  - intro Hm. apply R2 in Hm as [Hm Hne]. unfold set_delete. apply filter_In.
    split; [now apply H5|]. now rewrite (proj2 (Nat.eqb_neq n _)) by congruence.
  - intros m Hm. apply R2 in Hm as [Hm _]. exact (H6 m Hm).
Qed.

Lemma Inv_background (st : Loader) : Inv st -> Inv (loadNextPageInBackground st).
Proof.
  intro HI. unfold loadNextPageInBackground.
  destruct (negb (isBackgroundLoading st)); [exact HI|].
  destruct (Nat.ltb (totalPages st) (nextPageToLoad st));
    [exact (Inv_core _ _ eq_refl HI) | now apply Inv_loadPage].
Qed.

Lemma Inv_exec (st : Loader) (e : event) : Inv st -> Inv (exec isLN isS st e).
Proof.
  intro HI. destruct e as [c n|n t|n|c|w| |]; simpl.
  - now apply Inv_loadPage.
  - now apply Inv_fetchSucceeded.
  - now apply Inv_fetchFailed.
  - unfold pollTick. destruct (lookup c (pollers st)) as [n|]; [|exact HI].
    destruct (lookup n (loadedPages st)); [|exact HI].
    refine (Inv_core _ _ _ HI). rewrite core_settle. reflexivity.
  - unfold waitForContent. destruct (_ || _); exact (Inv_core _ _ eq_refl HI).
  - unfold startBackgroundLoading. destruct (_ || _); [exact HI|].
    apply Inv_background. exact (Inv_core _ _ eq_refl HI).
  - unfold backgroundTimer. destruct (bgTimer st); [|exact HI].
    apply Inv_background. exact (Inv_core _ _ eq_refl HI).
Qed.

Lemma Inv_run (st : Loader) (evs : list event) : Inv st -> Inv (run isLN isS st evs).
Proof.
  unfold run. revert st. induction evs as [|e evs IH]; intros st HI; simpl; [exact HI|].
  apply IH. now apply Inv_exec.
Qed.

Lemma Inv_reachable (st : Loader) : reachable isLN isS st -> Inv st.
Proof. intros [total [evs ->]]. apply Inv_run, Inv_init. Qed.

End LoaderInvariant.

(** ** PDF loader: how a page load changes the aggregated sequence *)

Lemma find_fetch_some (n : nat) (f : list (nat * nat)) :
  In n (map snd f) -> exists c, find_fetch n f = Some c.
Proof.
  induction f as [|[c m] r IH]; simpl; [tauto|]. intros [->|H].
  - exists c. now rewrite Nat.eqb_refl.
  - destruct (Nat.eqb n m); [now exists c | exact (IH H)].
Qed.

Lemma lookup_app {A} (k : nat) (L1 L2 : list (nat * A)) :
  lookup k (L1 ++ L2) = match lookup k L1 with Some v => Some v | None => lookup k L2 end.
Proof.
  induction L1 as [|[k' v] L1 IH]; simpl; [reflexivity|].
  destruct (Nat.eqb k k'); [reflexivity | exact IH].
Qed.

Lemma lookup_in_some {A} (k : nat) (L : list (nat * A)) :
  In k (map fst L) -> exists v, lookup k L = Some v.
Proof.
  induction L as [|[k' v] L IH]; simpl; [tauto|]. intros [<-|H].
  - exists v. now rewrite Nat.eqb_refl.
  - destruct (Nat.eqb k k'); [now exists v | exact (IH H)].
Qed.

Lemma flat_map_ext_in {A B} (f g : A -> list B) (l : list A) :
  (forall x, In x l -> f x = g x) -> flat_map f l = flat_map g l.
Proof.
  induction l as [|x l IH]; intro H; simpl; [reflexivity|].
  rewrite (H x (or_introl eq_refl)), IH; [reflexivity|]. intros y Hy. exact (H y (or_intror Hy)).
Qed.

Lemma Inv_allWords (st : Loader) :
  Inv st -> allWords st = acc_words (rebuildAggregatedContent (loadedPages st)).
Proof. intros (_ & _ & _ & _ & _ & _ & H). rewrite <- H. reflexivity. Qed.

(** A page loaded into a state with loaded pages [L]: the sequence is cut
    at the new page number and the new page's words go in between. *)
Lemma rebuild_add_page (L : list (nat * PageData)) (n : nat) (pd : PageData) :
  ~ In n (map fst L) ->
  let lt := filter (fun k => Nat.ltb k n) (sort_nat (map fst L)) in
  let gt := filter (fun k => Nat.ltb n k) (sort_nat (map fst L)) in
  acc_words (rebuildAggregatedContent L) = flat_map (page_words L) lt ++ flat_map (page_words L) gt
  /\ acc_words (rebuildAggregatedContent (L ++ [(n, pd)]))
     = flat_map (page_words L) lt ++ pd_words pd ++ flat_map (page_words L) gt.
Proof.
  intros Hn lt gt.
  assert (Hns : ~ In n (sort_nat (map fst L)))
    by (intro H; apply Hn; exact (Permutation_in _ (sort_nat_perm _) H)).
  destruct (insert_sorted_split n _ (sort_nat_sorted (map fst L)) Hns) as [S1 S2].
  assert (Hpw : forall k, In k (sort_nat (map fst L)) -> page_words (L ++ [(n, pd)]) k = page_words L k).
  { intros k Hk. apply (Permutation_in _ (sort_nat_perm _)) in Hk.
    destruct (lookup_in_some _ _ Hk) as [v Hv].
    unfold page_words. now rewrite lookup_app, Hv. }
  split.
  - rewrite rebuild_words, S1 at 1. now rewrite flat_map_app.
  - rewrite rebuild_words, map_app. change (map fst [(n, pd)]) with [n].
    rewrite sort_nat_snoc, S2, flat_map_app.
    simpl flat_map. f_equal; [|f_equal].
    + apply flat_map_ext_in. intros k Hk. apply filter_In in Hk. exact (Hpw k (proj1 Hk)).
    + unfold page_words. rewrite lookup_app, lookup_not_in_keys by exact Hn.
      simpl. now rewrite Nat.eqb_refl.
    + apply flat_map_ext_in. intros k Hk. apply filter_In in Hk. exact (Hpw k (proj1 Hk)).
Qed.

Ltac unfold_loader_fields :=
  unfold settle, add_result, set_background, set_pollers, set_loading, set_waiters;
  repeat (match goal with |- context [match ?x with _ => _ end] => destruct x end; simpl);
  try reflexivity.

Lemma allWords_loadPage (c n : nat) (st : Loader) : allWords (loadPage c n st) = allWords st.
Proof. unfold loadPage. unfold_loader_fields. Qed.

Lemma allWords_background (st : Loader) :
  allWords (loadNextPageInBackground st) = allWords st.
Proof.
  unfold loadNextPageInBackground. destruct (negb _); [reflexivity|].
  destruct (Nat.ltb _ _); [reflexivity | apply allWords_loadPage].
Qed.

Lemma allWords_other_events (isLN isS : char -> bool) (st : Loader) (e : event) :
  (forall m u, e <> FetchOk m u) -> allWords (exec isLN isS st e) = allWords st.
Proof.
  intro He. destruct e as [c n|n u|n|c|w| |]; simpl.
  - apply allWords_loadPage.
  - exfalso. exact (He n u eq_refl).
  - unfold fetchFailed. unfold_loader_fields.
  - unfold pollTick. unfold_loader_fields.
  - unfold waitForContent. unfold_loader_fields.
  - unfold startBackgroundLoading. destruct (_ || _); [reflexivity|].
    now rewrite allWords_background.
  - unfold backgroundTimer. destruct (bgTimer st); [|reflexivity].
    now rewrite allWords_background.
Qed.

Lemma page_load_split (isLN isS : char -> bool) (st : Loader) (n : nat) (t : text) :
  reachable isLN isS st -> In n (loadingPages st) ->
  let L := loadedPages st in
  allWords st
  = flat_map (page_words L) (filter (fun k => Nat.ltb k n) (sort_nat (map fst L)))
    ++ flat_map (page_words L) (filter (fun k => Nat.ltb n k) (sort_nat (map fst L)))
  /\ allWords (exec isLN isS st (FetchOk n t))
     = flat_map (page_words L) (filter (fun k => Nat.ltb k n) (sort_nat (map fst L)))
       ++ tokenizePage isLN isS t
       ++ flat_map (page_words L) (filter (fun k => Nat.ltb n k) (sort_nat (map fst L))).
Proof.
  intros Hr Hn L. pose proof (Inv_reachable isLN isS st Hr) as HI.
  destruct HI as (H1 & H2 & H3 & H4 & H5 & H6 & H7).
  apply H5 in Hn. destruct (find_fetch_some _ _ Hn) as [c Hc].
  destruct (fetchSucceeded_fields isLN isS n t st c Hc) as (_ & _ & _ & E4 & _).
  pose proof (H6 n Hn) as HnL. rewrite map_set_new in E4 by exact HnL.
  destruct (rebuild_add_page (loadedPages st) n
              (mkPageData t (tokenizePage isLN isS t)) HnL) as [W1 W2].
  split.
  - rewrite <- H7 in W1. exact W1.
  - simpl exec. rewrite <- E4 in W2. exact W2.
Qed.

(** C1, refuted: page 2 finishes loading before page 1; index 0 held the
    token ["b"] and holds ["a"] once page 1 has loaded. *)
Lemma lower_page_shifts_indices :
  let st := run ascii_LN ascii_S (init 2) c1_loads in
  let st' := exec ascii_LN ascii_S st (FetchOk 1 (of_string "a")) in
  nth_error (allWords st) 0 = Some (mkToken (of_string "b") false)
  /\ nth_error (allWords st') 0 = Some (mkToken (of_string "a") false)
  /\ nth_error (allWords st) 0 <> nth_error (allWords st') 0.
Proof. vm_compute. split; [reflexivity|]. split; [reflexivity|]. discriminate. Qed.

(** C1, as the code has it: when the fetch of page [n] completes, with
    [below] the tokens of the loaded pages numbered below [n] and [above]
    those of the loaded pages numbered above it, both in page order, the
    sequence goes from [below ++ above] to [below ++ new ++ above]: the
    tokens of [below] keep their indices, and each token of [above] moves
    back by the number of tokens of the new page (by none for a blank page).
    The sequence never shrinks, a page numbered above every loaded page only
    appends, and no other event changes the sequence. *)
Theorem page_load_extends_by_ordinal (isLN isS : char -> bool) (st : Loader) (n : nat) (t : text) :
  reachable isLN isS st -> In n (loadingPages st) ->
  let L := loadedPages st in
  let below := flat_map (page_words L) (filter (fun k => Nat.ltb k n) (sort_nat (map fst L))) in
  let above := flat_map (page_words L) (filter (fun k => Nat.ltb n k) (sort_nat (map fst L))) in
  let new := tokenizePage isLN isS t in
  let st' := exec isLN isS st (FetchOk n t) in
  allWords st = below ++ above
  /\ allWords st' = below ++ new ++ above
  /\ (forall i, i < List.length below -> nth_error (allWords st') i = nth_error (allWords st) i)
  /\ (forall i, List.length below <= i ->
        nth_error (allWords st') (List.length new + i) = nth_error (allWords st) i)
  /\ ((forall m, In m (map fst L) -> m < n) -> above = [])
  /\ List.length (allWords st) <= List.length (allWords st')
  /\ (forall e, (forall m u, e <> FetchOk m u) -> allWords (exec isLN isS st e) = allWords st).
Proof.
  intros Hr Hn L below above new st'.
  destruct (page_load_split isLN isS st n t Hr Hn) as [E1 E2].
  fold L below above in E1, E2. fold new st' in E2.
  split; [exact E1|]. split; [exact E2|]. split; [|split; [|split; [|split]]].
  - intros i Hi. rewrite E1, E2, !nth_error_app1 by exact Hi. reflexivity.
  - intros i Hi. rewrite E1, E2, app_assoc.
    rewrite nth_error_app2 by (rewrite length_app; lia).
    rewrite nth_error_app2 by lia. f_equal. rewrite length_app. lia.
  - intro Hall. unfold above. rewrite filter_none; [reflexivity|]. intros k Hk.
    apply (Permutation_in _ (sort_nat_perm _)) in Hk.
    apply Nat.ltb_ge. pose proof (Hall k Hk). lia.
  - rewrite E1, E2, !length_app. lia.
  - intros e He. exact (allWords_other_events isLN isS st e He).
Qed.

Lemma page_load_extends_by_ordinal_witness :
  let st := run ascii_LN ascii_S (init 2) c1_loads in
  reachable ascii_LN ascii_S st /\ In 1 (loadingPages st)
  /\ nth_error (allWords (exec ascii_LN ascii_S st (FetchOk 1 (of_string "a"))))
       (List.length (tokenizePage ascii_LN ascii_S (of_string "a")) + 0)
     = nth_error (allWords st) 0.
Proof.
  intro st.
  assert (Hr : reachable ascii_LN ascii_S st) by (exists 2, c1_loads; reflexivity).
  assert (Hn : In 1 (loadingPages st)) by (vm_compute; now left).
  split; [exact Hr|]. split; [exact Hn|].
  destruct (page_load_extends_by_ordinal ascii_LN ascii_S st 1 (of_string "a") Hr Hn)
    as (_ & _ & _ & H & _).
  apply H. vm_compute. lia.
Defined.

(** ** Content waiters *)

Ltac waiter_fields :=
  unfold settle, add_result, set_background, set_pollers, set_loading, set_waiters;
  repeat (match goal with |- context [match ?x with _ => _ end] => destruct x end; simpl);
  try reflexivity.

Lemma waiters_loadPage (c n : nat) (st : Loader) :
  (contentWaiters (loadPage c n st), released (loadPage c n st))
  = (contentWaiters st, released st).
Proof. unfold loadPage. waiter_fields. Qed.

Lemma waiters_background (st : Loader) :
  (contentWaiters (loadNextPageInBackground st), released (loadNextPageInBackground st))
  = (contentWaiters st, released st).
Proof.
  unfold loadNextPageInBackground. destruct (negb _); [reflexivity|].
  destruct (Nat.ltb _ _); [reflexivity | apply waiters_loadPage].
Qed.

Lemma waiters_other_events (isLN isS : char -> bool) (st : Loader) (e : event) :
  (forall m u, e <> FetchOk m u) -> (forall w, e <> WaitForContent w) ->
  (contentWaiters (exec isLN isS st e), released (exec isLN isS st e))
  = (contentWaiters st, released st).
Proof.
  intros He Hw. destruct e as [c n|n u|n|c|w| |]; simpl.
  - apply waiters_loadPage.
  - exfalso. exact (He n u eq_refl).
  - unfold fetchFailed. waiter_fields.
  - unfold pollTick. waiter_fields.
  - exfalso. exact (Hw w eq_refl).
  - unfold startBackgroundLoading. destruct (_ || _); [reflexivity|].
    now rewrite waiters_background.
  - unfold backgroundTimer. destruct (bgTimer st); [|reflexivity].
    now rewrite waiters_background.
Qed.

Lemma waiters_fetchOk (isLN isS : char -> bool) (st : Loader) (n : nat) (t : text) :
  reachable isLN isS st -> In n (loadingPages st) ->
  (contentWaiters (exec isLN isS st (FetchOk n t)), released (exec isLN isS st (FetchOk n t)))
  = ([], released st ++ contentWaiters st).
Proof.
  intros Hr Hn. destruct (Inv_reachable isLN isS st Hr) as (_ & _ & _ & _ & H5 & _).
  destruct (find_fetch_some _ _ (proj1 (H5 n) Hn)) as [c Hc].
  destruct (fetchSucceeded_fields isLN isS n t st c Hc) as (_ & _ & _ & _ & E5 & E6 & _).
  simpl exec. now rewrite E5, E6.
Qed.

(** [waitForContent] resolves at once when no page is being fetched and
    no background cycle is active, and otherwise queues its waiter; every
    successful page load releases all queued waiters, in the order they were
    queued, whatever else is still being fetched; no other event releases or
    queues a waiter. *)
Theorem waiters_released_by_page_loads (isLN isS : char -> bool) :
  (forall st w, loadingPages st = [] -> isBackgroundLoading st = false ->
     (contentWaiters (exec isLN isS st (WaitForContent w)),
      released (exec isLN isS st (WaitForContent w)))
     = (contentWaiters st, released st ++ [w]))
  /\ (forall st w, (loadingPages st <> [] \/ isBackgroundLoading st = true) ->
     (contentWaiters (exec isLN isS st (WaitForContent w)),
      released (exec isLN isS st (WaitForContent w)))
     = (contentWaiters st ++ [w], released st))
  /\ (forall st n t, reachable isLN isS st -> In n (loadingPages st) ->
     (contentWaiters (exec isLN isS st (FetchOk n t)), released (exec isLN isS st (FetchOk n t)))
     = ([], released st ++ contentWaiters st))
  /\ (forall st e, (forall m u, e <> FetchOk m u) -> (forall w, e <> WaitForContent w) ->
     (contentWaiters (exec isLN isS st e), released (exec isLN isS st e))
     = (contentWaiters st, released st)).
Proof.
  split; [|split; [|split]].
  - intros st w H1 H2. simpl. unfold waitForContent. rewrite H1, H2. reflexivity.
  - intros st w H. simpl. unfold waitForContent.
    destruct H as [H|H].
    + destruct (loadingPages st) as [|x l]; [contradiction|]. reflexivity.
    + rewrite H, orb_true_r. reflexivity.
  - intros st n t. apply waiters_fetchOk.
  - intros st e. apply waiters_other_events.
Qed.

Lemma waiters_released_by_page_loads_witness :
  reachable ascii_LN ascii_S (run ascii_LN ascii_S (init 3) c3_before)
  /\ In 1 (loadingPages (run ascii_LN ascii_S (init 3) c3_before))
  /\ (contentWaiters (exec ascii_LN ascii_S (run ascii_LN ascii_S (init 3) c3_before)
                        (FetchOk 1 (of_string "x"))),
      released (exec ascii_LN ascii_S (run ascii_LN ascii_S (init 3) c3_before)
                  (FetchOk 1 (of_string "x"))))
     = ([], released (run ascii_LN ascii_S (init 3) c3_before)
            ++ contentWaiters (run ascii_LN ascii_S (init 3) c3_before)).
Proof.
  assert (Hr : reachable ascii_LN ascii_S (run ascii_LN ascii_S (init 3) c3_before))
    by (exists 3, c3_before; reflexivity).
  assert (Hn : In 1 (loadingPages (run ascii_LN ascii_S (init 3) c3_before)))
    by (vm_compute; now left).
  split; [exact Hr|]. split; [exact Hn|].
  exact (proj1 (proj2 (proj2 (waiters_released_by_page_loads ascii_LN ascii_S)))
           _ 1 (of_string "x") Hr Hn).
Defined.

(** Without a new [loadPage] call, a state with nothing to fetch, no
    poller, no background timer and every page counted as loaded keeps a
    queued waiter queued. *)
Lemma stuck_waiter_step (isLN isS : char -> bool) (w : nat) (st : Loader) (e : event) :
  (forall c n, e <> LoadPage c n) ->
  fetches st = [] -> pollers st = [] -> bgTimer st = false -> allPagesLoaded st = true ->
  In w (contentWaiters st) ->
  let st' := exec isLN isS st e in
  fetches st' = [] /\ pollers st' = [] /\ bgTimer st' = false /\ allPagesLoaded st' = true
  /\ In w (contentWaiters st').
Proof.
  intros He H1 H2 H3 H4 H5. destruct e as [c n|n u|n|c|v| |]; simpl.
  - exfalso. exact (He c n eq_refl).
  - unfold fetchSucceeded. rewrite H1. simpl. repeat split; assumption.
  - unfold fetchFailed. rewrite H1. simpl. repeat split; assumption.
  - unfold pollTick. rewrite H2. simpl. repeat split; assumption.
  - unfold waitForContent. destruct (_ || _); simpl; repeat split; try assumption.
    apply in_or_app. now left.
  - unfold startBackgroundLoading. rewrite H4, orb_true_r. repeat split; assumption.
  - unfold backgroundTimer. rewrite H3. repeat split; assumption.
Qed.

Lemma stuck_waiter_run (isLN isS : char -> bool) (w : nat) (evs : list event) :
  forall st, (forall c n, ~ In (LoadPage c n) evs) ->
  fetches st = [] -> pollers st = [] -> bgTimer st = false -> allPagesLoaded st = true ->
  In w (contentWaiters st) -> In w (contentWaiters (run isLN isS st evs)).
Proof.
  induction evs as [|e evs IH]; intros st Hevs H1 H2 H3 H4 H5; [exact H5|].
  change (run isLN isS st (e :: evs)) with (run isLN isS (exec isLN isS st e) evs).
  assert (He : forall c n, e <> LoadPage c n)
    by (intros c n E; apply (Hevs c n); left; exact E).
  destruct (stuck_waiter_step isLN isS w st e He H1 H2 H3 H4 H5) as (K1 & K2 & K3 & K4 & K5).
  apply IH; try assumption. intros c n Hin. apply (Hevs c n). right. exact Hin.
Qed.

(** C3, a lost wake-up: with pages 1 to 3 of 4 loaded by caller 1, the
    background cycle fetches page 4 and waiter 7 is queued.  The fetch
    throws; the cycle's next step finds no page left and ends without
    calling [resolveWaiters].  Then nothing is being fetched and no cycle is
    active, a new waiter 8 resolves at once, yet waiter 7 is still queued,
    and no sequence of events without a new [loadPage] call releases it.
    The other way round, a waiter is released while page 2 is still being
    fetched and the background cycle is still active. *)
Theorem waiter_lost_when_cycle_ends :
  let st := run ascii_LN ascii_S c3_quick c3_events in
  snd (loadInitialPages ascii_LN ascii_S 1 3 c3_out (init 4)) = SeqDone
  /\ loadingPages (run ascii_LN ascii_S c3_quick (firstn 2 c3_events)) = [4]
  /\ isBackgroundLoading (run ascii_LN ascii_S c3_quick (firstn 2 c3_events)) = true
  /\ contentWaiters (run ascii_LN ascii_S c3_quick (firstn 2 c3_events)) = [7]
  /\ contentWaiters st = [7] /\ released st = []
  /\ loadingPages st = [] /\ isBackgroundLoading st = false /\ allPagesLoaded st = true
  /\ released (exec ascii_LN ascii_S st (WaitForContent 8)) = [8]
  /\ (forall evs, (forall c n, ~ In (LoadPage c n) evs) ->
        In 7 (contentWaiters (run ascii_LN ascii_S st evs)))
  /\ (let st2 := run ascii_LN ascii_S (init 3) c3_trace in
      released st2 = [7] /\ loadingPages st2 = [2] /\ isBackgroundLoading st2 = true).
Proof.
  intro st.
  split; [vm_compute; reflexivity|]. split; [vm_compute; reflexivity|].
  split; [vm_compute; reflexivity|]. split; [vm_compute; reflexivity|].
  split; [vm_compute; reflexivity|]. split; [vm_compute; reflexivity|].
  split; [vm_compute; reflexivity|]. split; [vm_compute; reflexivity|].
  split; [vm_compute; reflexivity|]. split; [vm_compute; reflexivity|].
  split.
  - intros evs Hevs. apply (stuck_waiter_run ascii_LN ascii_S 7 evs st Hevs);
      vm_compute; try reflexivity. now left.
  - vm_compute. repeat split.
Qed.

(** ** Concurrent [loadPage] calls for a page being fetched *)

Lemma run_repeat_fixed (isLN isS : char -> bool) (st : Loader) (e : event) (k : nat) :
  exec isLN isS st e = st -> run isLN isS st (repeat e k) = st.
Proof.
  intro H. unfold run. induction k as [|k IH]; simpl; [reflexivity|].
  rewrite H. exact IH.
Qed.

(** C4, against the code: caller 1 fetches page 2 and caller 2 asks for
    page 2 while it is being fetched, so no second fetch is issued and
    caller 2 polls [loadedPages].  The fetch fails: caller 1 gets the
    error, the page is no longer being fetched, but caller 2 is never
    released, however many times its interval fires. *)
Theorem concurrent_caller_not_released_on_failure (isLN isS : char -> bool) :
  let st := run isLN isS (init 3) c4_trace in
  fetches (run isLN isS (init 3) (firstn 2 c4_trace)) = [(1, 2)]
  /\ lookup 1 (results st) = Some Threw
  /\ loadingPages st = []
  /\ lookup 2 (pollers st) = Some 2
  /\ (forall k, lookup 2 (results (run isLN isS st (repeat (PollTick 2) k))) = None).
Proof.
  intro st.
  assert (Hfix : exec isLN isS st (PollTick 2) = st) by reflexivity.
  split; [reflexivity|]. split; [reflexivity|]. split; [reflexivity|]. split; [reflexivity|].
  intro k. rewrite (run_repeat_fixed isLN isS st _ k Hfix). reflexivity.
Qed.

(** ** Blank pages *)

Lemma tok_paras_blank (isLN isS : char -> bool) (ps : list text) (out : list token) :
  (forall p, In p ps -> trim isS p = []) -> tok_paras isLN isS ps out = out.
Proof.
  revert out. induction ps as [|p ps IH]; intros out H; simpl; [reflexivity|].
  rewrite (H p (or_introl eq_refl)). apply IH. intros q Hq. exact (H q (or_intror Hq)).
Qed.

Lemma tokenizePage_blank (isLN isS : char -> bool) (s : text) :
  isS c_nl = true -> (forall c, In c s -> isS c = true) -> tokenizePage isLN isS s = [].
Proof.
  intros Hnl Hs. unfold tokenizePage. rewrite tok_paras_blank; [reflexivity|].
  intros p Hp. unfold trim. rewrite (drop_while_all isS p); [reflexivity|].
  intros c Hc. apply (split_aux_incl _ _ _ Hp) in Hc.
  destruct (normalize_chars _ _ Hc) as [->|Hc']; [exact Hnl | exact (Hs c Hc')].
Qed.

(** C10: for a page text made only of white space (the empty text
    included), [tokenizePage] returns no token while [tokenize] returns
    the single token [" "]; loading such a page leaves the aggregated
    sequence as it was. *)
Theorem blank_page_contributes_nothing (isLN isS : char -> bool) (s : text) :
  isS c_nl = true -> (forall c, In c s -> isS c = true) ->
  tokenizePage isLN isS s = []
  /\ tokenize isLN isS s = [mkToken [c_sp] false]
  /\ (forall st n, reachable isLN isS st -> In n (loadingPages st) ->
        allWords (exec isLN isS st (FetchOk n s)) = allWords st).
Proof.
  intros Hnl Hs. pose proof (tokenizePage_blank isLN isS s Hnl Hs) as E.
  split; [exact E|]. split; [unfold tokenize; now rewrite E|].
  intros st n Hr Hn.
  destruct (page_load_split isLN isS st n s Hr Hn) as [E1 E2].
  rewrite E2, E1, E. reflexivity.
Qed.

Lemma blank_page_contributes_nothing_witness :
  ascii_S c_nl = true /\ (forall c, In c [c_sp; c_nl; c_sp] -> ascii_S c = true)
  /\ tokenizePage ascii_LN ascii_S [c_sp; c_nl; c_sp] = []
  /\ tokenize ascii_LN ascii_S [c_sp; c_nl; c_sp] = [mkToken [c_sp] false].
Proof.
  assert (Hs : forall c, In c [c_sp; c_nl; c_sp] -> ascii_S c = true)
    by (intros c Hc; destruct Hc as [<-|[<-|[<-|[]]]]; reflexivity).
  split; [reflexivity|]. split; [exact Hs|].
  destruct (blank_page_contributes_nothing ascii_LN ascii_S _ eq_refl Hs) as (E1 & E2 & _).
  split; [exact E1 | exact E2].
Defined.


(** normalize *)
Lemma replace_crlf_two (c d : char) (r : text) :
  replace_crlf (c :: d :: r)
  = if (c =? c_cr)%N && (d =? c_nl)%N then c_nl :: replace_crlf r
    else c :: replace_crlf (d :: r).
Proof. reflexivity. Qed.

Lemma replace_crlf_app (a t : text) :
  (forall a0 t0, a = a0 ++ [c_cr] -> t = c_nl :: t0 -> False) ->
  replace_crlf (a ++ t) = replace_crlf a ++ replace_crlf t.
Proof.
  revert t. induction a as [a IH] using text_len_ind. intros t H.
  destruct a as [|c [|d a'']].
  - reflexivity.
  - destruct t as [|d t']; [reflexivity|]. simpl.
    destruct ((c =? c_cr)%N && (d =? c_nl)%N) eqn:E; [|reflexivity].
    exfalso. apply andb_true_iff in E as [E1 E2]. apply N.eqb_eq in E1, E2. subst.
    exact (H [] t' eq_refl eq_refl).
  - change ((c :: d :: a'') ++ t) with (c :: d :: (a'' ++ t)).
    rewrite !replace_crlf_two.
    destruct ((c =? c_cr)%N && (d =? c_nl)%N).
    + rewrite IH; [reflexivity | simpl; lia |].
      intros a0 t0 -> Ht. exact (H (c :: d :: a0) t0 eq_refl Ht).
    + change (d :: a'' ++ t) with ((d :: a'') ++ t).
      rewrite (IH (d :: a'')); [reflexivity | simpl; lia |].
      intros a0 t0 Ea Ht. apply (H (c :: a0) t0); [rewrite Ea|]; reflexivity || exact Ht.
Qed.

Lemma replace_crlf_head (c : char) (t : text) :
  c <> c_cr -> replace_crlf (c :: t) = c :: replace_crlf t.
Proof.
  intro Hc. destruct t as [|d t']; [reflexivity|]. simpl.
  rewrite (proj2 (N.eqb_neq c c_cr) Hc). reflexivity.
Qed.

Lemma replace_crlf_plain (y b : text) :
  (forall c, In c y -> c <> c_cr) -> replace_crlf (y ++ b) = y ++ replace_crlf b.
Proof.
  induction y as [|c y IH]; intro Hy; [reflexivity|].
  change ((c :: y) ++ b) with (c :: (y ++ b)).
  rewrite replace_crlf_head by (apply Hy; now left).
  rewrite IH; [reflexivity|]. intros x Hx. apply Hy. now right.
Qed.

Lemma ws_before_replace_crlf (isS : char -> bool) (a : text) :
  isS c_nl = true -> ws_before isS a -> ws_before isS (replace_crlf a).
Proof.
  intros Hnl [->|(a0 & w & -> & Hw)]; [now left|right].
  destruct (N.eq_dec w c_nl) as [->|Hw'].
  - destruct a0 as [|x a1] using rev_ind; [exists [], c_nl; split; [reflexivity|exact Hnl]|].
    clear IHa1. destruct (N.eq_dec x c_cr) as [->|Hx].
    + rewrite <- app_assoc. simpl. rewrite replace_crlf_app by (intros a0 t0 _ Ht; discriminate Ht).
      exists (replace_crlf a1), c_nl. split; [reflexivity | exact Hnl].
    + rewrite replace_crlf_app.
      * exists (replace_crlf (a1 ++ [x])), c_nl. split; [reflexivity | exact Hnl].
      * intros a0 t0 Ea _. apply app_inj_tail in Ea as [_ Ea]. exact (Hx Ea).
  - rewrite replace_crlf_app by (intros a1 t0 _ Ht; injection Ht; intros _ E; exact (Hw' E)).
    exists (replace_crlf a0), w. split; [reflexivity | exact Hw].
Qed.

Lemma ws_after_replace_crlf (isS : char -> bool) (b : text) :
  isS c_nl = true -> ws_after isS b -> ws_after isS (replace_crlf b).
Proof.
  intros Hnl [->|(w & b0 & -> & Hw)]; [now left|right].
  destruct b0 as [|d t]; [exists w, []; split; [reflexivity|exact Hw]|]. simpl.
  destruct (_ && _); [exists c_nl, (replace_crlf t) | exists w, (replace_crlf (d :: t))]; auto.
Qed.

Lemma replace_cr_app (a b : text) : replace_cr (a ++ b) = replace_cr a ++ replace_cr b.
Proof. apply map_app. Qed.

Lemma replace_cr_plain (y : text) : (forall c, In c y -> c <> c_cr) -> replace_cr y = y.
Proof.
  induction y as [|c y IH]; intro Hy; [reflexivity|]. simpl.
  rewrite (proj2 (N.eqb_neq c c_cr)) by (apply Hy; now left).
  rewrite IH; [reflexivity|]. intros x Hx. apply Hy. now right.
Qed.

Lemma ws_before_replace_cr (isS : char -> bool) (a : text) :
  isS c_nl = true -> ws_before isS a -> ws_before isS (replace_cr a).
Proof.
  intros Hnl [->|(a0 & w & -> & Hw)]; [now left|right].
  rewrite replace_cr_app. eexists _, _. split; [reflexivity|]. simpl.
  destruct (w =? c_cr)%N; assumption.
Qed.

Lemma ws_after_replace_cr (isS : char -> bool) (b : text) :
  isS c_nl = true -> ws_after isS b -> ws_after isS (replace_cr b).
Proof.
  intros Hnl [->|(w & b0 & -> & Hw)]; [now left|right].
  eexists _, _. split; [reflexivity|]. simpl. destruct (w =? c_cr)%N; assumption.
Qed.

Lemma collapse_nl_app (a : text) :
  forall k c t, c <> c_nl -> collapse_nl k (a ++ c :: t) = collapse_nl k a ++ c :: collapse_nl 0 t.
Proof.
  induction a as [|x a IH]; intros k c t Hc; simpl.
  - rewrite (proj2 (N.eqb_neq c c_nl) Hc). reflexivity.
  - destruct (x =? c_nl)%N; [apply IH; exact Hc|].
    rewrite IH by exact Hc. rewrite <- app_assoc. reflexivity.
Qed.

Lemma collapse_nl_plain (y b : text) :
  (forall c, In c y -> c <> c_nl) -> collapse_nl 0 (y ++ b) = y ++ collapse_nl 0 b.
Proof.
  induction y as [|c y IH]; intro Hy; [reflexivity|]. simpl.
  rewrite (proj2 (N.eqb_neq c c_nl)) by (apply Hy; now left). simpl.
  rewrite IH; [reflexivity|]. intros x Hx. apply Hy. now right.
Qed.

Lemma collapse_nl_ends (a : text) : forall k, exists x, collapse_nl k (a ++ [c_nl]) = x ++ [c_nl].
Proof.
  induction a as [|c a IH]; intro k; simpl.
  - destruct k as [|k]; [exists [] | exists [c_nl]]; reflexivity.
  - destruct (c =? c_nl)%N; [apply IH|].
    destruct (IH 0) as [x Hx]. rewrite Hx. exists (repeat c_nl k ++ c :: x).
    rewrite <- app_assoc. reflexivity.
Qed.

Lemma collapse_nl_starts (t : text) : forall k, 1 <= k -> exists r, collapse_nl k t = c_nl :: r.
Proof.
  induction t as [|c t IH]; intros k Hk; simpl.
  - destruct k as [|k]; [lia|]. exists (repeat c_nl k). reflexivity.
  - destruct (c =? c_nl)%N; [apply IH; lia|]. destruct k as [|k]; [lia|].
    eexists. reflexivity.
Qed.

Lemma ws_before_collapse_nl (isS : char -> bool) (a : text) :
  isS c_nl = true -> ws_before isS a -> ws_before isS (collapse_nl 0 a).
Proof.
  intros Hnl [->|(a0 & w & -> & Hw)]; [now left|right].
  destruct (N.eq_dec w c_nl) as [->|Hw'].
  - destruct (collapse_nl_ends a0 0) as [x Hx]. exists x, c_nl. auto.
  - rewrite collapse_nl_app by exact Hw'. exists (collapse_nl 0 a0), w. auto.
Qed.

Lemma ws_after_collapse_nl (isS : char -> bool) (b : text) :
  isS c_nl = true -> ws_after isS b -> ws_after isS (collapse_nl 0 b).
Proof.
  intros Hnl [->|(w & b0 & -> & Hw)]; [now left|right]. simpl.
  destruct (N.eqb_spec w c_nl) as [->|Hw'].
  - destruct (collapse_nl_starts b0 1) as [r Hr]; [lia|]. simpl. rewrite Hr.
    exists c_nl, r. auto.
  - exists w, (collapse_nl 0 b0). auto.
Qed.

Lemma normalize_block (isS : char -> bool) (a y b : text) :
  isS c_nl = true -> isS c_cr = true -> y <> [] -> (forall c, In c y -> isS c = false) ->
  ws_before isS a -> ws_after isS b ->
  exists a' b', normalize (a ++ y ++ b) = a' ++ y ++ b' /\ ws_before isS a' /\ ws_after isS b'.
Proof.
  intros Hnl Hcr Hy Hys Ha Hb.
  assert (Hy13 : forall c, In c y -> c <> c_cr)
    by (intros c Hc E; subst; rewrite (Hys _ Hc) in Hcr; discriminate).
  assert (Hy10 : forall c, In c y -> c <> c_nl)
    by (intros c Hc E; subst; rewrite (Hys _ Hc) in Hnl; discriminate).
  unfold normalize.
  rewrite replace_crlf_app.
  2:{ intros a0 t0 _ Ht. destruct y as [|c y']; [contradiction|].
      injection Ht; intros _ E. exact (Hy10 c (or_introl eq_refl) E). }
  rewrite replace_crlf_plain by exact Hy13.
  rewrite !replace_cr_app, (replace_cr_plain y Hy13).
  destruct y as [|c y']; [contradiction|]. simpl (_ ++ _).
  rewrite collapse_nl_app by (apply Hy10; now left).
  rewrite collapse_nl_plain by (intros x Hx; apply Hy10; now right).
  eexists _, _. split; [reflexivity|]. split.
  - apply ws_before_collapse_nl, ws_before_replace_cr, ws_before_replace_crlf; assumption.
  - apply ws_after_collapse_nl, ws_after_replace_cr, ws_after_replace_crlf; assumption.
Qed.

(** split *)
Lemma cons_first_ex (c : char) (ps : list text) : exists p ps', cons_first c ps = p :: ps'.
Proof. destruct ps as [|p ps']; simpl; eauto. Qed.

Lemma split_aux_ex (sep : bool) (s : text) : exists p ps, split_aux sep s = p :: ps.
Proof.
  revert sep. induction s as [s IH] using text_len_ind. intro sep.
  destruct s as [|c t]; simpl; [eauto|].
  destruct (c =? c_nl)%N; [|apply cons_first_ex].
  destruct sep; [apply IH; simpl; lia|].
  destruct t as [|d t']; [apply cons_first_ex|].
  destruct (d =? c_nl)%N; [eauto | apply cons_first_ex].
Qed.

Lemma split_plain (y b : text) (P : text) (Ps : list text) :
  (forall c, In c y -> c <> c_nl) -> split_aux false b = P :: Ps ->
  split_aux false (y ++ b) = (y ++ P) :: Ps.
Proof.
  intros Hy Hb. induction y as [|c y IH]; [exact Hb|].
  change ((c :: y) ++ b) with (c :: (y ++ b)). simpl.
  rewrite (proj2 (N.eqb_neq c c_nl)) by (apply Hy; now left).
  rewrite IH; [reflexivity|]. intros x Hx. apply Hy. now right.
Qed.

Lemma split_first_after (isS : char -> bool) (b P : text) (Ps : list text) :
  isS c_nl = true -> ws_after isS b -> split_aux false b = P :: Ps -> ws_after isS P.
Proof.
  intros Hnl [->|(w & b0 & -> & Hw)] E.
  - simpl in E. injection E; intros _ <-. now left.
  - simpl in E. destruct (N.eqb_spec w c_nl) as [->|Hw'].
    + destruct b0 as [|d b1].
      * simpl in E. injection E; intros _ <-. right. exists c_nl, []. auto.
      * destruct (d =? c_nl)%N.
        -- injection E; intros _ <-. now left.
        -- destruct (split_aux_ex false (d :: b1)) as (p & ps & Ep). rewrite Ep in E.
           simpl in E. injection E; intros _ <-. right. exists c_nl, p. auto.
    + destruct (split_aux_ex false b0) as (p & ps & Ep). rewrite Ep in E.
      simpl in E. injection E; intros _ <-. right. exists w, p. auto.
Qed.

Lemma split_aux_nl_true (t : text) : split_aux true (c_nl :: t) = split_aux true t.
Proof. reflexivity. Qed.

Lemma split_aux_nl_false (t : text) :
  split_aux false (c_nl :: t)
  = match t with
    | d :: t' => if (d =? c_nl)%N then [] :: split_aux true t'
                 else cons_first c_nl (split_aux false t)
    | [] => cons_first c_nl (split_aux false t)
    end.
Proof. reflexivity. Qed.

Lemma split_aux_other (sep : bool) (c : char) (t : text) :
  c <> c_nl -> split_aux sep (c :: t) = cons_first c (split_aux false t).
Proof. intro Hc. simpl. now rewrite (proj2 (N.eqb_neq c c_nl) Hc). Qed.

Lemma split_prefix (a : text) :
  forall (sep : bool) (z P : text) (Ps : list text),
  (exists c z', z = c :: z' /\ c <> c_nl) -> split_aux false z = P :: Ps ->
  exists ps1 at0 a0, split_aux sep (a ++ z) = ps1 ++ (at0 ++ P) :: Ps /\ a = a0 ++ at0
    /\ (ps1 = [] -> (sep = false -> a0 = []) /\ (forall x, In x a0 -> x = c_nl)).
Proof.
  induction a as [a IH] using text_len_ind. intros sep z P Ps Hz Hs.
  destruct a as [|c a'].
  - exists [], [], []. split; [|split; [reflexivity|]].
    + destruct sep; [|exact Hs]. destruct Hz as (c & z' & -> & Hc). simpl in Hs |- *.
      rewrite (proj2 (N.eqb_neq c c_nl) Hc) in Hs |- *. exact Hs.
    + intros _. split; [reflexivity | intros x []].
  - change ((c :: a') ++ z) with (c :: (a' ++ z)).
    (* a step that prepends [c] to the first paragraph *)
    assert (Hcons : forall c0 rest, List.length rest < List.length (c :: a') ->
              c :: a' = c0 :: rest ->
              exists ps1 at0 a0,
                cons_first c0 (split_aux false (rest ++ z)) = ps1 ++ (at0 ++ P) :: Ps
                /\ c :: a' = a0 ++ at0
                /\ (ps1 = [] -> (sep = false -> a0 = []) /\ (forall x, In x a0 -> x = c_nl))).
    { intros c0 rest Hl Ec.
      destruct (IH rest Hl false z P Ps Hz Hs) as (ps1 & at0 & a0 & E & Ea & Hc0).
      rewrite E, Ec. destruct ps1 as [|p1 ps1'].
      - destruct (Hc0 eq_refl) as [H0 _]. specialize (H0 eq_refl). subst a0.
        exists [], (c0 :: at0), []. simpl in Ea |- *. rewrite Ea.
        split; [reflexivity|]. split; [reflexivity|]. intros _. split; [reflexivity | intros x []].
      - exists ((c0 :: p1) :: ps1'), at0, (c0 :: a0). rewrite Ea.
        split; [reflexivity|]. split; [reflexivity|]. discriminate. }
    destruct (N.eqb_spec c c_nl) as [->|Hc].
    + destruct sep.
      * rewrite split_aux_nl_true.
        destruct (IH a' (Nat.lt_succ_diag_r _) true z P Ps Hz Hs) as (ps1 & at0 & a0 & E & Ea & H0).
        exists ps1, at0, (c_nl :: a0). rewrite E, Ea.
        split; [reflexivity|]. split; [reflexivity|]. intro Hp. split; [discriminate|].
        intros x [<-|Hx]; [reflexivity | exact (proj2 (H0 Hp) x Hx)].
      * rewrite split_aux_nl_false. destruct a' as [|d a''].
        -- destruct Hz as (c0 & z' & Ez & Hc0). simpl app. rewrite Ez.
           rewrite (proj2 (N.eqb_neq c0 c_nl) Hc0), <- Ez.
           exact (Hcons c_nl [] (Nat.lt_0_succ _) eq_refl).
        -- change ((d :: a'') ++ z) with (d :: (a'' ++ z)).
           destruct (N.eqb_spec d c_nl) as [->|Hd].
           ++ rewrite N.eqb_refl. destruct (IH a'' ltac:(simpl; lia) true z P Ps Hz Hs) as (ps1 & at0 & a0 & E & Ea & _).
              exists ([] :: ps1), at0, (c_nl :: c_nl :: a0). rewrite E, Ea.
              split; [reflexivity|]. split; [reflexivity|]. discriminate.
           ++ rewrite (proj2 (N.eqb_neq d c_nl) Hd).
              exact (Hcons c_nl (d :: a'') (Nat.lt_succ_diag_r _) eq_refl).
    + rewrite split_aux_other by exact Hc.
      exact (Hcons c a' (Nat.lt_succ_diag_r _) eq_refl).
Qed.

Lemma ws_before_suffix (isS : char -> bool) (a a0 at0 : text) :
  ws_before isS a -> a = a0 ++ at0 -> ws_before isS at0.
Proof.
  intros [->|(a1 & w & -> & Hw)] E.
  - symmetry in E. apply app_eq_nil in E as [_ ->]. now left.
  - destruct at0 as [|x r] using rev_ind; [now left|]. clear IHr. right.
    rewrite app_assoc in E. apply app_inj_tail in E as [_ <-]. exists r, w. auto.
Qed.

Lemma ws_after_prefix (isS : char -> bool) (b b1 b2 : text) :
  ws_after isS b -> b = b1 ++ b2 -> ws_after isS b1.
Proof.
  intros [->|(w & b0 & -> & Hw)] E.
  - symmetry in E. apply app_eq_nil in E as [-> _]. now left.
  - destruct b1 as [|x r]; [now left|]. right. injection E; intros _ <-. exists w, r. auto.
Qed.

Lemma paragraph_block (isS : char -> bool) (a y b : text) :
  isS c_nl = true -> y <> [] -> (forall c, In c y -> c <> c_nl) ->
  ws_before isS a -> ws_after isS b ->
  exists ps1 p ps2, split_paras (a ++ y ++ b) = ps1 ++ p :: ps2
    /\ exists a' b', p = a' ++ y ++ b' /\ ws_before isS a' /\ ws_after isS b'.
Proof.
  intros Hnl Hy Hy10 Ha Hb.
  destruct (split_aux_ex false b) as (P & Ps & EP).
  pose proof (split_plain y b P Ps Hy10 EP) as Ey.
  assert (Hz : exists c z', y ++ b = c :: z' /\ c <> c_nl).
  { destruct y as [|c y']; [contradiction|]. exists c, (y' ++ b). split; [reflexivity|].
    apply Hy10. now left. }
  destruct (split_prefix a false (y ++ b) (y ++ P) Ps Hz Ey) as (ps1 & at0 & a0 & E & Ea & _).
  exists ps1, (at0 ++ y ++ P), Ps. split; [exact E|].
  exists at0, P. split; [reflexivity|]. split.
  - exact (ws_before_suffix isS a a0 at0 Ha Ea).
  - exact (split_first_after isS b P Ps Hnl Hb EP).
Qed.

(** trim *)
Lemma drop_while_block (f : char -> bool) (a t : text) :
  (exists c t', t = c :: t' /\ f c = false) ->
  exists a1 a0, drop_while f (a ++ t) = a1 ++ t /\ a = a0 ++ a1.
Proof.
  intros (c & t' & -> & Hc). induction a as [|x a IH]; simpl.
  - rewrite Hc. exists [], []. auto.
  - destruct (f x).
    + destruct IH as (a1 & a0 & E & Ea). exists a1, (x :: a0). rewrite E, Ea. auto.
    + exists (x :: a), []. auto.
Qed.

Lemma trim_block (isS : char -> bool) (a y b : text) :
  y <> [] -> (forall c, In c y -> isS c = false) ->
  ws_before isS a -> ws_after isS b ->
  exists a' b', trim isS (a ++ y ++ b) = a' ++ y ++ b' /\ ws_before isS a' /\ ws_after isS b'.
Proof.
  intros Hy Hys Ha Hb. unfold trim.
  destruct (drop_while_block isS a (y ++ b)) as (a1 & a0 & E1 & Ea).
  { destruct y as [|c y']; [contradiction|]. exists c, (y' ++ b). split; [reflexivity|].
    apply Hys. now left. }
  rewrite E1, !rev_app_distr, <- app_assoc.
  destruct (drop_while_block isS (rev b) (rev y ++ rev a1)) as (b1 & b0 & E2 & Eb).
  { destruct (rev y) as [|c r] eqn:Er.
    - exfalso. apply Hy. rewrite <- (rev_involutive y), Er. reflexivity.
    - exists c, (r ++ rev a1). split; [reflexivity|]. apply Hys. apply in_rev. rewrite Er. now left. }
  rewrite E2, !rev_app_distr, !rev_involutive, <- app_assoc.
  exists a1, (rev b1). split; [reflexivity|]. split.
  - exact (ws_before_suffix isS a a0 a1 Ha Ea).
  - apply (ws_after_prefix isS b (rev b1) (rev b0) Hb).
    rewrite <- (rev_involutive b), Eb, rev_app_distr. reflexivity.
Qed.

Lemma span_len_app (f : char -> bool) (p r : text) :
  (forall c, In c p -> f c = true) -> span_len f (p ++ r) = List.length p + span_len f r.
Proof.
  induction p as [|c p IH]; intro Hp; [reflexivity|]. simpl.
  rewrite (Hp c (or_introl eq_refl)), IH; [reflexivity|]. intros x Hx. apply Hp. now right.
Qed.

Lemma strip_prefix_app (p s r : text) : strip_prefix p s = Some r -> s = p ++ r.
Proof.
  revert s. induction p as [|a p IH]; intros s H; simpl in H.
  - injection H as ->. reflexivity.
  - destruct s as [|c s']; [discriminate|]. destruct (N.eqb_spec a c) as [->|]; [|discriminate].
    rewrite (IH s' H). reflexivity.
Qed.

Lemma span_len_ws_bound (f : char -> bool) (a0 r : text) (w : char) :
  f w = false -> span_len f (a0 ++ w :: r) <= List.length a0.
Proof.
  intro Hw. induction a0 as [|c a0 IH]; simpl; [rewrite Hw; lia|].
  destruct (f c); lia.
Qed.


Lemma ln_group_spec (isLN : char -> bool) (w : text) :
  ln_group isLN w = true -> w <> [] /\ forall c, In c w -> isLN c = true.
Proof.
  unfold ln_group. intro H. apply andb_true_iff in H as [H1 H2]. split.
  - intros ->. discriminate.
  - apply forallb_forall. exact H2.
Qed.

Lemma punct_spec (isLN isS : char -> bool) (q : text) :
  forallb (punct isLN isS) q = true -> forall c, In c q -> isLN c = false /\ isS c = false.
Proof.
  intros H c Hc. rewrite forallb_forall in H. specialize (H c Hc). unfold punct in H.
  destruct (isLN c), (isS c); simpl in H; try discriminate. auto.
Qed.

Section WordRuns.

Variable isLN isS : char -> bool.
Hypothesis Hcl : classes_ok_words isLN isS.

Lemma S_not_LN (c : char) : isS c = true -> isLN c = false.
Proof. destruct Hcl as ((_ & _ & H) & _). apply H. Qed.

Lemma LN_nonspace (c : char) : isLN c = true -> isS c = false.
Proof. intro H. destruct (isS c) eqn:E; [|reflexivity]. rewrite (S_not_LN c E) in H. discriminate. Qed.

Lemma letter_nonspace (c : char) : ((65 <= c <= 90) \/ (97 <= c <= 122))%N -> isS c = false.
Proof. intro H. apply LN_nonspace. destruct Hcl as ((Ha & _) & _). exact (Ha c H). Qed.

Lemma sep_nonspace (c : char) : In c [c_apos; c_dot; 47%N; 58%N] -> isS c = false.
Proof. destruct Hcl as (_ & _ & H & _). apply H. Qed.

Ltac nonspace_chars :=
  let c := fresh "c" in let Hc := fresh "Hc" in
  intros c Hc; unfold nonspace; simpl in Hc;
  repeat (destruct Hc as [<-|Hc]);
  try contradiction;
  first [ rewrite letter_nonspace by lia; reflexivity
        | rewrite sep_nonspace by (simpl; tauto); reflexivity ].

Lemma alt_http_span (s : text) (n : nat) :
  alt_http isS s = Some n -> n = span_len (nonspace isS) s /\ 1 <= n.
Proof.
  unfold alt_http. destruct (strip_prefix (of_string "http") s) as [r|] eqn:E1; [|discriminate].
  apply strip_prefix_app in E1. subst s.
  rewrite span_len_app by nonspace_chars.
  destruct r as [|c r']; [discriminate|].
  destruct (N.eqb_spec c 115) as [->|Hc]; cbv beta iota zeta.
  - destruct (strip_prefix (of_string "://") r') as [r3|] eqn:E2; [|discriminate].
    apply strip_prefix_app in E2. subst r'.
    destruct (Nat.eqb_spec (span_len (nonspace isS) r3) 0); [discriminate|].
    intro H. injection H as <-.
    change (115%N :: of_string "://" ++ r3) with ((115%N :: of_string "://") ++ r3).
    rewrite span_len_app by nonspace_chars. simpl. lia.
  - destruct (strip_prefix (of_string "://") (c :: r')) as [r3|] eqn:E2; [|discriminate].
    apply strip_prefix_app in E2. rewrite E2.
    destruct (Nat.eqb_spec (span_len (nonspace isS) r3) 0); [discriminate|].
    intro H. injection H as <-.
    rewrite span_len_app by nonspace_chars. simpl. lia.
Qed.

Lemma alt_www_span (s : text) (n : nat) :
  alt_www isS s = Some n -> n = span_len (nonspace isS) s /\ 1 <= n.
Proof.
  unfold alt_www. destruct (strip_prefix (of_string "www.") s) as [r|] eqn:E1; [|discriminate].
  apply strip_prefix_app in E1. subst s.
  destruct (Nat.eqb_spec (span_len (nonspace isS) r) 0); [discriminate|].
  intro H. injection H as <-.
  rewrite span_len_app by nonspace_chars. simpl. lia.
Qed.

Lemma word_run_le (s : text) :
  forall dots, word_run isLN dots s <= span_len (nonspace isS) s.
Proof.
  induction s as [|c t IH]; intro dots; [reflexivity|]. simpl.
  unfold nonspace at 1.
  destruct (isLN c) eqn:Ec.
  - rewrite (LN_nonspace c Ec). simpl. specialize (IH dots). lia.
  - destruct t as [|d t']; [lia|]. destruct (isLN d); [|lia].
    destruct ((c =? c_apos)%N && negb dots) eqn:E1.
    + apply andb_true_iff in E1 as [E1 _]. apply N.eqb_eq in E1. subst c.
      rewrite sep_nonspace by (simpl; tauto). cbn [negb]. specialize (IH false). lia.
    + destruct (N.eqb_spec c c_dot) as [->|]; [|lia].
      rewrite sep_nonspace by (simpl; tauto). cbn [negb]. specialize (IH true). lia.
Qed.

Lemma punct_le (s : text) : span_len (punct isLN isS) s <= span_len (nonspace isS) s.
Proof.
  induction s as [|c t IH]; [reflexivity|]. simpl.
  destruct (punct isLN isS c) eqn:E1, (nonspace isS c) eqn:E2; try lia.
  unfold punct, nonspace in *. destruct (isS c); rewrite ?orb_true_r in E1; discriminate.
Qed.

Lemma match_at_span (s : text) (n : nat) :
  match_at isLN isS s = Some n -> n <= span_len (nonspace isS) s /\ 1 <= n.
Proof.
  unfold match_at.
  destruct (alt_http isS s) as [k|] eqn:E1.
  { intro H. injection H as <-. apply alt_http_span in E1. lia. }
  destruct (alt_www isS s) as [k|] eqn:E2.
  { intro H. injection H as <-. apply alt_www_span in E2. lia. }
  destruct (alt_word isLN s) as [k|] eqn:E3.
  - intro H. injection H as <-. unfold alt_word in E3.
    destruct s as [|c t]; [discriminate|]. destruct (isLN c) eqn:Ec; [|discriminate].
    injection E3 as <-. split; [exact (word_run_le (c :: t) false)|]. simpl. rewrite Ec. lia.
  - unfold alt_punct. destruct (Nat.eqb_spec (span_len (punct isLN isS) s) 0); [discriminate|].
    intro H. injection H as <-. split; [apply punct_le | lia].
Qed.

Lemma match_all_fuel (f1 : nat) :
  forall f2 s, List.length s <= f1 -> List.length s <= f2 ->
  match_all isLN isS f1 s = match_all isLN isS f2 s.
Proof.
  induction f1 as [|f1 IH]; intros f2 s H1 H2.
  - destruct s; [destruct f2; reflexivity | simpl in H1; lia].
  - destruct s as [|c t]; [destruct f2; reflexivity|].
    destruct f2 as [|f2]; [simpl in H2; lia|]. simpl.
    destruct (match_at isLN isS (c :: t)) as [n|] eqn:E.
    + apply match_at_span in E. f_equal. apply IH; rewrite length_skipn; cbn [List.length] in *; lia.
    + apply IH; simpl in *; lia.
Qed.

Lemma match_all_prefix (fuel : nat) :
  forall a t, List.length (a ++ t) <= fuel -> ws_before isS a ->
  exists ms1, match_all isLN isS fuel (a ++ t) = ms1 ++ match_all isLN isS (List.length t) t.
Proof.
  induction fuel as [|f IH]; intros a t Hl Ha.
  - destruct a, t; simpl in Hl; try lia. exists []. reflexivity.
  - destruct a as [|c a'].
    + exists []. apply match_all_fuel; simpl in *; lia.
    + destruct Ha as [Ha|(a0 & w & Ea & Hw)]; [discriminate|].
      assert (Hbound : span_len (nonspace isS) ((c :: a') ++ t) <= List.length a').
      { rewrite Ea, <- app_assoc. simpl app.
        pose proof (span_len_ws_bound (nonspace isS) a0 t w) as B.
        unfold nonspace in B |- * at 1. rewrite Hw in B. specialize (B eq_refl).
        assert (List.length (c :: a') = List.length (a0 ++ [w])) by now rewrite Ea.
        rewrite length_app in H. simpl in H. lia. }
      change ((c :: a') ++ t) with (c :: (a' ++ t)) in Hbound |- *. simpl.
      destruct (match_at isLN isS (c :: a' ++ t)) as [n|] eqn:E.
      * apply match_at_span in E as [E1 E2].
        change (c :: a' ++ t) with ((c :: a') ++ t).
        rewrite skipn_app. replace (n - List.length (c :: a')) with 0 by (simpl; lia).
        simpl skipn at 2.
        destruct (IH (skipn n (c :: a')) t) as [ms1 Hms].
        -- rewrite length_app, length_skipn. rewrite length_app in Hl. cbn [List.length] in Hl |- *. lia.
        -- apply (ws_before_suffix isS (c :: a') (firstn n (c :: a'))).
           ++ right. exists a0, w. auto.
           ++ symmetry. apply firstn_skipn.
        -- exists (firstn n ((c :: a') ++ t) :: ms1). rewrite Hms. reflexivity.
      * destruct (IH a' t) as [ms1 Hms].
        -- simpl in Hl. lia.
        -- apply (ws_before_suffix isS (c :: a') [c]); [right; exists a0, w; auto | reflexivity].
        -- exists ms1. exact Hms.
Qed.

Lemma word_run_stop (f : text) (dots : bool) : word_stop isLN f -> word_run isLN dots f = 0.
Proof.
  destruct f as [|c f']; [reflexivity|]. intros [Hc Hn]. simpl. rewrite Hc.
  destruct f' as [|d f'']; [reflexivity|]. destruct (isLN d) eqn:Ed; [|reflexivity].
  destruct (N.eqb_spec c c_apos) as [->|H1].
  { rewrite (Hn (or_introl eq_refl) d f'' eq_refl) in Ed. discriminate. }
  destruct (N.eqb_spec c c_dot) as [->|H2].
  { rewrite (Hn (or_intror eq_refl) d f'' eq_refl) in Ed. discriminate. }
  reflexivity.
Qed.

Lemma word_run_ln (w f : text) (dots : bool) :
  (forall c, In c w -> isLN c = true) ->
  word_run isLN dots (w ++ f) = List.length w + word_run isLN dots f.
Proof.
  induction w as [|c w IH]; intro Hw; [reflexivity|].
  change ((c :: w) ++ f) with (c :: (w ++ f)). cbn [word_run].
  rewrite (Hw c (or_introl eq_refl)), IH; [reflexivity|]. intros x Hx. apply Hw. now right.
Qed.

Lemma word_run_sep (sep : char) (w f : text) (dots dots' : bool) :
  isLN sep = false -> ln_group isLN w = true ->
  (if (sep =? c_apos)%N && negb dots then Some false
   else if (sep =? c_dot)%N then Some true else None) = Some dots' ->
  word_run isLN dots (sep :: w ++ f) = S (List.length w + word_run isLN dots' f).
Proof.
  intros Hs Hg Hd. apply ln_group_spec in Hg as [Hw Hln]. destruct w as [|x w']; [contradiction|].
  change ((x :: w') ++ f) with (x :: (w' ++ f)). cbn [word_run]. rewrite Hs.
  rewrite (Hln x (or_introl eq_refl)).
  destruct ((sep =? c_apos)%N && negb dots); [|destruct (sep =? c_dot)%N; [|discriminate]];
    injection Hd as <-;
    rewrite word_run_ln by (intros c Hc; apply Hln; now right); reflexivity.
Qed.

Lemma word_run_dots (D : list text) :
  forall dots f, forallb (ln_group isLN) D = true -> word_stop isLN f ->
  word_run isLN dots (List.concat (map (cons c_dot) D) ++ f)
  = List.length (List.concat (map (cons c_dot) D)).
Proof.
  destruct Hcl as (_ & _ & _ & _ & Hdot).
  induction D as [|w D IH]; intros dots f HD Hf; cbn [List.concat map app].
  - apply word_run_stop. exact Hf.
  - cbn [forallb] in HD. apply andb_true_iff in HD as [Hw HD'].
    rewrite <- app_assoc, (word_run_sep c_dot w _ dots true Hdot Hw).
    + rewrite IH by assumption. cbn [List.length]. rewrite length_app. reflexivity.
    + destruct dots; reflexivity.
Qed.

Lemma word_run_apos (A : list text) (rest : text) :
  forallb (ln_group isLN) A = true ->
  word_run isLN false (List.concat (map (cons c_apos) A) ++ rest)
  = List.length (List.concat (map (cons c_apos) A)) + word_run isLN false rest.
Proof.
  destruct Hcl as (_ & _ & _ & Hapos & _).
  induction A as [|w A IH]; intro HA; cbn [List.concat map app]; [reflexivity|].
  cbn [forallb] in HA. apply andb_true_iff in HA as [Hw HA'].
  rewrite <- app_assoc, (word_run_sep c_apos w _ false false Hapos Hw) by reflexivity.
  rewrite IH by exact HA'. cbn [List.length]. rewrite length_app. lia.
Qed.

Lemma word_run_form (w0 : text) (A D : list text) (f : text) :
  ln_group isLN w0 = true -> forallb (ln_group isLN) A = true -> forallb (ln_group isLN) D = true -> word_stop isLN f ->
  word_run isLN false (word_form w0 A D ++ f) = List.length (word_form w0 A D).
Proof.
  intros H0 HA HD Hf. apply ln_group_spec in H0 as [_ Hw0]. unfold word_form. rewrite <- !app_assoc.
  rewrite word_run_ln by exact Hw0. rewrite word_run_apos by exact HA.
  rewrite word_run_dots by assumption. rewrite !length_app. reflexivity.
Qed.

Lemma word_form_chars (w0 : text) (A D : list text) (c : char) :
  ln_group isLN w0 = true -> forallb (ln_group isLN) A = true -> forallb (ln_group isLN) D = true ->
  In c (word_form w0 A D) -> isLN c = true \/ c = c_apos \/ c = c_dot.
Proof.
  intros H0 HA HD Hc. apply ln_group_spec in H0 as [_ Hw0]. unfold word_form in Hc. apply in_app_iff in Hc as [Hc|Hc].
  { left. exact (Hw0 c Hc). }
  apply in_app_iff in Hc as [Hc|Hc]; apply in_concat in Hc as (l & Hl & Hc);
    apply in_map_iff in Hl as (w & <- & Hw); destruct Hc as [<-|Hc]; auto; left.
  - rewrite forallb_forall in HA. exact (proj2 (ln_group_spec _ _ (HA w Hw)) c Hc).
  - rewrite forallb_forall in HD. exact (proj2 (ln_group_spec _ _ (HD w Hw)) c Hc).
Qed.

Lemma word_form_nonspace (w0 : text) (A D : list text) (c : char) :
  ln_group isLN w0 = true -> forallb (ln_group isLN) A = true -> forallb (ln_group isLN) D = true ->
  In c (word_form w0 A D) -> isS c = false.
Proof.
  intros H0 HA HD Hc. destruct (word_form_chars w0 A D c H0 HA HD Hc) as [H|[->| ->]].
  - exact (LN_nonspace c H).
  - apply sep_nonspace. simpl. auto.
  - apply sep_nonspace. simpl. auto.
Qed.

Lemma span_block (x b : text) :
  (forall c, In c x -> isS c = false) -> ws_after isS b ->
  span_len (nonspace isS) (x ++ b) = List.length x.
Proof.
  intros Hx Hb. rewrite span_len_app.
  - destruct Hb as [->|(w & b0 & -> & Hw)]; simpl; [lia|]. unfold nonspace at 1. rewrite Hw. simpl. lia.
  - intros c Hc. unfold nonspace. rewrite (Hx c Hc). reflexivity.
Qed.

Lemma match_at_word (w0 : text) (A D : list text) (q b : text) :
  ln_group isLN w0 = true -> forallb (ln_group isLN) A = true -> forallb (ln_group isLN) D = true ->
  (forall c, In c q -> isLN c = false /\ isS c = false) -> ws_after isS b ->
  match_at isLN isS (word_form w0 A D ++ q ++ b) = Some (List.length (word_form w0 A D))
  \/ match_at isLN isS (word_form w0 A D ++ q ++ b) = Some (List.length (word_form w0 A D ++ q)).
Proof.
  intros H0 HA HD Hq Hb.
  assert (Hspan : span_len (nonspace isS) (word_form w0 A D ++ q ++ b)
                  = List.length (word_form w0 A D ++ q)).
  { rewrite app_assoc. apply span_block; [|exact Hb].
    intros c Hc. apply in_app_iff in Hc as [Hc|Hc].
    - exact (word_form_nonspace w0 A D c H0 HA HD Hc).
    - exact (proj2 (Hq c Hc)). }
  unfold match_at.
  destruct (alt_http isS _) as [n|] eqn:E1.
  { right. apply alt_http_span in E1 as [-> _]. now rewrite Hspan. }
  destruct (alt_www isS _) as [n|] eqn:E2.
  { right. apply alt_www_span in E2 as [-> _]. now rewrite Hspan. }
  left.
  assert (Ew : alt_word isLN (word_form w0 A D ++ q ++ b)
               = Some (word_run isLN false (word_form w0 A D ++ q ++ b))).
  { apply ln_group_spec in H0 as [Hne Hw0]. unfold alt_word, word_form.
    destruct w0 as [|c w0']; [contradiction|]. cbn [app].
    rewrite (Hw0 c (or_introl eq_refl)). reflexivity. }
  rewrite Ew. f_equal.
  apply word_run_form; [exact H0 | exact HA | exact HD |].
  destruct q as [|x q'].
  - destruct Hb as [->|(w & b0 & -> & Hw)]; [exact I|]. split; [exact (S_not_LN w Hw)|].
    intros [->| ->]; rewrite sep_nonspace in Hw by (simpl; auto); discriminate.
  - split; [exact (proj1 (Hq x (or_introl eq_refl)))|]. intros _ d f'' Ed.
    destruct q' as [|y q''].
    + destruct Hb as [->|(w & b0 & -> & Hw)]; [discriminate|]. injection Ed as <- _.
      exact (S_not_LN _ Hw).
    + injection Ed as <- _. exact (proj1 (Hq _ (or_intror (or_introl eq_refl)))).
Qed.

Lemma letter_LN (c : char) : ((65 <= c <= 90) \/ (97 <= c <= 122))%N -> isLN c = true.
Proof. destruct Hcl as ((Ha & _) & _). apply Ha. Qed.

Lemma match_at_punct (q b : text) :
  q <> [] -> (forall c, In c q -> isLN c = false /\ isS c = false) -> ws_after isS b ->
  match_at isLN isS (q ++ b) = Some (List.length q).
Proof.
  intros Hne Hq Hb. destruct q as [|x q']; [contradiction|].
  destruct (Hq x (or_introl eq_refl)) as [Hx _].
  unfold match_at.
  assert (Hh : alt_http isS ((x :: q') ++ b) = None).
  { destruct (alt_http isS _) eqn:E; [exfalso|reflexivity]. unfold alt_http in E.
    destruct (strip_prefix (of_string "http") _) as [r|] eqn:Es; [|discriminate].
    apply strip_prefix_app in Es. simpl in Es. injection Es as Ex _. subst x.
    rewrite letter_LN in Hx by lia. discriminate. }
  assert (Hw : alt_www isS ((x :: q') ++ b) = None).
  { destruct (alt_www isS _) eqn:E; [exfalso|reflexivity]. unfold alt_www in E.
    destruct (strip_prefix (of_string "www.") _) as [r|] eqn:Es; [|discriminate].
    apply strip_prefix_app in Es. simpl in Es. injection Es as Ex _. subst x.
    rewrite letter_LN in Hx by lia. discriminate. }
  rewrite Hh, Hw. unfold alt_word. cbn [app]. rewrite Hx.
  unfold alt_punct. change (x :: q' ++ b) with ((x :: q') ++ b). rewrite span_len_app.
  - replace (span_len (punct isLN isS) b) with 0.
    + rewrite Nat.add_0_r. reflexivity.
    + destruct Hb as [->|(w & b0 & -> & Hw')]; [reflexivity|]. simpl.
      unfold punct at 1. rewrite Hw', orb_true_r. reflexivity.
  - intros c Hc. destruct (Hq c Hc) as [H1 H2]. unfold punct. rewrite H1, H2. reflexivity.
Qed.

Lemma match_all_step (f n : nat) (s : text) :
  s <> [] -> match_at isLN isS s = Some n ->
  match_all isLN isS (S f) s = firstn n s :: match_all isLN isS f (skipn n s).
Proof.
  intros Hs E. destruct s as [|c t]; [contradiction|]. cbn [match_all]. rewrite E. reflexivity.
Qed.

Lemma match_all_word (w0 : text) (A D : list text) (q b : text) :
  ln_group isLN w0 = true -> forallb (ln_group isLN) A = true -> forallb (ln_group isLN) D = true ->
  (forall c, In c q -> isLN c = false /\ isS c = false) -> ws_after isS b ->
  exists pieces ms2,
    match_all isLN isS (List.length (word_form w0 A D ++ q ++ b)) (word_form w0 A D ++ q ++ b)
      = pieces ++ ms2
    /\ (pieces = [word_form w0 A D ++ q] \/ (q <> [] /\ pieces = [word_form w0 A D; q])).
Proof.
  intros H0 HA HD Hq Hb.
  assert (Hne : word_form w0 A D <> []).
  { apply ln_group_spec in H0 as [Hw _]. unfold word_form. destruct w0; [contradiction | discriminate]. }
  assert (Hne2 : word_form w0 A D ++ q ++ b <> []).
  { intro E. apply app_eq_nil in E as [E _]. contradiction. }
  destruct (List.length (word_form w0 A D ++ q ++ b)) as [|f] eqn:El.
  { apply length_zero_iff_nil in El. contradiction. }
  destruct (match_at_word w0 A D q b H0 HA HD Hq Hb) as [E|E];
    rewrite (match_all_step f _ _ Hne2 E).
  - rewrite firstn_length_app, skipn_length_app. destruct q as [|x q'].
    + exists [word_form w0 A D ++ []], (match_all isLN isS f b).
      rewrite app_nil_r. split; [reflexivity | now left].
    + destruct f as [|f'].
      { assert (List.length (word_form w0 A D) <> 0) by (rewrite length_zero_iff_nil; exact Hne).
        rewrite !length_app in El. simpl in El. lia. }
      assert (Hq1 : (x :: q') ++ b <> []) by discriminate.
      assert (Hq2 : x :: q' <> []) by discriminate.
      rewrite (match_all_step f' _ _ Hq1 (match_at_punct (x :: q') b Hq2 Hq Hb)).
      rewrite firstn_length_app, skipn_length_app.
      eexists [_; _], _. split; [reflexivity|]. right. split; [discriminate | reflexivity].
  - rewrite app_assoc, firstn_length_app, skipn_length_app.
    eexists [_], _. split; [reflexivity|]. now left.
Qed.

Lemma isWordLike_LN_head (c : char) (t : text) : isLN c = true -> isWordLike isLN (c :: t) = true.
Proof. intro H. unfold isWordLike. rewrite H. reflexivity. Qed.

Lemma push_keeps (P : text) (out : list token) (t : text) :
  has_prefix P out -> has_prefix P (push_token isLN out t).
Proof.
  intros (tok & r & Hin & Hw). unfold push_token. destruct (isWordLike isLN t).
  - exists tok, r. split; [now right | exact Hw].
  - destruct out as [|x rest]; [destruct Hin|]. destruct Hin as [->|Hin].
    + exists (mkToken (word tok ++ t) (isParagraphEnd tok)), (r ++ t).
      split; [now left|]. simpl. rewrite Hw, <- app_assoc. reflexivity.
    + exists tok, r. split; [now right | exact Hw].
Qed.

Lemma fold_keeps (P : text) (ms : list text) :
  forall out, has_prefix P out -> has_prefix P (fold_left (push_token isLN) ms out).
Proof.
  induction ms as [|t ms IH]; intros out H; [exact H|]. simpl. apply IH, push_keeps, H.
Qed.

Lemma mark_last_keeps (P : text) (out : list token) :
  has_prefix P out -> has_prefix P (mark_last out).
Proof.
  intros (tok & r & Hin & Hw). destruct out as [|x rest]; [destruct Hin|].
  destruct Hin as [->|Hin].
  - exists (mkToken (word tok) true), r. split; [now left | exact Hw].
  - exists tok, r. split; [now right | exact Hw].
Qed.

Lemma tok_paras_keeps (P : text) (ps : list text) :
  forall out, has_prefix P out -> has_prefix P (tok_paras isLN isS ps out).
Proof.
  induction ps as [|p ps IH]; intros out H; [exact H|]. cbn [tok_paras].
  destruct (trim isS p) as [|c r]; apply IH; [exact H|].
  destruct ps; [|apply mark_last_keeps]; apply fold_keeps; exact H.
Qed.

Lemma tok_paras_app_ex (ps1 ps : list text) :
  forall out, exists out', tok_paras isLN isS (ps1 ++ ps) out = tok_paras isLN isS ps out'.
Proof.
  induction ps1 as [|p ps1 IH]; intro out; [exists out; reflexivity|].
  cbn [app tok_paras]. destruct (trim isS p); apply IH.
Qed.

Lemma tok_paras_para (P p : text) (c : char) (r : text) (ps : list text) (out : list token) :
  trim isS p = c :: r ->
  has_prefix P (fold_left (push_token isLN) (match_all isLN isS (List.length (c :: r)) (c :: r)) out) ->
  has_prefix P (tok_paras isLN isS (p :: ps) out).
Proof.
  intros Et H. cbn [tok_paras]. rewrite Et. apply tok_paras_keeps.
  destruct ps; [exact H | apply mark_last_keeps, H].
Qed.

Lemma pieces_fold (y q : text) (pieces : list text) (out : list token) :
  (exists c y', y = c :: y' /\ isLN c = true) -> (forall c, In c q -> isLN c = false) ->
  (pieces = [y ++ q] \/ (q <> [] /\ pieces = [y; q])) ->
  has_prefix (y ++ q) (fold_left (push_token isLN) pieces out).
Proof.
  intros (c & y' & -> & Hc) Hq [->|[_ ->]]; simpl.
  - unfold push_token. rewrite isWordLike_LN_head by exact Hc.
    exists (mkToken ((c :: y') ++ q) false), []. split; [now left|]. simpl. now rewrite app_nil_r.
  - unfold push_token at 2. rewrite isWordLike_LN_head by exact Hc.
    unfold push_token. rewrite isWordLike_no_LN; [| destruct Hcl as ((Ha & _) & _); exact Ha | exact Hq].
    exists (mkToken ((c :: y') ++ q) false), []. split; [now left|]. simpl. now rewrite app_nil_r.
Qed.

End WordRuns.

Lemma in_tokenize (isLN isS : char -> bool) (s : text) (tok : token) :
  In tok (tokenizePage isLN isS s) -> In tok (tokenize isLN isS s).
Proof. unfold tokenize. destruct (tokenizePage isLN isS s); [intros []|tauto]. Qed.

(** Let a word be a nonempty group of letters and digits followed by
    apostrophe-joined groups and then dot-joined groups.
    If it is preceded by whitespace or the start of the text and followed by
    punctuation q (no letter, digit or whitespace) and then whitespace or the
    end of the text, then both tokenizePage and tokenize output a single token
    whose word begins with the whole word followed by q. *)
Theorem word_run_one_token (isLN isS : char -> bool) (pre w0 : text) (A D : list text) (q post : text) :
  classes_ok_words isLN isS ->
  ln_group isLN w0 = true -> forallb (ln_group isLN) A = true -> forallb (ln_group isLN) D = true ->
  forallb (punct isLN isS) q = true ->
  ws_before isS pre -> ws_after isS post ->
  exists tok r,
    In tok (tokenizePage isLN isS (pre ++ word_form w0 A D ++ q ++ post))
    /\ In tok (tokenize isLN isS (pre ++ word_form w0 A D ++ q ++ post))
    /\ word tok = word_form w0 A D ++ q ++ r.
Proof.
  intros Hcl H0 HA HD Hq' Hpre Hpost. pose proof (punct_spec isLN isS q Hq') as Hq.
  pose proof Hcl as ((Hasc & Hnl & Hdis) & Hcr & _).
  set (y := word_form w0 A D).
  assert (Hy : exists c y', y = c :: y' /\ isLN c = true).
  { apply ln_group_spec in H0 as [Hw Hln]. unfold y, word_form. destruct w0 as [|c w0']; [contradiction|].
    exists c, (w0' ++ List.concat (map (cons c_apos) A) ++ List.concat (map (cons c_dot) D)).
    split; [reflexivity | apply Hln; now left]. }
  assert (HY : y ++ q <> []).
  { destruct Hy as (c & y' & -> & _). discriminate. }
  assert (HYs : forall c, In c (y ++ q) -> isS c = false).
  { intros c Hc. apply in_app_iff in Hc as [Hc|Hc].
    - exact (word_form_nonspace isLN isS Hcl w0 A D c H0 HA HD Hc).
    - exact (proj2 (Hq c Hc)). }
  assert (HY10 : forall c, In c (y ++ q) -> c <> c_nl).
  { intros c Hc E. subst c. rewrite (HYs _ Hc) in Hnl. discriminate. }
  assert (Hkey : has_prefix (y ++ q) (tok_paras isLN isS (split_paras (normalize
                   (pre ++ y ++ q ++ post))) [])).
  { rewrite (app_assoc y q post).
    destruct (normalize_block isS pre (y ++ q) post Hnl Hcr HY HYs Hpre Hpost)
      as (a1 & b1 & En & Ha1 & Hb1).
    rewrite En.
    destruct (paragraph_block isS a1 (y ++ q) b1 Hnl HY HY10 Ha1 Hb1)
      as (ps1 & p & ps2 & Ep & a2 & b2 & -> & Ha2 & Hb2).
    rewrite Ep.
    destruct (trim_block isS a2 (y ++ q) b2 HY HYs Ha2 Hb2) as (a3 & b3 & Et & Ha3 & Hb3).
    match goal with
    | |- has_prefix _ (tok_paras _ _ (?l1 ++ ?p :: ?l2) ?o) =>
        destruct (tok_paras_app_ex isLN isS l1 (p :: l2) o) as [out' Eo];
        unfold text in Eo |- *; rewrite Eo
    end.
    destruct (a3 ++ (y ++ q) ++ b3) as [|c r] eqn:Ec.
    { apply app_eq_nil in Ec as [_ Ec]. apply app_eq_nil in Ec as [Ec _]. contradiction. }
    apply (tok_paras_para isLN isS _ _ c r); [exact Et|].
    rewrite <- Ec.
    destruct (match_all_prefix isLN isS Hcl (List.length (a3 ++ (y ++ q) ++ b3)) a3 ((y ++ q) ++ b3)
                (le_n _) Ha3) as [ms1 Hms1].
    rewrite Hms1, <- app_assoc.
    destruct (match_all_word isLN isS Hcl w0 A D q b3 H0 HA HD Hq Hb3) as (pieces & ms2 & Ew & Hp).
    fold y in Ew. rewrite Ew, !fold_left_app.
    apply fold_keeps. apply (pieces_fold isLN isS Hcl); [exact Hy | | exact Hp].
    intros x Hx. exact (proj1 (Hq x Hx)). }
  destruct Hkey as (tok & r & Hin & Hw).
  assert (Hin' : In tok (tokenizePage isLN isS (pre ++ y ++ q ++ post)))
    by (unfold tokenizePage; apply in_rev; rewrite rev_involutive; exact Hin).
  exists tok, r. split; [exact Hin'|]. split; [exact (in_tokenize _ _ _ _ Hin')|].
  rewrite Hw. symmetry. apply app_assoc.
Qed.

Lemma ascii_classes_ok_words : classes_ok_words ascii_LN ascii_S.
Proof.
  split; [exact ascii_classes_ok|]. split; [reflexivity|].
  split; [|split; reflexivity].
  intros c Hc. destruct Hc as [<-|[<-|[<-|[<-|[]]]]]; reflexivity.
Qed.

Lemma word_run_one_token_witness :
  ln_group ascii_LN (of_string "y") = true
  /\ forallb (ln_group ascii_LN) [of_string "all"] = true
  /\ forallb (ln_group ascii_LN) [of_string "com"] = true
  /\ forallb (punct ascii_LN ascii_S) (of_string "!") = true
  /\ exists tok r,
       In tok (tokenize ascii_LN ascii_S
                 (of_string "see " ++ word_form (of_string "y") [of_string "all"] [of_string "com"]
                  ++ of_string "!" ++ of_string " ok"))
       /\ word tok = word_form (of_string "y") [of_string "all"] [of_string "com"] ++ of_string "!" ++ r.
Proof.
  split; [reflexivity|]. split; [reflexivity|]. split; [reflexivity|]. split; [reflexivity|].
  assert (Hpre : ws_before ascii_S (of_string "see ")).
  { right. exists (of_string "see"), c_sp. split; reflexivity. }
  assert (Hpost : ws_after ascii_S (of_string " ok")).
  { right. exists c_sp, (of_string "ok"). split; reflexivity. }
  destruct (word_run_one_token ascii_LN ascii_S (of_string "see ") (of_string "y")
              [of_string "all"] [of_string "com"] (of_string "!") (of_string " ok")
              ascii_classes_ok_words eq_refl eq_refl eq_refl eq_refl Hpre Hpost)
    as (tok & r & _ & Hin & Hw).
  exists tok, r. split; [exact Hin | exact Hw].
Defined.

(** C9, a slip in the pattern: the class [['']] of the word alternative of
    [tokenize] and [tokenizePage] holds the ASCII apostrophe twice where the
    typographic apostrophe U+2019 was meant.  For any classes where the
    ASCII letters are letters and U+2019 is neither a letter, a digit nor
    white space (as for [\p{L}\p{N}] and [\s]), the word "don" U+2019 "t" is
    split into two tokens, while "don't" stays one token. *)
Theorem curly_apostrophe_splits (isLN isS : char -> bool) :
  classes_ok_words isLN isS -> isLN 8217%N = false -> isS 8217%N = false ->
  let s := of_string "don" ++ [8217%N] ++ of_string "t" in
  tokenizePage isLN isS s
  = [mkToken (of_string "don" ++ [8217%N]) false; mkToken (of_string "t") false]
  /\ tokenize isLN isS s
     = [mkToken (of_string "don" ++ [8217%N]) false; mkToken (of_string "t") false]
  /\ tokenize isLN isS (of_string "don't") = [mkToken (of_string "don't") false].
Proof.
  intros Hcl Hq Sq s.
  destruct Hcl as ((Hasc & _ & Hdis) & _ & Hsep & Ha & _).
  assert (L : forall c, ((65 <= c <= 90) \/ (97 <= c <= 122))%N -> isLN c = true /\ isS c = false).
  { intros c Hc. pose proof (Hasc c Hc) as H. split; [exact H|].
    destruct (isS c) eqn:E; [|reflexivity]. rewrite (Hdis c E) in H. discriminate. }
  destruct (L 100%N ltac:(lia)) as [Ld Sd]. destruct (L 111%N ltac:(lia)) as [Lo So].
  destruct (L 110%N ltac:(lia)) as [Ln Sn]. destruct (L 116%N ltac:(lia)) as [Lt St].
  assert (Sa : isS c_apos = false) by (apply Hsep; now left).
  unfold c_apos in Ha, Sa.
  assert (Hpage : tokenizePage isLN isS s
                  = [mkToken (of_string "don" ++ [8217%N]) false; mkToken (of_string "t") false]).
  { unfold s, tokenizePage. simpl.
    do 30 (cbv [alt_punct punct alt_word alt_www alt_http match_at push_token isWordLike starts_ci];
           cbn; rewrite ?Ld, ?Lo, ?Ln, ?Lt, ?Hq, ?Sd, ?So, ?Sn, ?St, ?Sq).
    reflexivity. }
  split; [exact Hpage|]. split; [unfold tokenize; now rewrite Hpage|].
  unfold tokenize, tokenizePage. simpl.
  do 30 (cbv [alt_punct punct alt_word alt_www alt_http match_at push_token isWordLike starts_ci];
         cbn; rewrite ?Ld, ?Lo, ?Ln, ?Lt, ?Ha, ?Sd, ?So, ?Sn, ?St, ?Sa).
  reflexivity.
Qed.

Lemma curly_apostrophe_splits_witness :
  classes_ok_words ascii_LN ascii_S /\ ascii_LN 8217%N = false /\ ascii_S 8217%N = false
  /\ tokenize ascii_LN ascii_S (of_string "don" ++ [8217%N] ++ of_string "t")
     = [mkToken (of_string "don" ++ [8217%N]) false; mkToken (of_string "t") false].
Proof.
  split; [exact ascii_classes_ok_words|]. split; [reflexivity|]. split; [reflexivity|].
  exact (proj1 (proj2 (curly_apostrophe_splits ascii_LN ascii_S ascii_classes_ok_words
                          eq_refl eq_refl))).
Defined.

(** ** Pacing and play control: further properties *)

Ltac case_ifs :=
  repeat match goal with |- context [if ?b then _ else _] => destruct b end.

Lemma tokenMultiplier_ge (isLN : char -> bool) (p : profile) (tok : token) :
  (10 <= tokenMultiplier isLN p tok)%Z.
Proof.
  unfold tokenMultiplier.
  case_ifs; lia.
Qed.


Lemma tokenMultiplier_mono (isLN : char -> bool) (p q : profile) (tok : token) :
  profile_le p q -> (tokenMultiplier isLN p tok <= tokenMultiplier isLN q tok)%Z.
Proof.
  intros (H1 & H2 & H3 & H4 & H5 & _). unfold tokenMultiplier.
  case_ifs; lia.
Qed.

Lemma tokenMultiplier_le (isLN : char -> bool) (key : string) (tok : token) :
  (tokenMultiplier isLN (getActiveProfile key) tok <= 40)%Z.
Proof.
  assert (Hp : profile_le (getActiveProfile key) profile_relaxed).
  { unfold getActiveProfile.
    destruct (String.eqb key "relaxed"); [|destruct (String.eqb key "normal");
      [|destruct (String.eqb key "speed")]]; unfold profile_le; simpl; lia. }
  pose proof (tokenMultiplier_mono isLN _ _ tok Hp).
  assert (tokenMultiplier isLN profile_relaxed tok <= 40)%Z.
  { unfold tokenMultiplier; simpl.
    case_ifs; lia. }
  lia.
Qed.

Lemma dwell_base (isLN : char -> bool) (wpm : Z) (key : string) (tok : token) :
  (0 < wpm)%Z ->
  let b := Z.max 1 (60000 / wpm) in
  let p := getActiveProfile key in
  let d := (b * tokenMultiplier isLN p tok / 10)%Z in
  dwellMsForToken isLN wpm key tok
  = Some (if ends_sentence (word tok) then Z.max d (minSentenceMs p)
          else if ends_comma (word tok) then Z.max d (minCommaMs p) else d).
Proof.
  intro H. unfold dwellMsForToken. rewrite baseIntervalMs_pos by exact H. cbv zeta.
  case_ifs; reflexivity.
Qed.

(** A faster rate never lengthens a dwell. *)
Theorem dwell_antitone_in_rate (isLN : char -> bool) (key : string) (tok : token) (w1 w2 : Z) :
  (0 < w1 <= w2)%Z ->
  exists d1 d2, dwellMsForToken isLN w1 key tok = Some d1
    /\ dwellMsForToken isLN w2 key tok = Some d2 /\ (d2 <= d1)%Z.
Proof.
  intro H. rewrite !dwell_base by lia. do 2 eexists. split; [reflexivity|]. split; [reflexivity|].
  set (m := tokenMultiplier isLN (getActiveProfile key) tok).
  pose proof (tokenMultiplier_ge isLN (getActiveProfile key) tok) as Hm. fold m in Hm.
  assert (Hb : (60000 / w2 <= 60000 / w1)%Z) by (apply Z.div_le_compat_l; lia).
  assert (Hd : (Z.max 1 (60000 / w2) * m / 10 <= Z.max 1 (60000 / w1) * m / 10)%Z).
  { apply Z.div_le_mono; [lia|]. apply Z.mul_le_mono_nonneg_r; lia. }
  case_ifs; lia.
Qed.

Lemma dwell_antitone_in_rate_witness :
  (0 < 200 <= 400)%Z /\
  exists d1 d2, dwellMsForToken ascii_LN 200 "normal" (mkToken (of_string "end.") false) = Some d1
    /\ dwellMsForToken ascii_LN 400 "normal" (mkToken (of_string "end.") false) = Some d2
    /\ (d2 <= d1)%Z.
Proof. split; [lia|]. apply dwell_antitone_in_rate. lia. Defined.

(** The three profiles are ordered: speed <= normal <= relaxed, token by token. *)
Theorem dwell_profiles_ordered (isLN : char -> bool) (wpm : Z) (tok : token) :
  (0 < wpm)%Z ->
  exists s n r, dwellMsForToken isLN wpm "speed" tok = Some s
    /\ dwellMsForToken isLN wpm "normal" tok = Some n
    /\ dwellMsForToken isLN wpm "relaxed" tok = Some r
    /\ (s <= n <= r)%Z.
Proof.
  intro H. rewrite !dwell_base by exact H. do 3 eexists.
  split; [reflexivity|]. split; [reflexivity|]. split; [reflexivity|].
  change (getActiveProfile "speed") with profile_speed.
  change (getActiveProfile "normal") with profile_normal.
  change (getActiveProfile "relaxed") with profile_relaxed.
  assert (E1 : profile_le profile_speed profile_normal) by (unfold profile_le; simpl; lia).
  assert (E2 : profile_le profile_normal profile_relaxed) by (unfold profile_le; simpl; lia).
  pose proof (tokenMultiplier_mono isLN _ _ tok E1) as M1.
  pose proof (tokenMultiplier_mono isLN _ _ tok E2) as M2.
  set (b := Z.max 1 (60000 / wpm)).
  assert (Hb : (1 <= b)%Z) by lia.
  assert (D1 : (b * tokenMultiplier isLN profile_speed tok / 10
                <= b * tokenMultiplier isLN profile_normal tok / 10)%Z)
    by (apply Z.div_le_mono; [lia|]; apply Z.mul_le_mono_nonneg_l; lia).
  assert (D2 : (b * tokenMultiplier isLN profile_normal tok / 10
                <= b * tokenMultiplier isLN profile_relaxed tok / 10)%Z)
    by (apply Z.div_le_mono; [lia|]; apply Z.mul_le_mono_nonneg_l; lia).
  simpl minSentenceMs. simpl minCommaMs.
  case_ifs; lia.
Qed.

Lemma dwell_profiles_ordered_witness :
  (0 < 300)%Z /\
  exists s n r, dwellMsForToken ascii_LN 300 "speed" (mkToken (of_string "wait,") false) = Some s
    /\ dwellMsForToken ascii_LN 300 "normal" (mkToken (of_string "wait,") false) = Some n
    /\ dwellMsForToken ascii_LN 300 "relaxed" (mkToken (of_string "wait,") false) = Some r
    /\ (s <= n <= r)%Z.
Proof. split; [lia|]. apply dwell_profiles_ordered. lia. Defined.

(** Every dwell lies between the base interval and four base intervals, or
    the largest minimum of 400 ms. *)
Theorem dwell_bounds (isLN : char -> bool) (wpm : Z) (key : string) (tok : token) :
  (0 < wpm)%Z ->
  exists b d, baseIntervalMs wpm = Some b /\ dwellMsForToken isLN wpm key tok = Some d
    /\ (b <= d <= Z.max (4 * b) 400)%Z.
Proof.
  intro H. rewrite dwell_base, baseIntervalMs_pos by exact H. do 2 eexists.
  split; [reflexivity|]. split; [reflexivity|].
  pose proof (tokenMultiplier_ge isLN (getActiveProfile key) tok) as G.
  pose proof (tokenMultiplier_le isLN key tok) as L.
  set (m := tokenMultiplier isLN (getActiveProfile key) tok) in *.
  set (b := Z.max 1 (60000 / wpm)).
  assert (Hb : (1 <= b)%Z) by lia.
  assert (D1 : (b <= b * m / 10)%Z).
  { rewrite <- (Z.div_mul b 10) at 1 by lia. apply Z.div_le_mono; [lia|]. nia. }
  assert (D2 : (b * m / 10 <= 4 * b)%Z).
  { rewrite <- (Z.div_mul (4 * b) 10) by lia. apply Z.div_le_mono; [lia|]. nia. }
  assert (Hmin : (minSentenceMs (getActiveProfile key) <= 400
                  /\ minCommaMs (getActiveProfile key) <= 400)%Z).
  { unfold getActiveProfile.
    destruct (String.eqb key "relaxed"); [|destruct (String.eqb key "normal");
      [|destruct (String.eqb key "speed")]]; simpl; lia. }
  case_ifs; lia.
Qed.

Lemma dwell_bounds_witness :
  (0 < 1000)%Z /\
  exists b d, baseIntervalMs 1000 = Some b
    /\ dwellMsForToken ascii_LN 1000 "relaxed" (mkToken (of_string "Stop.") true) = Some d
    /\ (b <= d <= Z.max (4 * b) 400)%Z.
Proof. split; [lia|]. apply dwell_bounds. lia. Defined.

(** ** Play control: moving through the words *)

Lemma dwell_some (isLN : char -> bool) (wpm : Z) (key : string) (tok : token) :
  (0 < wpm)%Z -> exists ms, dwellMsForToken isLN wpm key tok = Some ms.
Proof. intro H. rewrite dwell_base by exact H. eexists. reflexivity. Qed.

Lemma pdf_wait_text (a : App) : isPdfMode a = false -> pdf_wait a = None.
Proof. intro H. unfold pdf_wait. now rewrite H. Qed.

Lemma scheduleNext_stop (isLN : char -> bool) (b : App) :
  isPdfMode b = false ->
  isPlaying b = true -> loopEnabled b = false -> List.length (words b) <= S (index b) ->
  scheduleNext isLN b = with_play b false None.
Proof.
  intros Hm Hp Hl Hn. unfold scheduleNext. rewrite Hp, (pdf_wait_text b Hm), Hl. simpl.
  replace (Z.of_nat (index b) >=? Z.of_nat (List.length (words b)) - 1)%Z with true
    by (symmetry; apply Z.geb_le; lia).
  reflexivity.
Qed.

Lemma scheduleNext_go (isLN : char -> bool) (b : App) :
  isPdfMode b = false ->
  isPlaying b = true -> (0 < wpm b)%Z -> index b < List.length (words b) ->
  (loopEnabled b = true \/ S (S (index b)) <= List.length (words b)) ->
  exists tok, nth_error (words b) (index b) = Some tok
    /\ scheduleNext isLN b = with_play b true (dwellMsForToken isLN (wpm b) (profileKey b) tok).
Proof.
  intros Hm Hp Hw Hi Hl. unfold scheduleNext. rewrite Hp, (pdf_wait_text b Hm). simpl negb. cbv iota.
  replace (negb (loopEnabled b) && (Z.of_nat (index b) >=? Z.of_nat (List.length (words b)) - 1))%Z
    with false.
  2:{ destruct Hl as [->|Hl]; [reflexivity|].
      replace (Z.of_nat (index b) >=? Z.of_nat (List.length (words b)) - 1)%Z with false
        by (symmetry; rewrite Z.geb_leb; apply Z.leb_gt; lia).
      now rewrite andb_false_r. }
  destruct (nth_error (words b) (index b)) as [tok|] eqn:E.
  - exists tok. split; [reflexivity|].
    destruct (dwell_some isLN (wpm b) (profileKey b) tok Hw) as [ms Hms]. now rewrite Hms.
  - apply nth_error_None in E. lia.
Qed.

Lemma advanceTo_index (a : App) (k : Z) :
  index (advanceTo a k)
  = Z.to_nat (Z.max 0 (Z.min (Z.of_nat (List.length (words a)) - 1) k)).
Proof. reflexivity. Qed.

Lemma setPlaying_true (isLN : char -> bool) (a : App) :
  (0 < wpm a)%Z -> setPlaying isLN true a = scheduleNext isLN (with_play a true None).
Proof.
  intro H. unfold setPlaying. simpl andb.
  replace (0 <? wpm a)%Z with true by (symmetry; apply Z.ltb_lt; exact H). reflexivity.
Qed.

(** One firing of the timer while playing, with loop disabled. *)
Lemma timerFire_next (isLN : char -> bool) (b : App) (x : Z) :
  timerId b = Some x -> isPlaying b = true -> S (index b) < List.length (words b) ->
  timerFire isLN b = scheduleNext isLN (set_index (with_play b true None) (S (index b))).
Proof.
  intros Ht Hp Hi. unfold timerFire. rewrite Ht. simpl isPlaying. rewrite Hp. cbn [negb].
  simpl index. simpl words.
  replace (Z.of_nat (index b) <? Z.of_nat (List.length (words b)) - 1)%Z with true
    by (symmetry; apply Z.ltb_lt; lia).
  f_equal. unfold advanceTo. simpl. f_equal. lia.
Qed.

Lemma timerFire_last (isLN : char -> bool) (b : App) (x : Z) :
  timerId b = Some x -> isPlaying b = true -> List.length (words b) <= S (index b) ->
  timerFire isLN b
  = if loopEnabled b then scheduleNext isLN (set_index (with_play b true None) 0)
    else with_play b false None.
Proof.
  intros Ht Hp Hi. unfold timerFire. rewrite Ht. simpl isPlaying. rewrite Hp. cbn [negb].
  simpl index. simpl words.
  replace (Z.of_nat (index b) <? Z.of_nat (List.length (words b)) - 1)%Z with false
    by (symmetry; apply Z.ltb_ge; lia).
  simpl loopEnabled. destruct (loopEnabled b).
  - f_equal. unfold advanceTo. simpl. f_equal. lia.
  - reflexivity.
Qed.

Section PlayThrough.

Variable isLN : char -> bool.
Variable a : App.
Hypothesis Hw : (0 < wpm a)%Z.
Hypothesis Hi : index a < List.length (words a).
Hypothesis Hm : isPdfMode a = false.

Lemma shows_start :
  (loopEnabled a = true \/ S (S (index a)) <= List.length (words a)) ->
  same_setup a (setPlaying isLN true a) /\ shows isLN a (setPlaying isLN true a) (index a).
Proof.
  intro Hl. rewrite setPlaying_true by exact Hw.
  destruct (scheduleNext_go isLN (with_play a true None) Hm eq_refl Hw Hi Hl) as (tok & E1 & E2).
  rewrite E2. unfold same_setup, shows. simpl. repeat split; try reflexivity.
  exists tok. split; [exact E1 | reflexivity].
Qed.

Lemma shows_step (b : App) (j : nat) :
  same_setup a b -> shows isLN a b j ->
  (loopEnabled a = true \/ S (S (S j)) <= List.length (words a)) ->
  S j < List.length (words a) ->
  same_setup a (timerFire isLN b) /\ shows isLN a (timerFire isLN b) (S j).
Proof.
  intros (S1 & S2 & S3 & S4 & S5) (P1 & P2 & tok & _ & P3) Hl Hj.
  destruct (dwell_some isLN (wpm a) (profileKey a) tok Hw) as [ms Hms]. rewrite Hms in P3.
  rewrite (timerFire_next isLN b ms P3 P1) by (rewrite S1, P2; exact Hj).
  set (b1 := set_index (with_play b true None) (S (index b))).
  assert (Hb1 : isPlaying b1 = true) by reflexivity.
  assert (Hw1 : (0 < wpm b1)%Z) by (simpl; rewrite S2; exact Hw).
  assert (Hi1 : index b1 < List.length (words b1)) by (simpl; rewrite S1, P2; exact Hj).
  assert (Hl1 : loopEnabled b1 = true \/ S (S (index b1)) <= List.length (words b1))
    by (simpl; rewrite S1, S4, P2; exact Hl).
  assert (Hm1 : isPdfMode b1 = false) by (simpl; rewrite S5; exact Hm).
  destruct (scheduleNext_go isLN b1 Hm1 Hb1 Hw1 Hi1 Hl1) as (tok' & E1 & E2).
  rewrite E2. unfold same_setup, shows. simpl. rewrite S1, S2, S3, S4, S5, P2.
  repeat split; try reflexivity. exists tok'. simpl in E1. rewrite S1, P2 in E1.
  split; [exact E1 | reflexivity].
Qed.

End PlayThrough.


(** With loop disabled, playing shows the words one after another, each
    for its dwell, and stops as soon as the last word is shown. *)
Theorem play_without_loop_stops_on_last_word (isLN : char -> bool) (a : App) :
  isPdfMode a = false ->
  (0 < wpm a)%Z -> loopEnabled a = false -> index a < List.length (words a) ->
  (forall k, index a + k < List.length (words a) - 1 ->
     let b := Nat.iter k (timerFire isLN) (setPlaying isLN true a) in
     isPlaying b = true /\ index b = index a + k
     /\ exists tok, nth_error (words a) (index a + k) = Some tok
          /\ timerId b = dwellMsForToken isLN (wpm a) (profileKey a) tok)
  /\ (let b := Nat.iter (List.length (words a) - 1 - index a) (timerFire isLN)
                 (setPlaying isLN true a) in
      isPlaying b = false /\ index b = List.length (words a) - 1 /\ timerId b = None).
Proof.
  intros Hm Hw Hl Hi.
  assert (Hinv : forall k, index a + k < List.length (words a) - 1 ->
            same_setup a (Nat.iter k (timerFire isLN) (setPlaying isLN true a))
            /\ shows isLN a (Nat.iter k (timerFire isLN) (setPlaying isLN true a)) (index a + k)).
  { induction k as [|k IH]; intro Hk.
    - rewrite Nat.add_0_r. apply (shows_start isLN a Hw Hi Hm). right. lia.
    - destruct (IH ltac:(lia)) as [S1 S2]. cbn [Nat.iter].
      replace (index a + S k) with (S (index a + k)) by lia.
      apply (shows_step isLN a Hw Hm _ _ S1 S2); lia. }
  split.
  - intros k Hk. exact (proj2 (Hinv k Hk)).
  - cbv zeta. destruct (List.length (words a) - 1 - index a) as [|m] eqn:Em.
    + cbn [Nat.iter]. rewrite setPlaying_true by exact Hw.
      rewrite scheduleNext_stop by (simpl; try reflexivity; try exact Hm; try exact Hl; lia).
      simpl. repeat split. lia.
    + cbn [Nat.iter].
      destruct (Hinv m ltac:(lia)) as [(S1 & S2 & S3 & S4 & S5) (P1 & P2 & tok & _ & P3)].
      destruct (dwell_some isLN (wpm a) (profileKey a) tok Hw) as [ms Hms]. rewrite Hms in P3.
      set (b := Nat.iter m (timerFire isLN) (setPlaying isLN true a)) in *.
      simpl Nat.iter. fold b.
      rewrite (timerFire_next isLN b ms P3 P1) by (rewrite S1, P2; lia).
      rewrite scheduleNext_stop by (simpl; try reflexivity; try (rewrite S5; exact Hm);
                                    try (rewrite S4; exact Hl); rewrite S1, P2; lia).
      simpl. repeat split. lia.
Qed.

Lemma play_without_loop_stops_on_last_word_witness :
  let a := demo_app 0 false in
  isPdfMode a = false /\
  (0 < wpm a)%Z /\ loopEnabled a = false /\ index a < List.length (words a) /\
  let b := Nat.iter (List.length (words a) - 1 - index a) (timerFire ascii_LN)
             (setPlaying ascii_LN true a) in
  isPlaying b = false /\ index b = List.length (words a) - 1 /\ timerId b = None.
Proof.
  cbv zeta. split; [reflexivity|]. split; [reflexivity|]. split; [reflexivity|].
  split; [vm_compute; lia|].
  exact (proj2 (play_without_loop_stops_on_last_word ascii_LN (demo_app 0 false) eq_refl eq_refl
                  eq_refl ltac:(vm_compute; lia))).
Defined.

(** With loop enabled, playing never stops: after [k] firings of the timer
    the word at position [(index + k) mod n] is shown, with a timer set to
    its dwell. *)
Theorem play_with_loop_cycles (isLN : char -> bool) (a : App) :
  isPdfMode a = false ->
  (0 < wpm a)%Z -> loopEnabled a = true -> index a < List.length (words a) ->
  forall k,
    let b := Nat.iter k (timerFire isLN) (setPlaying isLN true a) in
    isPlaying b = true /\ index b = (index a + k) mod List.length (words a)
    /\ exists tok, nth_error (words a) ((index a + k) mod List.length (words a)) = Some tok
         /\ timerId b = dwellMsForToken isLN (wpm a) (profileKey a) tok.
Proof.
  intros Hm Hw Hl Hi. set (n := List.length (words a)).
  assert (Hn : n <> 0) by lia.
  assert (Hinv : forall k,
            same_setup a (Nat.iter k (timerFire isLN) (setPlaying isLN true a))
            /\ shows isLN a (Nat.iter k (timerFire isLN) (setPlaying isLN true a))
                 ((index a + k) mod n)).
  { induction k as [|k IH].
    - rewrite Nat.add_0_r, Nat.mod_small by exact Hi. apply (shows_start isLN a Hw Hi Hm). now left.
    - destruct IH as [S1 S2]. cbn [Nat.iter].
      set (j := (index a + k) mod n) in *.
      assert (Hj : j < n) by (apply Nat.mod_upper_bound; exact Hn).
      assert (Ej : (index a + S k) mod n = (S j) mod n).
      { unfold j. replace (index a + S k) with (index a + k + 1) by lia.
        replace (S ((index a + k) mod n)) with ((index a + k) mod n + 1) by lia.
        now rewrite Nat.Div0.add_mod_idemp_l. }
      rewrite Ej.
      destruct (Nat.eq_dec (S j) n) as [E|E].
      + rewrite E, Nat.Div0.mod_same.
        destruct S1 as (S1 & S2' & S3 & S4 & S5). destruct S2 as (P1 & P2 & tok & _ & P3).
        destruct (dwell_some isLN (wpm a) (profileKey a) tok Hw) as [ms Hms]. rewrite Hms in P3.
        set (b := Nat.iter k (timerFire isLN) (setPlaying isLN true a)) in *.
        simpl Nat.iter. fold b.
        rewrite (timerFire_last isLN b ms P3 P1) by (rewrite S1, P2; lia).
        rewrite S4, Hl.
        set (b1 := set_index (with_play b true None) 0).
        assert (Hl1 : loopEnabled b1 = true \/ S (S (index b1)) <= List.length (words b1))
          by (left; simpl; rewrite S4; exact Hl).
        assert (Hi1 : index b1 < List.length (words b1)) by (simpl; rewrite S1; lia).
        assert (Hw1 : (0 < wpm b1)%Z) by (simpl; rewrite S2'; exact Hw).
        assert (Hm1 : isPdfMode b1 = false) by (simpl; rewrite S5; exact Hm).
        destruct (scheduleNext_go isLN b1 Hm1 eq_refl Hw1 Hi1 Hl1) as (tok' & E1 & E2).
        rewrite E2. unfold same_setup, shows. simpl. rewrite S1, S2', S3, S4, S5.
        repeat split; try reflexivity. exists tok'. simpl in E1. rewrite S1 in E1.
        split; [exact E1 | reflexivity].
      + rewrite Nat.mod_small by lia.
        apply (shows_step isLN a Hw Hm _ _ S1 S2); [now left | lia].
  }
  intro k. exact (proj2 (Hinv k)).
Qed.

Lemma play_with_loop_cycles_witness :
  let a := demo_app 2 true in
  isPdfMode a = false /\
  (0 < wpm a)%Z /\ loopEnabled a = true /\ index a < List.length (words a) /\
  let b := Nat.iter 5 (timerFire ascii_LN) (setPlaying ascii_LN true a) in
  isPlaying b = true /\ index b = (index a + 5) mod List.length (words a)
  /\ exists tok, nth_error (words a) ((index a + 5) mod List.length (words a)) = Some tok
       /\ timerId b = dwellMsForToken ascii_LN (wpm a) (profileKey a) tok.
Proof.
  cbv zeta. split; [reflexivity|]. split; [reflexivity|]. split; [reflexivity|].
  split; [vm_compute; lia|].
  exact (play_with_loop_cycles ascii_LN (demo_app 2 true) eq_refl eq_refl eq_refl
           ltac:(vm_compute; lia) 5).
Defined.

Lemma scheduleNext_fields (isLN : char -> bool) (b : App) :
  let b' := scheduleNext isLN b in
  wpm b' = wpm b /\ profileKey b' = profileKey b /\ words b' = words b
  /\ index b' = index b /\ loopEnabled b' = loopEnabled b.
Proof.
  unfold scheduleNext. destruct (negb (isPlaying b)); [repeat split; reflexivity|].
  destruct (pdf_wait b); [repeat split; reflexivity|].
  case_ifs; try (repeat split; reflexivity).
  destruct (nth_error _ _); [|repeat split; reflexivity].
  destruct (dwellMsForToken _ _ _ _); repeat split; reflexivity.
Qed.

(** [applyWpm] keeps an integer rate within [[50, 1500]], and while
    playing a text the pending timer is replaced at once by one at the new
    rate. *)
Theorem applyWpm_clamps_and_restarts (isLN : char -> bool) (v : Z) (a : App) :
  let a' := applyWpm isLN v a in
  (50 <= wpm a' <= 1500)%Z /\ ((50 <= v <= 1500)%Z -> wpm a' = v)
  /\ words a' = words a /\ index a' = index a /\ profileKey a' = profileKey a
  /\ (isPlaying a = false -> a' = set_wpm a (wpm a'))
  /\ (isPlaying a = true -> isPdfMode a = false -> index a < List.length (words a) ->
      (loopEnabled a = true \/ S (S (index a)) <= List.length (words a)) ->
      isPlaying a' = true
      /\ exists tok, nth_error (words a) (index a) = Some tok
           /\ timerId a' = dwellMsForToken isLN (wpm a') (profileKey a) tok).
Proof.
  cbv zeta. unfold applyWpm, restartIfPlaying.
  set (a1 := set_wpm a (Z.max 50 (Z.min 1500 v))).
  assert (Hw1 : wpm a1 = Z.max 50 (Z.min 1500 v)) by reflexivity.
  assert (Hp1 : isPlaying a1 = isPlaying a) by reflexivity.
  rewrite Hp1. destruct (isPlaying a) eqn:Hp; simpl negb; cbv iota.
  - destruct (scheduleNext_fields isLN (stopLoop a1)) as (F1 & F2 & F3 & F4 & F5).
    rewrite F1, F2, F3, F4. simpl. split; [lia|]. split; [intros; lia|].
    split; [reflexivity|]. split; [reflexivity|]. split; [reflexivity|].
    split; [discriminate|].
    intros _ Hm Hi Hl.
      assert (Hw2 : (0 < wpm (stopLoop a1))%Z) by (simpl; lia).
      destruct (scheduleNext_go isLN (stopLoop a1) Hm Hp Hw2 Hi Hl) as (tok & E1 & E2).
      rewrite E2. split; [reflexivity|]. exists tok. split; [exact E1 | reflexivity].
  - simpl. split; [lia|]. split; [intros; lia|].
    repeat split; try reflexivity; discriminate.
Qed.

Lemma applyWpm_clamps_and_restarts_witness :
  let a' := applyWpm ascii_LN 5000 (demo_app 0 false) in
  (50 <= wpm a' <= 1500)%Z /\ wpm a' = 1500%Z.
Proof.
  cbv zeta.
  destruct (applyWpm_clamps_and_restarts ascii_LN 5000 (demo_app 0 false)) as (H1 & _).
  split; [exact H1 | reflexivity].
Defined.

Lemma tokenize_nonempty (isLN isS : char -> bool) (s : text) :
  1 <= List.length (tokenize isLN isS s).
Proof. unfold tokenize. destruct (tokenizePage isLN isS s); simpl; lia. Qed.

(** [setText] shows the first word of the new text and starts playing;
    a text of a single token (loop off) is shown but not played. *)
Theorem setText_shows_first_word (isLN isS : char -> bool) (s : text) (a : App) :
  (0 < wpm a)%Z ->
  let a' := setText isLN isS s a in
  words a' = tokenize isLN isS s /\ index a' = 0
  /\ ((loopEnabled a = true \/ 2 <= List.length (tokenize isLN isS s)) ->
      isPlaying a' = true
      /\ exists tok, hd_error (tokenize isLN isS s) = Some tok
           /\ timerId a' = dwellMsForToken isLN (wpm a) (profileKey a) tok)
  /\ (loopEnabled a = false -> List.length (tokenize isLN isS s) = 1 ->
      isPlaying a' = false /\ timerId a' = None).
Proof.
  intro Hw. cbv zeta. unfold setText.
  pose proof (tokenize_nonempty isLN isS s) as Hn.
  set (ws := tokenize isLN isS s) in *.
  set (a1 := advanceTo (set_words (set_pdf a false None (pdfWaits a)) ws) 0).
  assert (Hm1 : isPdfMode (with_play a1 true None) = false) by reflexivity.
  assert (Hi1 : index a1 = 0) by (unfold a1; rewrite advanceTo_index; simpl; lia).
  assert (Hw1 : (0 < wpm a1)%Z) by exact Hw.
  rewrite setPlaying_true by exact Hw1.
  destruct (scheduleNext_fields isLN (with_play a1 true None)) as (F1 & F2 & F3 & F4 & F5).
  assert (Hws : words a1 = ws) by reflexivity.
  rewrite F3, F4. split; [exact Hws|]. split; [exact Hi1|]. split.
  - intro Hl.
    assert (Hl' : loopEnabled (with_play a1 true None) = true
                  \/ S (S (index (with_play a1 true None)))
                     <= List.length (words (with_play a1 true None)))
      by (cbn [with_play loopEnabled index words]; rewrite Hi1, Hws; exact Hl).
    assert (Hi' : index (with_play a1 true None) < List.length (words (with_play a1 true None)))
      by (cbn [with_play index words]; rewrite Hi1, Hws; exact Hn).
    destruct (scheduleNext_go isLN (with_play a1 true None) Hm1 eq_refl Hw1 Hi' Hl')
      as (tok & E1 & E2).
    rewrite E2. split; [reflexivity|]. exists tok. cbn [with_play index words] in E1.
    rewrite Hi1, Hws in E1.
    split; [|reflexivity]. destruct ws; [discriminate | exact E1].
  - intros Hl H1.
    rewrite scheduleNext_stop by (try exact Hm1; cbn [with_play isPlaying loopEnabled index words];
                                  try reflexivity; try exact Hl; rewrite Hi1, Hws; lia).
    split; reflexivity.
Qed.

Lemma setText_shows_first_word_witness :
  let a' := setText ascii_LN ascii_S (of_string "Hello") (demo_app 0 false) in
  (0 < wpm (demo_app 0 false))%Z /\ isPlaying a' = false /\ timerId a' = None.
Proof.
  cbv zeta. split; [reflexivity|].
  destruct (setText_shows_first_word ascii_LN ascii_S (of_string "Hello") (demo_app 0 false)
              eq_refl) as (_ & _ & _ & H).
  apply H; reflexivity.
Defined.


(** ** PDF loader: page numbers, [needsMoreContent] and sequential loads *)

Lemma in_map_set_keys {A} (k n : nat) (v : A) (L : list (nat * A)) :
  In k (map fst (map_set n v L)) -> k = n \/ In k (map fst L).
Proof.
  induction L as [|[k' v'] L IH]; simpl.
  - intros [<-|[]]. now left.
  - destruct (Nat.eqb_spec n k'); simpl.
    + intros [<-|H]; [now left | right; now right].
    + intros [<-|H]; [right; now left|]. destruct (IH H) as [E|E]; [now left | right; now right].
Qed.

Lemma in_remove_fetch (n m : nat) (f : list (nat * nat)) :
  In m (map snd (remove_fetch n f)) -> In m (map snd f).
Proof.
  induction f as [|[c k] r IH]; simpl; [tauto|].
  destruct (Nat.eqb n k); simpl; [tauto|]. intros [<-|H]; [now left | right; exact (IH H)].
Qed.

Section Bounds.

Variable isLN isS : char -> bool.

Lemma total_exec (st : Loader) (e : event) :
  totalPages (exec isLN isS st e) = totalPages st.
Proof.
  destruct e; simpl;
    unfold loadPage, fetchSucceeded, fetchFailed, pollTick, waitForContent,
      startBackgroundLoading, backgroundTimer, loadNextPageInBackground, loadPage, set_pages;
    repeat (match goal with |- context [match ?x with _ => _ end] => destruct x end);
    unfold settle, add_result, set_background, set_pollers, set_loading, set_waiters,
      resolveWaiters;
    repeat (match goal with |- context [if ?x then _ else _] => destruct x end); reflexivity.
Qed.

Lemma Bnd_loadPage (c n : nat) (st : Loader) : Bnd st -> Bnd (loadPage c n st).
Proof.
  intros [B1 B2]. unfold loadPage.
  destruct (Nat.ltb n 1 || Nat.ltb (totalPages st) n) eqn:Er.
  { unfold settle, add_result, set_background. destruct (Nat.eqb c bg_caller); split; assumption. }
  destruct (lookup n (loadedPages st)).
  { unfold settle, add_result, set_background. destruct (Nat.eqb c bg_caller); split; assumption. }
  destruct (existsb _ _); [split; assumption|].
  apply orb_false_iff in Er as [_ Er]. apply Nat.ltb_ge in Er.
  split; [exact B1|]. simpl. rewrite map_app. apply Forall_app. split; [exact B2|].
  simpl. constructor; [exact Er | constructor].
Qed.

Lemma Bnd_exec (st : Loader) (e : event) : Bnd st -> Bnd (exec isLN isS st e).
Proof.
  intro HB. pose proof (total_exec st e) as Et.
  destruct HB as [B1 B2]. destruct e as [c n|n t|n|c|w| |]; simpl in Et |- *.
  - now apply Bnd_loadPage.
  - destruct (find_fetch n (fetches st)) as [c|] eqn:Hf;
      [|unfold fetchSucceeded; rewrite Hf; split; assumption].
    destruct (fetchSucceeded_fields isLN isS n t st c Hf) as (E1 & _ & E3 & _).
    simpl in Et. unfold Bnd. rewrite Et, E1, E3. split.
    + apply Forall_forall. intros k Hk. apply in_map_set_keys in Hk as [->|Hk].
      * apply find_fetch_in in Hf. exact (proj1 (Forall_forall _ _) B2 n Hf).
      * exact (proj1 (Forall_forall _ _) B1 k Hk).
    + apply Forall_forall. intros k Hk. apply in_remove_fetch in Hk.
      exact (proj1 (Forall_forall _ _) B2 k Hk).
  - destruct (find_fetch n (fetches st)) as [c|] eqn:Hf;
      [|unfold fetchFailed; rewrite Hf; split; assumption].
    destruct (fetchFailed_fields n st c Hf) as (E & _).
    unfold core in E. injection E as E1 _ E3 _ _ _.
    unfold Bnd. rewrite Et, E1, E3. split; [exact B1|].
    apply Forall_forall. intros k Hk. apply in_remove_fetch in Hk.
    exact (proj1 (Forall_forall _ _) B2 k Hk).
  - unfold pollTick. destruct (lookup c (pollers st)) as [n|]; [|split; assumption].
    destruct (lookup n (loadedPages st)); [|split; assumption].
    unfold settle, add_result, set_background, set_pollers.
    destruct (Nat.eqb c bg_caller); split; assumption.
  - unfold waitForContent. destruct (_ || _); split; assumption.
  - unfold startBackgroundLoading. destruct (_ || _); [split; assumption|].
    unfold loadNextPageInBackground. simpl.
    destruct (Nat.ltb (totalPages st) (nextPageToLoad st)); [split; assumption|].
    apply Bnd_loadPage. split; assumption.
  - unfold backgroundTimer. destruct (bgTimer st); [|split; assumption].
    unfold loadNextPageInBackground. simpl.
    destruct (isBackgroundLoading st); simpl; [|split; assumption].
    destruct (Nat.ltb (totalPages st) (nextPageToLoad st)); [split; assumption|].
    apply Bnd_loadPage. split; assumption.
Qed.

Lemma Bnd_reachable (st : Loader) : reachable isLN isS st -> Bnd st.
Proof.
  intros [total [evs ->]]. unfold run.
  assert (H0 : Bnd (init total)) by (split; constructor).
  revert H0. generalize (init total). induction evs as [|e evs IH]; intros s Hs; simpl; [exact Hs|].
  apply IH. now apply Bnd_exec.
Qed.

End Bounds.

Lemma pages_missing_iff {A} (L : list (nat * A)) (total : nat) :
  NoDup (map fst L) -> Forall (le 1) (map fst L) -> Forall (fun n => n <= total) (map fst L) ->
  (List.length L < total <-> exists n, 1 <= n <= total /\ lookup n L = None).
Proof.
  intros Hnd H1 H2. rewrite <- (length_map fst L). split.
  - intro Hlt.
    destruct (existsb (fun n => match lookup n L with None => true | Some _ => false end)
                (seq 1 total)) eqn:Ex.
    + apply existsb_exists in Ex as [n [Hn Hl]]. apply in_seq in Hn.
      exists n. split; [lia|]. destruct (lookup n L); [discriminate | reflexivity].
    + exfalso.
      assert (Hinc : incl (seq 1 total) (map fst L)).
      { intros n Hn. destruct (lookup n L) eqn:Hl.
        - exact (lookup_in_keys n L a Hl).
        - assert (existsb (fun n => match lookup n L with None => true | Some _ => false end)
                    (seq 1 total) = true) as Ht
            by (apply existsb_exists; exists n; now rewrite Hl).
          congruence. }
      pose proof (NoDup_incl_length (seq_NoDup total 1) Hinc) as Hle.
      rewrite length_seq in Hle. lia.
  - intros [n [Hn Hl]]. apply lookup_None_not_in in Hl.
    assert (Hinc : incl (map fst L) (remove Nat.eq_dec n (seq 1 total))).
    { intros k Hk. apply in_in_remove; [intros ->; contradiction|].
      apply in_seq. split.
      - exact (proj1 (Forall_forall _ _) H1 k Hk).
      - pose proof (proj1 (Forall_forall _ _) H2 k Hk). simpl in *. lia. }
    pose proof (NoDup_incl_length Hnd Hinc) as Hle.
    assert (Hr : In n (seq 1 total)) by (apply in_seq; lia).
    pose proof (remove_length_lt Nat.eq_dec (seq 1 total) n Hr) as Hlt.
    rewrite length_seq in Hlt. lia.
Qed.

(** [needsMoreContent(i)] holds exactly when some page in [1 .. totalPages]
    is not loaded yet and [i] is within the last ten words loaded. *)
Theorem needsMoreContent_spec (isLN isS : char -> bool) (st : Loader) (i : Z) :
  reachable isLN isS st ->
  (needsMoreContent st i = true <->
     (exists n, 1 <= n <= totalPages st /\ lookup n (loadedPages st) = None)
     /\ (Z.of_nat (List.length (allWords st)) - 10 <= i)%Z).
Proof.
  intro Hr. pose proof (Inv_reachable isLN isS st Hr) as (Hnd & H1 & _).
  destruct (Bnd_reachable isLN isS st Hr) as [H2 _].
  rewrite <- (pages_missing_iff (loadedPages st) (totalPages st) Hnd H1 H2).
  unfold needsMoreContent. rewrite andb_true_iff, Nat.ltb_lt, Z.leb_le. reflexivity.
Qed.

Lemma needsMoreContent_spec_witness :
  let st := run ascii_LN ascii_S (init 3) [LoadPage 1 1; FetchOk 1 (of_string "a b")] in
  reachable ascii_LN ascii_S st /\
  (needsMoreContent st 0 = true <->
     (exists n, 1 <= n <= totalPages st /\ lookup n (loadedPages st) = None)
     /\ (Z.of_nat (List.length (allWords st)) - 10 <= 0)%Z).
Proof.
  intro st. split.
  - exists 3, [LoadPage 1 1; FetchOk 1 (of_string "a b")]. reflexivity.
  - apply (needsMoreContent_spec ascii_LN ascii_S).
    exists 3, [LoadPage 1 1; FetchOk 1 (of_string "a b")]. reflexivity.
Defined.

Section Steps.

Variable isLN isS : char -> bool.

Lemma loadPage_fresh (c i : nat) (st : Loader) :
  1 <= i <= totalPages st -> lookup i (loadedPages st) = None -> loadingPages st = [] ->
  lview (loadPage c i st) =
  (totalPages st, loadedPages st, [i], fetches st ++ [(c, i)],
   nextPageToLoad st, isBackgroundLoading st, allPagesLoaded st, bgTimer st).
Proof.
  intros Hi Hl Hg. unfold loadPage.
  replace (Nat.ltb i 1 || Nat.ltb (totalPages st) i) with false
    by (symmetry; apply orb_false_iff; split; apply Nat.ltb_ge; lia).
  rewrite Hl, Hg. reflexivity.
Qed.

Lemma fetchSucceeded_single (c i : nat) (t : text) (st : Loader) :
  loadingPages st = [i] -> fetches st = [(c, i)] -> lookup i (loadedPages st) = None ->
  lview (fetchSucceeded isLN isS i t st) =
  (totalPages st, loadedPages st ++ [(i, mkPageData t (tokenizePage isLN isS t))], [], [],
   (if Nat.eqb c bg_caller then S (nextPageToLoad st) else nextPageToLoad st),
   isBackgroundLoading st, allPagesLoaded st,
   (if Nat.eqb c bg_caller then true else bgTimer st)).
Proof.
  intros Hg Hf Hl. unfold fetchSucceeded. rewrite Hf. simpl find_fetch. rewrite Nat.eqb_refl.
  rewrite <- (map_set_new i _ _ (lookup_None_not_in _ _ Hl)).
  unfold set_pages. destruct (rebuildAggregatedContent _) as [[x y] z].
  unfold settle, add_result, resolveWaiters, set_waiters, set_loading, set_background.
  simpl. rewrite Hg, Hf. simpl. rewrite Nat.eqb_refl. simpl.
  destruct (Nat.eqb c bg_caller); reflexivity.
Qed.

Lemma fetchFailed_single (c i : nat) (st : Loader) :
  loadingPages st = [i] -> fetches st = [(c, i)] ->
  lview (fetchFailed i st) =
  (totalPages st, loadedPages st, [], [],
   (if Nat.eqb c bg_caller then S (nextPageToLoad st) else nextPageToLoad st),
   isBackgroundLoading st, allPagesLoaded st,
   (if Nat.eqb c bg_caller then true else bgTimer st)).
Proof.
  intros Hg Hf. unfold fetchFailed. rewrite Hf. simpl find_fetch. rewrite Nat.eqb_refl.
  unfold settle, add_result, set_loading, set_background.
  simpl. rewrite Hg. simpl. rewrite Nat.eqb_refl. simpl.
  destruct (Nat.eqb c bg_caller); reflexivity.
Qed.

End Steps.

Section SeqLemmas.

Variable isLN isS : char -> bool.
Variable out : nat -> option text.

Lemma loaded_of_snoc (m : nat) :
  loaded_of isLN isS out (seq 1 (S m)) =
  loaded_of isLN isS out (seq 1 m)
  ++ match out (S m) with
     | Some t => [(S m, mkPageData t (tokenizePage isLN isS t))]
     | None => []
     end.
Proof.
  rewrite seq_S. unfold loaded_of. rewrite flat_map_app. simpl. now rewrite app_nil_r.
Qed.

Lemma keys_loaded_of (l : list nat) (k : nat) :
  In k (map fst (loaded_of isLN isS out l)) -> In k l.
Proof.
  induction l as [|a l IH]; simpl; [tauto|].
  destruct (out a); simpl; [intros [<-|H]; [now left | right; exact (IH H)]|].
  intro H. right. exact (IH H).
Qed.

Lemma lookup_loaded_of_next (m : nat) :
  lookup (S m) (loaded_of isLN isS out (seq 1 m)) = None.
Proof.
  apply lookup_not_in_keys. intro H. apply keys_loaded_of, in_seq in H. lia.
Qed.

Lemma loadSeq_fresh (c len m : nat) (st : Loader) :
  c <> bg_caller -> m + len <= totalPages st ->
  loadingPages st = [] -> fetches st = [] ->
  loadedPages st = loaded_of isLN isS out (seq 1 m) ->
  let r := loadSeq isLN isS c out (seq (S m) len) st in
  match find (fetch_fails out) (seq (S m) len) with
  | None =>
      snd r = SeqDone /\
      lview (fst r) = (totalPages st, loaded_of isLN isS out (seq 1 (m + len)), [], [],
                       nextPageToLoad st, isBackgroundLoading st, allPagesLoaded st, bgTimer st)
  | Some f =>
      snd r = SeqThrew /\
      lview (fst r) = (totalPages st, loaded_of isLN isS out (seq 1 (f - 1)), [], [],
                       nextPageToLoad st, isBackgroundLoading st, allPagesLoaded st, bgTimer st)
  end.
Proof.
  intro Hc. apply Nat.eqb_neq in Hc.
  revert m st. induction len as [|len IH]; intros m st Hle Hg Hf HL r.
  - simpl. split; [reflexivity|]. unfold lview. simpl. rewrite Hg, Hf, HL, Nat.add_0_r.
    reflexivity.
  - subst r. simpl seq. simpl loadSeq.
    assert (Hlk : lookup (S m) (loadedPages st) = None)
      by (rewrite HL; apply lookup_loaded_of_next).
    pose proof (loadPage_fresh c (S m) st ltac:(lia) Hlk Hg) as E1.
    set (st1 := loadPage c (S m) st) in *.
    unfold lview in E1. injection E1 as T1 L1 G1 F1 N1 B1 A1 M1.
    rewrite (proj2 (Nat.ltb_ge (totalPages st) (S m)) ltac:(lia)). simpl orb.
    rewrite Hlk, Hg. simpl existsb. cbv iota.
    simpl find. unfold fetch_fails at 1.
    rewrite Hf in F1. simpl in F1.
    destruct (out (S m)) as [t|] eqn:Ho.
    + pose proof (fetchSucceeded_single isLN isS c (S m) t st1 G1 F1
                    ltac:(rewrite L1; exact Hlk)) as E2.
      set (st2 := fetchSucceeded isLN isS (S m) t st1) in *.
      rewrite Hc in E2. unfold lview in E2. injection E2 as T2 L2 G2 F2 N2 B2 A2 M2.
      assert (HL2 : loadedPages st2 = loaded_of isLN isS out (seq 1 (S m)))
        by (rewrite L2, L1, HL, loaded_of_snoc, Ho; reflexivity).
      specialize (IH (S m) st2 ltac:(rewrite T2, T1; lia) G2 F2 HL2). cbv zeta in IH.
      rewrite T2, T1, N2, N1, B2, B1, A2, A1, M2, M1 in IH.
      replace (S m + len) with (m + S len) in IH by lia. exact IH.
    + simpl. split; [reflexivity|].
      pose proof (fetchFailed_single c (S m) st1 G1 F1) as E2. rewrite Hc in E2.
      rewrite E2, T1, L1, N1, B1, A1, M1, HL. simpl. rewrite Nat.sub_0_r. reflexivity.
Qed.

End SeqLemmas.

Section LoadedWords.

Variable isLN isS : char -> bool.
Variable out : nat -> option text.

Lemma lookup_loaded_of (l : list nat) (n : nat) :
  lookup n (loaded_of isLN isS out l) =
  if existsb (Nat.eqb n) l then
    match out n with Some t => Some (mkPageData t (tokenizePage isLN isS t)) | None => None end
  else None.
Proof.
  induction l as [|a l IH]; [reflexivity|]. simpl existsb.
  unfold loaded_of in *. simpl flat_map.
  destruct (out a) as [t|] eqn:Ho; destruct (Nat.eqb_spec n a) as [E|Hne]; simpl.
  - subst a. rewrite Nat.eqb_refl. simpl. now rewrite Ho.
  - apply Nat.eqb_neq in Hne. now rewrite Hne.
  - subst a. rewrite IH, Ho. destruct (existsb _ _); reflexivity.
  - exact IH.
Qed.

Lemma keys_loaded_of_filter (l : list nat) :
  map fst (loaded_of isLN isS out l) = filter (fun n => negb (fetch_fails out n)) l.
Proof.
  induction l as [|a l IH]; [reflexivity|]. unfold loaded_of in *. simpl.
  unfold fetch_fails at 1. destruct (out a); simpl; now rewrite IH.
Qed.

Lemma seq_sorted (s n : nat) : StronglySorted le (seq s n).
Proof.
  revert s. induction n as [|n IH]; intro s; simpl; constructor; [apply IH|].
  apply Forall_forall. intros x Hx. apply in_seq in Hx. lia.
Qed.

Lemma filter_sorted (p : nat -> bool) (l : list nat) :
  StronglySorted le l -> StronglySorted le (filter p l).
Proof.
  induction 1 as [|a l Hs IH Hf]; simpl; [constructor|].
  destruct (p a); [|exact IH]. constructor; [exact IH|].
  apply Forall_forall. intros x Hx. apply filter_In in Hx as [Hx _].
  exact (proj1 (Forall_forall _ _) Hf x Hx).
Qed.

Lemma loaded_words (l : list nat) :
  StronglySorted le l ->
  acc_words (rebuildAggregatedContent (loaded_of isLN isS out l))
  = flat_map (page_tokens isLN isS out) l.
Proof.
  intro Hs. rewrite rebuild_words, keys_loaded_of_filter.
  rewrite (sorted_perm_unique _ _ (sort_nat_sorted _) (filter_sorted _ _ Hs) (sort_nat_perm _)).
  assert (H : forall l', incl l' l ->
            flat_map (page_words (loaded_of isLN isS out l))
              (filter (fun n => negb (fetch_fails out n)) l')
            = flat_map (page_tokens isLN isS out) l').
  { induction l' as [|a l' IH]; intro Hi; [reflexivity|]. simpl.
    unfold fetch_fails at 1.
    assert (Ha : existsb (Nat.eqb a) l = true)
      by (apply existsb_exists; exists a; split; [apply Hi; now left | apply Nat.eqb_refl]).
    destruct (out a) as [t|] eqn:Ho; simpl.
    - unfold page_words at 1. rewrite lookup_loaded_of, Ha, Ho. simpl.
      f_equal; [unfold page_tokens; now rewrite Ho|].
      apply IH. intros x Hx. apply Hi. now right.
    - unfold page_tokens at 1. rewrite Ho. simpl.
      apply IH. intros x Hx. apply Hi. now right. }
  apply H. intros x Hx. exact Hx.
Qed.

End LoadedWords.

Section Background.

Variable isLN isS : char -> bool.
Variable out : nat -> option text.

Lemma loadSeq_Inv (c : nat) (ps : list nat) (st : Loader) :
  Inv st -> Inv (fst (loadSeq isLN isS c out ps st)).
Proof.
  revert st. induction ps as [|a ps IH]; intros st H; [exact H|]. simpl loadSeq.
  pose proof (Inv_exec isLN isS st (LoadPage c a) H) as H1. simpl in H1.
  destruct (_ || _); [now apply IH|].
  destruct (lookup a (loadedPages st)); [now apply IH|].
  destruct (existsb _ _); [exact H1|].
  destruct (out a) as [t|].
  - apply IH. exact (Inv_exec isLN isS _ (FetchOk a t) H1).
  - exact (Inv_exec isLN isS _ (FetchFail a) H1).
Qed.

Lemma find_fails_none (l : list nat) :
  (forall n, In n l -> out n <> None) -> find (fetch_fails out) l = None.
Proof.
  induction l as [|a l IH]; intro H; [reflexivity|]. simpl. unfold fetch_fails at 1.
  destruct (out a) eqn:Ho; [|exfalso; exact (H a (or_introl eq_refl) Ho)].
  apply IH. intros n Hn. apply H. now right.
Qed.

Lemma bg_step (m : nat) (st : Loader) :
  lview st = (totalPages st, loaded_of isLN isS out (seq 1 m), [S m], [(bg_caller, S m)],
              S m, true, false, false) ->
  S m <= totalPages st ->
  let st2 := run isLN isS st [fetch_event out (S m); BackgroundTimer] in
  if Nat.ltb (totalPages st) (S (S m)) then
    lview st2 = (totalPages st, loaded_of isLN isS out (seq 1 (S m)), [], [],
                 S (S m), false, true, false)
  else
    lview st2 = (totalPages st, loaded_of isLN isS out (seq 1 (S m)), [S (S m)],
                 [(bg_caller, S (S m))], S (S m), true, false, false).
Proof.
  intros E Hm. unfold lview in E. injection E as L0 G0 F0 N0 B0 A0 M0.
  assert (Hlk : lookup (S m) (loadedPages st) = None)
    by (rewrite L0; apply lookup_loaded_of_next).
  assert (E1 : lview (exec isLN isS st (fetch_event out (S m))) =
     (totalPages st, loaded_of isLN isS out (seq 1 (S m)), [], [], S (S m), true, false, true)).
  { unfold fetch_event. rewrite loaded_of_snoc. destruct (out (S m)) as [t|]; simpl.
    - rewrite (fetchSucceeded_single isLN isS bg_caller (S m) t st G0 F0 Hlk).
      now rewrite L0, N0, B0, A0.
    - rewrite (fetchFailed_single bg_caller (S m) st G0 F0).
      now rewrite L0, N0, B0, A0, app_nil_r. }
  set (st1 := exec isLN isS st (fetch_event out (S m))) in *.
  unfold lview in E1. injection E1 as T1 L1 G1 F1 N1 B1 A1 M1.
  intro st2. subst st2. unfold run. simpl fold_left. fold st1.
  change (exec isLN isS st1 BackgroundTimer) with (backgroundTimer st1).
  unfold backgroundTimer. rewrite M1.
  set (s := set_background st1 (nextPageToLoad st1) (isBackgroundLoading st1)
              (allPagesLoaded st1) false).
  assert (Sb : isBackgroundLoading s = true) by exact B1.
  assert (Sn : nextPageToLoad s = S (S m)) by exact N1.
  assert (St : totalPages s = totalPages st) by exact T1.
  assert (Sl : loadedPages s = loaded_of isLN isS out (seq 1 (S m))) by exact L1.
  assert (Sg : loadingPages s = []) by exact G1.
  assert (Sf : fetches s = []) by exact F1.
  unfold loadNextPageInBackground. rewrite Sb, Sn, St. simpl negb. cbv iota.
  destruct (Nat.ltb (totalPages st) (S (S m))) eqn:Hlt.
  - unfold lview, set_background. cbn [totalPages loadedPages loadingPages fetches
      nextPageToLoad isBackgroundLoading allPagesLoaded bgTimer].
    now rewrite St, Sl, Sg, Sf.
  - apply Nat.ltb_ge in Hlt.
    assert (Hs : lookup (S (S m)) (loadedPages s) = None)
      by (rewrite Sl; apply lookup_loaded_of_next).
    rewrite (loadPage_fresh bg_caller (S (S m)) s ltac:(rewrite St; lia) Hs Sg).
    rewrite St, Sl, Sf, Sn, Sb. change (allPagesLoaded s) with (allPagesLoaded st1).
    now rewrite A1.
Qed.

Lemma bg_cycle_run (len m : nat) (st : Loader) :
  lview st = (totalPages st, loaded_of isLN isS out (seq 1 m), [S m], [(bg_caller, S m)],
              S m, true, false, false) ->
  m + S len = totalPages st ->
  lview (run isLN isS st (bg_cycle out (seq (S m) (S len)))) =
  (totalPages st, loaded_of isLN isS out (seq 1 (totalPages st)), [], [],
   S (totalPages st), false, true, false).
Proof.
  revert m st. induction len as [|len IH]; intros m st E Hm.
  - pose proof (bg_step m st E ltac:(lia)) as H. cbv zeta in H.
    rewrite (proj2 (Nat.ltb_lt (totalPages st) (S (S m))) ltac:(lia)) in H.
    change (bg_cycle out (seq (S m) 1)) with [fetch_event out (S m); BackgroundTimer].
    rewrite H. replace (totalPages st) with (S m) by lia. reflexivity.
  - pose proof (bg_step m st E ltac:(lia)) as H. cbv zeta in H.
    rewrite (proj2 (Nat.ltb_ge (totalPages st) (S (S m))) ltac:(lia)) in H.
    set (st2 := run isLN isS st [fetch_event out (S m); BackgroundTimer]) in H.
    assert (T2 : totalPages st2 = totalPages st) by (unfold lview in H; congruence).
    assert (E2 : lview st2 = (totalPages st2, loaded_of isLN isS out (seq 1 (S m)),
                              [S (S m)], [(bg_caller, S (S m))], S (S m), true, false, false))
      by (rewrite T2; exact H).
    specialize (IH (S m) st2 E2 ltac:(lia)). rewrite T2 in IH.
    replace (run isLN isS st (bg_cycle out (seq (S m) (S (S len)))))
      with (run isLN isS st2 (bg_cycle out (seq (S (S m)) (S len)))); [exact IH|].
    reflexivity.
Qed.

End Background.

Lemma Inv_set_background (st : Loader) (next : nat) (bg all timer : bool) :
  Inv st -> Inv (set_background st next bg all timer).
Proof. apply Inv_core. reflexivity. Qed.

Lemma words_of_view (isLN isS : char -> bool) (out : nat -> option text) (st : Loader) (k : nat) :
  Inv st -> loadedPages st = loaded_of isLN isS out (seq 1 k) ->
  allWords st = flat_map (page_tokens isLN isS out) (seq 1 k).
Proof.
  intros HI HL. rewrite (Inv_allWords st HI), HL. apply loaded_words, seq_sorted.
Qed.

(** Quick start on a fresh loader: when the first [min(count, totalPages)]
    pages load, the words are theirs in page order and [nextPageToLoad] is
    the page after them; the background cycle started next visits every
    remaining page once, skips a page whose fetch throws, and ends with the
    words of all loaded pages in page order and [allPagesLoaded] set, even
    if some page failed. *)
Theorem quickstart_then_background (isLN isS : char -> bool) (out : nat -> option text)
    (total count c : nat) :
  c <> bg_caller ->
  (forall n, 1 <= n <= Nat.min count total -> out n <> None) ->
  let k := Nat.min count total in
  let r := loadInitialPages isLN isS c count out (init total) in
  snd r = SeqDone
  /\ allWords (fst r) = flat_map (page_tokens isLN isS out) (seq 1 k)
  /\ nextPageToLoad (fst r) = S k
  /\ let st := run isLN isS (fst r) (StartBackground :: bg_cycle out (seq (S k) (total - k))) in
     allWords st = flat_map (page_tokens isLN isS out) (seq 1 total)
     /\ allPagesLoaded st = true /\ isBackgroundLoading st = false
     /\ loadingPages st = [] /\ nextPageToLoad st = S total.
Proof.
  intros Hc Hok k r.
  pose proof (loadSeq_fresh isLN isS out c k 0 (init total) Hc
                ltac:(simpl; subst k; lia) eq_refl eq_refl eq_refl) as H.
  cbv zeta in H.
  rewrite (find_fails_none out (seq 1 k)) in H
    by (intros n Hn; apply in_seq in Hn; apply Hok; subst k; lia).
  destruct H as [Hd Hv].
  pose proof (loadSeq_Inv isLN isS out c (seq 1 k) (init total) (Inv_init total)) as HI0.
  unfold r, loadInitialPages. change (totalPages (init total)) with total. fold k.
  destruct (loadSeq isLN isS c out (seq 1 k) (init total)) as [s0 e0] eqn:Es.
  simpl in Hd. subst e0. simpl in HI0.
  unfold lview in Hv. simpl in Hv. injection Hv as T0 L0 G0 F0 N0 B0 A0 M0.
  set (s1 := set_background s0 (S k) (isBackgroundLoading s0) (allPagesLoaded s0) (bgTimer s0)).
  assert (HI1 : Inv s1) by now apply Inv_set_background.
  simpl fst. simpl snd. fold s1.
  split; [reflexivity|]. split; [exact (words_of_view isLN isS out s1 k HI1 L0)|].
  split; [reflexivity|].
  match goal with |- context [run isLN isS ?a (StartBackground :: ?evs)] =>
    set (st := run isLN isS a (StartBackground :: evs)) end.
  assert (HIst : Inv st) by (apply Inv_run; exact HI1).
  assert (Hfin : loadedPages st = loaded_of isLN isS out (seq 1 total)
                 /\ allPagesLoaded st = true /\ isBackgroundLoading st = false
                 /\ loadingPages st = [] /\ nextPageToLoad st = S total).
  { subst st. unfold run. simpl fold_left.
    change (exec isLN isS s1 StartBackground) with (startBackgroundLoading s1).
    unfold startBackgroundLoading. change (isBackgroundLoading s1) with (isBackgroundLoading s0).
    change (allPagesLoaded s1) with (allPagesLoaded s0). rewrite B0, A0. simpl orb. cbv iota.
    set (s2 := set_background s1 (nextPageToLoad s1) true false (bgTimer s1)).
    unfold loadNextPageInBackground.
    change (isBackgroundLoading s2) with true. change (nextPageToLoad s2) with (S k).
    change (totalPages s2) with (totalPages s0). rewrite T0. simpl negb. cbv iota.
    destruct (Nat.ltb total (S k)) eqn:Hlt.
    - apply Nat.ltb_lt in Hlt. assert (Hk : k = total) by (subst k; lia).
      replace (total - k) with 0 by lia. simpl.
      rewrite <- Hk. repeat split; first [exact L0 | exact G0].
    - apply Nat.ltb_ge in Hlt.
      assert (Hs : lookup (S k) (loadedPages s2) = None)
        by (change (loadedPages s2) with (loadedPages s0); rewrite L0;
            apply lookup_loaded_of_next).
      pose proof (loadPage_fresh bg_caller (S k) s2
                    ltac:(change (totalPages s2) with (totalPages s0); lia) Hs G0) as E3.
      set (s3 := loadPage bg_caller (S k) s2) in *.
      assert (E3' : lview s3 = (totalPages s3, loaded_of isLN isS out (seq 1 k), [S k],
                                [(bg_caller, S k)], S k, true, false, false)).
      { assert (T3 : totalPages s3 = totalPages s2)
          by (unfold lview in E3; injection E3 as T3 _; exact T3).
        rewrite E3, T3.
        change (loadedPages s2) with (loadedPages s0). change (fetches s2) with (fetches s0).
        change (bgTimer s2) with (bgTimer s0). change (nextPageToLoad s2) with (S k).
        change (isBackgroundLoading s2) with true. change (allPagesLoaded s2) with false.
        rewrite L0, F0, M0. reflexivity. }
      destruct (total - k) as [|len] eqn:Hlen; [lia|].
      assert (T3 : totalPages s3 = total)
        by (unfold lview in E3; injection E3 as T3 _; rewrite T3; exact T0).
      pose proof (bg_cycle_run isLN isS out len k s3 E3' ltac:(lia)) as Hrun.
      unfold run in Hrun. rewrite T3 in Hrun. unfold lview in Hrun.
      injection Hrun as _ L4 G4 _ N4 B4 A4 _. repeat split; assumption. }
  destruct Hfin as (L5 & A5 & B5 & G5 & N5).
  repeat split; try assumption. exact (words_of_view isLN isS out st total HIst L5).
Qed.

(** [loadAllPdfPages] on a fresh loader: when every fetch succeeds it ends
    with the words of all pages in page order and [allPagesLoaded] set; at
    the first page whose fetch throws it stops with the exception, holding
    only the pages before it, and [allPagesLoaded] stays false. *)
Theorem loadAllPdfPages_stops_at_failure (isLN isS : char -> bool) (out : nat -> option text)
    (total c : nat) :
  c <> bg_caller ->
  let r := loadAllPdfPages isLN isS c out (init total) in
  match find (fetch_fails out) (seq 1 total) with
  | None =>
      snd r = SeqDone /\ allPagesLoaded (fst r) = true
      /\ allWords (fst r) = flat_map (page_tokens isLN isS out) (seq 1 total)
  | Some f =>
      snd r = SeqThrew /\ allPagesLoaded (fst r) = false
      /\ allWords (fst r) = flat_map (page_tokens isLN isS out) (seq 1 (f - 1))
      /\ loadingPages (fst r) = []
  end.
Proof.
  intros Hc r.
  pose proof (loadSeq_fresh isLN isS out c total 0 (init total) Hc
                ltac:(simpl; lia) eq_refl eq_refl eq_refl) as H.
  cbv zeta in H.
  pose proof (loadSeq_Inv isLN isS out c (seq 1 total) (init total) (Inv_init total)) as HI0.
  unfold r, loadAllPdfPages. change (totalPages (init total)) with total.
  destruct (loadSeq isLN isS c out (seq 1 total) (init total)) as [s0 e0] eqn:Es.
  simpl in HI0. simpl seq in H.
  destruct (find (fetch_fails out) (seq 1 total)) as [f|];
    destruct H as [Hd Hv]; simpl in Hd; subst e0;
    unfold lview in Hv; simpl in Hv; injection Hv as T0 L0 G0 F0 N0 B0 A0 M0.
  - repeat split; [exact A0 | | exact G0].
    exact (words_of_view isLN isS out s0 (f - 1) HI0 L0).
  - repeat split.
    exact (words_of_view isLN isS out _ total (Inv_set_background _ _ _ _ _ HI0) L0).
Qed.

Lemma loadAllPdfPages_stops_at_failure_witness :
  let out := fun n => if Nat.eqb n 2 then None else Some (of_string "Page text.") in
  find (fetch_fails out) (seq 1 3) = Some 2 /\
  snd (loadAllPdfPages ascii_LN ascii_S 1 out (init 3)) = SeqThrew /\
  allPagesLoaded (fst (loadAllPdfPages ascii_LN ascii_S 1 out (init 3))) = false.
Proof.
  intro out.
  pose proof (loadAllPdfPages_stops_at_failure ascii_LN ascii_S out 3 1 ltac:(discriminate))
    as H.
  cbv zeta in H. change (find (fetch_fails out) (seq 1 3)) with (Some 2) in H.
  split; [reflexivity|]. split; [exact (proj1 H) | exact (proj1 (proj2 H))].
Defined.

Lemma quickstart_then_background_witness :
  let out := fun n => if Nat.eqb n 5 then None else Some (of_string "Page text.") in
  let r := loadInitialPages ascii_LN ascii_S 1 3 out (init 6) in
  snd r = SeqDone /\
  allPagesLoaded (run ascii_LN ascii_S (fst r)
                    (StartBackground :: bg_cycle out (seq 4 3))) = true.
Proof.
  intros out r.
  pose proof (quickstart_then_background ascii_LN ascii_S out 6 3 1 ltac:(discriminate)
                ltac:(intros n Hn; simpl in Hn; unfold out;
                      destruct (Nat.eqb_spec n 5); [lia | discriminate])) as H.
  cbv zeta in H. destruct H as (H1 & _ & _ & _ & H2 & _).
  split; [exact H1 | exact H2].
Defined.

(** ** Tokenizer: what a token is made of *)

Lemma firstn_span (f : char -> bool) (s : text) (n : nat) :
  n <= span_len f s -> forall c, In c (firstn n s) -> f c = true.
Proof.
  revert n. induction s as [|a t IH]; intros n Hn c Hc.
  - rewrite firstn_nil in Hc. destruct Hc.
  - destruct n as [|n]; [destruct Hc|]. simpl in Hn, Hc.
    destruct (f a) eqn:Ea; [|lia].
    destruct Hc as [<-|Hc]; [exact Ea|]. exact (IH n ltac:(lia) c Hc).
Qed.

Lemma match_all_nonspace (isLN isS : char -> bool) (fuel : nat) (s : text) :
  classes_ok_words isLN isS ->
  forall t c, In t (match_all isLN isS fuel s) -> In c t -> isS c = false.
Proof.
  intro Hcl. revert s. induction fuel as [|f IH]; intros s t c Ht Hc; simpl in Ht; [destruct Ht|].
  destruct s as [|a r]; [destruct Ht|].
  destruct (match_at isLN isS (a :: r)) as [n|] eqn:E.
  - destruct Ht as [<-|Ht]; [|exact (IH _ t c Ht Hc)].
    destruct (match_at_span isLN isS Hcl _ _ E) as [Hn _].
    pose proof (firstn_span _ _ _ Hn c Hc) as H. unfold nonspace in H.
    destruct (isS c); [discriminate | reflexivity].
  - exact (IH r t c Ht Hc).
Qed.

Lemma strip_prefix_app_r (p l l2 r : text) :
  strip_prefix p l = Some r -> strip_prefix p (l ++ l2) = Some (r ++ l2).
Proof.
  revert l. induction p as [|a p IH]; intros l H; simpl in H |- *.
  - injection H as <-. reflexivity.
  - destruct l as [|c l']; [discriminate|]. simpl.
    destruct (a =? c)%N; [exact (IH l' H) | discriminate].
Qed.

Lemma starts_ci_app (p w t : text) : starts_ci p w = true -> starts_ci p (w ++ t) = true.
Proof.
  unfold starts_ci. rewrite map_app.
  destruct (strip_prefix p (map lower w)) as [r|] eqn:E; [|discriminate].
  now rewrite (strip_prefix_app_r _ _ _ _ E).
Qed.

Lemma isWordLike_app (isLN : char -> bool) (w t : text) :
  isWordLike isLN w = true -> isWordLike isLN (w ++ t) = true.
Proof.
  unfold isWordLike. destruct w as [|c w']; [simpl; discriminate|].
  rewrite !orb_true_iff. intros [[[H|H]|H]|H].
  - left; left; left. exact H.
  - left; left; right. exact (starts_ci_app _ _ _ H).
  - left; right. exact (starts_ci_app _ _ _ H).
  - right. exact (starts_ci_app _ _ _ H).
Qed.

Section GoodTokens.

Variable isLN isS : char -> bool.
Variable G : char -> Prop.

Lemma push_good (out : list token) (t : text) :
  Forall (good_token isLN G) out -> (forall c, In c t -> G c) ->
  Forall (good_token isLN G) (push_token isLN out t).
Proof.
  intros Ho Ht. unfold push_token. destruct (isWordLike isLN t) eqn:Ew.
  - constructor; [split; [exact Ew | exact Ht] | exact Ho].
  - destruct out as [|x r]; [constructor|].
    inversion Ho as [|? ? [Hx1 Hx2] Hr]; subst. constructor; [|exact Hr].
    split; simpl; [exact (isWordLike_app _ _ _ Hx1)|].
    intros c Hc. apply in_app_or in Hc as [Hc|Hc]; [exact (Hx2 c Hc) | exact (Ht c Hc)].
Qed.

Lemma fold_push_good (ts : list text) (out : list token) :
  Forall (good_token isLN G) out -> (forall t c, In t ts -> In c t -> G c) ->
  Forall (good_token isLN G) (fold_left (push_token isLN) ts out).
Proof.
  revert out. induction ts as [|t ts IH]; intros out Ho Hts; simpl; [exact Ho|].
  apply IH; [apply push_good; [exact Ho|] |].
  - intros c Hc. exact (Hts t c (or_introl eq_refl) Hc).
  - intros u c Hu Hc. exact (Hts u c (or_intror Hu) Hc).
Qed.

Lemma mark_last_good (out : list token) :
  Forall (good_token isLN G) out -> Forall (good_token isLN G) (mark_last out).
Proof.
  intro Ho. destruct out as [|x r]; [constructor|].
  inversion Ho as [|? ? Hx Hr]; subst. constructor; [exact Hx | exact Hr].
Qed.

Lemma tok_paras_good (ps : list text) (out : list token) :
  (forall p t c, In p ps -> In t (match_all isLN isS (List.length (trim isS p)) (trim isS p)) ->
     In c t -> G c) ->
  Forall (good_token isLN G) out -> Forall (good_token isLN G) (tok_paras isLN isS ps out).
Proof.
  revert out. induction ps as [|p ps IH]; intros out Hps Ho; simpl; [exact Ho|].
  assert (Hps' : forall q t c, In q ps ->
            In t (match_all isLN isS (List.length (trim isS q)) (trim isS q)) -> In c t -> G c)
    by (intros q t c Hq; exact (Hps q t c (or_intror Hq))).
  destruct (trim isS p) as [|a r] eqn:Et; [exact (IH out Hps' Ho)|].
  apply IH; [exact Hps'|].
  assert (H1 : Forall (good_token isLN G)
                 (fold_left (push_token isLN) (match_all isLN isS (List.length (a :: r)) (a :: r)) out)).
  { apply fold_push_good; [exact Ho|]. intros t c Ht Hc.
    apply (Hps p t c (or_introl eq_refl)); [rewrite Et; exact Ht | exact Hc]. }
  destruct ps; [exact H1 | exact (mark_last_good _ H1)].
Qed.

End GoodTokens.

(** Every token of [tokenizePage] is word-like (it starts with a letter or
    digit, [http://], [https://] or [www.]) and is made only of
    non-white-space characters of the input; [tokenize] outputs exactly the
    tokens of [tokenizePage] when there are any, and otherwise only its
    [" "] fallback. *)
Theorem tokens_are_words_of_input (isLN isS : char -> bool) (s : text) :
  classes_ok_words isLN isS ->
  (forall tok, In tok (tokenizePage isLN isS s) ->
     isWordLike isLN (word tok) = true
     /\ forall c, In c (word tok) -> isS c = false /\ In c s)
  /\ (forall tok, In tok (tokenize isLN isS s) ->
     tok = mkToken [c_sp] false
     \/ (isWordLike isLN (word tok) = true
         /\ forall c, In c (word tok) -> isS c = false /\ In c s))
  /\ ((tokenizePage isLN isS s <> [] /\ tokenize isLN isS s = tokenizePage isLN isS s)
      \/ (tokenizePage isLN isS s = [] /\ tokenize isLN isS s = [mkToken [c_sp] false])).
Proof.
  intro Hcl.
  assert (Hnl : isS c_nl = true) by (destruct Hcl as ((_ & H & _) & _); exact H).
  assert (HP : forall tok, In tok (tokenizePage isLN isS s) ->
     isWordLike isLN (word tok) = true
     /\ forall c, In c (word tok) -> isS c = false /\ In c s).
  { intros tok Htok. unfold tokenizePage in Htok. apply in_rev in Htok.
    assert (HF : Forall (good_token isLN (fun c => isS c = false /\ In c s))
                   (tok_paras isLN isS (split_paras (normalize s)) [])).
    { apply tok_paras_good; [|constructor].
      intros p t c Hp Ht Hc.
      pose proof (match_all_nonspace isLN isS _ _ Hcl t c Ht Hc) as Hns.
      split; [exact Hns|].
      apply (match_all_incl _ _ _ _ _ Ht) in Hc.
      destruct (paragraph_chars isS s p c Hp Hc) as [->|Hc']; [congruence | exact Hc']. }
    exact (proj1 (Forall_forall _ _) HF tok Htok). }
  split; [exact HP|]. split.
  - intros tok Htok. unfold tokenize in Htok.
    destruct (tokenizePage isLN isS s) as [|t0 r] eqn:E.
    + left. destruct Htok as [<-|[]]. reflexivity.
    + right. exact (HP tok Htok).
  - unfold tokenize. destruct (tokenizePage isLN isS s) as [|t0 r].
    + right. split; reflexivity.
    + left. split; [discriminate | reflexivity].
Qed.

Lemma tokens_are_words_of_input_witness :
  let s := of_string "Hi, see www.x.org now." in
  classes_ok_words ascii_LN ascii_S
  /\ In (mkToken (of_string "www.x.org") false) (tokenizePage ascii_LN ascii_S s)
  /\ isWordLike ascii_LN (of_string "www.x.org") = true
  /\ forall c, In c (of_string "www.x.org") -> ascii_S c = false /\ In c s.
Proof.
  intro s. split; [exact ascii_classes_ok_words|].
  assert (Hin : In (mkToken (of_string "www.x.org") false) (tokenizePage ascii_LN ascii_S s))
    by (vm_compute; tauto).
  split; [exact Hin|].
  exact (proj1 (tokens_are_words_of_input ascii_LN ascii_S s ascii_classes_ok_words) _ Hin).
Defined.

(** ** Keyboard *)

(** Keyboard: the arrows step one word while paused and are ignored while
    playing; space pauses, cancelling the pending timer; [r] goes back to
    the first word and, while playing a text, schedules from there as
    [scheduleNext] does: a timer for the first word, or a stop when loop is
    off and the text is a single word. *)
Theorem keyboard_controls (isLN : char -> bool) (a : App) :
  let n := List.length (words a) in
  (isPlaying a = true ->
     handleKeyDown isLN "ArrowLeft" a = a /\ handleKeyDown isLN "ArrowRight" a = a
     /\ (let a' := handleKeyDown isLN " " a in
         isPlaying a' = false /\ timerId a' = None /\ index a' = index a /\ words a' = words a))
  /\ (isPlaying a = false -> index a < n ->
     (let a' := handleKeyDown isLN "ArrowLeft" a in
      index a' = index a - 1 /\ isPlaying a' = false /\ words a' = words a
      /\ timerId a' = timerId a)
     /\ (let a' := handleKeyDown isLN "ArrowRight" a in
         index a' = Nat.min (S (index a)) (n - 1) /\ isPlaying a' = false
         /\ words a' = words a /\ timerId a' = timerId a)
     /\ handleKeyDown isLN "r" a = set_index a 0)
  /\ (isPlaying a = true -> isPdfMode a = false -> (0 < wpm a)%Z -> 0 < n ->
     let a' := handleKeyDown isLN "R" a in
     index a' = 0
     /\ ((loopEnabled a = true \/ 2 <= n) ->
         isPlaying a' = true
         /\ exists tok, hd_error (words a) = Some tok
              /\ timerId a' = dwellMsForToken isLN (wpm a) (profileKey a) tok)
     /\ (loopEnabled a = false -> n = 1 -> isPlaying a' = false /\ timerId a' = None)).
Proof.
  cbv zeta. split; [|split].
  - intro Hp. unfold handleKeyDown. simpl String.eqb. cbv iota. rewrite Hp. simpl negb.
    cbv iota. split; [reflexivity|]. split; [reflexivity|].
    unfold setPlaying. simpl. repeat split; reflexivity.
  - intros Hp Hi. unfold handleKeyDown. simpl String.eqb. cbv iota. rewrite Hp. simpl negb.
    cbv iota. rewrite !advanceTo_index. split; [|split].
    + repeat split; [lia | exact Hp].
    + repeat split; [lia | exact Hp].
    + unfold resetToStart, restartIfPlaying. simpl isPlaying. rewrite Hp. simpl.
      unfold advanceTo. f_equal. lia.
  - intros Hp Hm Hw Hn. unfold handleKeyDown. simpl String.eqb. cbv iota.
    unfold resetToStart, restartIfPlaying. simpl isPlaying. rewrite Hp. simpl negb. cbv iota.
    set (b := stopLoop (advanceTo a 0)). simpl orb. cbv iota.
    assert (Hbi : index b = 0) by (unfold b, stopLoop; simpl; lia).
    assert (Hbw : words b = words a) by reflexivity.
    assert (Hbm : isPdfMode b = false) by exact Hm.
    assert (Hbp : isPlaying b = true) by exact Hp.
    destruct (scheduleNext_fields isLN b) as (_ & _ & _ & F4 & _).
    split; [rewrite F4; exact Hbi|]. split.
    + intro Hl.
      assert (Hl' : loopEnabled b = true \/ S (S (index b)) <= List.length (words b))
        by (rewrite Hbi, Hbw; exact Hl).
      assert (Hi' : index b < List.length (words b)) by (rewrite Hbi, Hbw; exact Hn).
      destruct (scheduleNext_go isLN b Hbm Hbp Hw Hi' Hl') as (tok & E1 & E2).
      rewrite E2. cbn [with_play index isPlaying timerId].
      split; [reflexivity|]. exists tok. rewrite Hbi, Hbw in E1.
      split; [|reflexivity]. destruct (words a); [discriminate | exact E1].
    + intros Hl H1.
      rewrite scheduleNext_stop by (try exact Hbm; try exact Hbp; try exact Hl;
                                    rewrite Hbi, Hbw; lia).
      split; reflexivity.
Qed.

(** ** PDF loader: page numbers in range *)

(** Whatever calls and fetch outcomes occur, the loader only stores and
    fetches pages [1 .. totalPages], stores each page once, and never
    fetches a page it already holds. *)
Theorem loader_pages_in_range (isLN isS : char -> bool) (st : Loader) :
  reachable isLN isS st ->
  (forall n, In n (map fst (loadedPages st)) -> 1 <= n <= totalPages st)
  /\ NoDup (map fst (loadedPages st))
  /\ (forall n, In n (loadingPages st) ->
        1 <= n <= totalPages st /\ ~ In n (map fst (loadedPages st))).
Proof.
  intro Hr. destruct (Inv_reachable isLN isS st Hr) as (Hnd & H1 & _ & H3 & Hlf & Hdis & _).
  destruct (Bnd_reachable isLN isS st Hr) as [B1 B2].
  split; [|split; [exact Hnd|]].
  - intros n Hn. split; [exact (proj1 (Forall_forall _ _) H1 n Hn)|].
    exact (proj1 (Forall_forall _ _) B1 n Hn).
  - intros n Hn. apply Hlf in Hn. split; [split|].
    + exact (proj1 (Forall_forall _ _) H3 n Hn).
    + exact (proj1 (Forall_forall _ _) B2 n Hn).
    + exact (Hdis n Hn).
Qed.

Lemma loader_pages_in_range_witness :
  let evs := [LoadPage 1 1; FetchOk 1 (of_string "a"); LoadPage 2 2; LoadPage 3 9] in
  let st := run ascii_LN ascii_S (init 3) evs in
  reachable ascii_LN ascii_S st
  /\ (forall n, In n (loadingPages st) ->
        1 <= n <= totalPages st /\ ~ In n (map fst (loadedPages st))).
Proof.
  intros evs st. assert (Hr : reachable ascii_LN ascii_S st) by (exists 3, evs; reflexivity).
  split; [exact Hr|]. exact (proj2 (proj2 (loader_pages_in_range ascii_LN ascii_S st Hr))).
Defined.

(** ** The app: the rate and PDF mode *)

Lemma Qle_bool_50 (x : QArith_base.Q) :
  QArith_base.Qle_bool (QArith_base.Qmake 50 1) x = true ->
  QArith_base.Qle_bool x (QArith_base.Qmake 0 1) = false.
Proof.
  intro H. apply QArith_base.Qle_bool_iff in H.
  destruct (QArith_base.Qle_bool x _) eqn:E; [|reflexivity].
  apply QArith_base.Qle_bool_iff in E.
  pose proof (QArith_base.Qle_trans _ _ _ H E) as H'.
  unfold QArith_base.Qle in H'. simpl in H'. lia.
Qed.

Lemma clampWpm_js_not_nonpos (v : jsnum) : js_nonpos (clampWpm_js v) = false.
Proof.
  destruct v as [| | |q]; try reflexivity.
  unfold clampWpm_js, js_nonpos, js_min. cbn [js_le].
  destruct (QArith_base.Qle_bool (QArith_base.Qmake 1500 1) q) eqn:E1.
  - reflexivity.
  - unfold js_max. cbn [js_le].
    destruct (QArith_base.Qle_bool (QArith_base.Qmake 50 1) q) eqn:E2; [|reflexivity].
    cbn [js_le]. apply Qle_bool_50. exact E2.
Qed.

Lemma loadNum_js_not_nonpos (v : jsnum) : js_nonpos (loadNum_js v) = false.
Proof.
  unfold loadNum_js. destruct v as [| | |q]; try reflexivity.
  cbn [js_finite_pos]. destruct (QArith_base.Qle_bool q _) eqn:E; [reflexivity|].
  unfold js_nonpos. cbn [negb js_le]. exact E.
Qed.

Lemma keeps_trans (a b c : App) : keeps a b -> keeps b c -> keeps a c.
Proof. intros (A1 & A2 & A3 & A4) (B1 & B2 & B3 & B4). repeat split; congruence. Qed.

Lemma text_of_keeps (isLN isS : char -> bool) (a b : App) :
  app_text isLN isS a -> keeps a b -> app_text isLN isS b.
Proof.
  intros (H1 & H2 & H3 & s & H4) (K1 & K2 & K3 & K4).
  split; [congruence|]. split; [congruence|]. split; [congruence|]. exists s. congruence.
Qed.

Section TextMode.

Variable isLN : char -> bool.

Lemma scheduleNext_keeps (a : App) : isPdfMode a = false -> keeps a (scheduleNext isLN a).
Proof.
  intro Hm. unfold scheduleNext. rewrite (pdf_wait_text a Hm).
  destruct (negb _); [repeat split|].
  destruct (_ && _); [repeat split|].
  destruct (nth_error _ _); [|repeat split].
  destruct (dwellMsForToken _ _ _ _); repeat split.
Qed.

Lemma setPlaying_keeps (v : bool) (a : App) : isPdfMode a = false -> keeps a (setPlaying isLN v a).
Proof.
  intro Hm. unfold setPlaying.
  assert (K : keeps a (stopLoop (with_play a v (timerId a)))) by (repeat split).
  destruct (v && _); [|exact K].
  apply (keeps_trans _ _ _ K). apply scheduleNext_keeps. exact Hm.
Qed.

Lemma timerFire_keeps (a : App) : isPdfMode a = false -> keeps a (timerFire isLN a).
Proof.
  intro Hm. unfold timerFire. destruct (timerId a); [|repeat split].
  destruct (negb _); [repeat split|].
  destruct (_ <? _)%Z.
  - apply (keeps_trans _ (advanceTo (with_play a (isPlaying a) None)
                            (Z.of_nat (index a) + 1))); [repeat split|].
    apply scheduleNext_keeps. exact Hm.
  - destruct (loopEnabled _).
    + apply (keeps_trans _ (advanceTo (with_play a (isPlaying a) None) 0)); [repeat split|].
      apply scheduleNext_keeps. exact Hm.
    + apply (keeps_trans _ (with_play a (isPlaying a) None)); [repeat split|].
      apply setPlaying_keeps. exact Hm.
Qed.

Lemma restartIfPlaying_keeps (a : App) : isPdfMode a = false -> keeps a (restartIfPlaying isLN a).
Proof.
  intro Hm. unfold restartIfPlaying. destruct (negb _); [repeat split|].
  apply (keeps_trans _ (stopLoop a)); [repeat split|]. apply scheduleNext_keeps. exact Hm.
Qed.

Lemma resetToStart_keeps (a : App) : isPdfMode a = false -> keeps a (resetToStart isLN a).
Proof.
  intro Hm. unfold resetToStart. apply (keeps_trans _ (advanceTo a 0)); [repeat split|].
  apply restartIfPlaying_keeps. exact Hm.
Qed.

Lemma handleKeyDown_keeps (key : string) (a : App) :
  isPdfMode a = false -> keeps a (handleKeyDown isLN key a).
Proof.
  intro Hm. unfold handleKeyDown.
  destruct (String.eqb key " "); [apply setPlaying_keeps; exact Hm|].
  destruct (String.eqb key "ArrowLeft"); [destruct (negb _); repeat split|].
  destruct (String.eqb key "ArrowRight"); [destruct (negb _); repeat split|].
  destruct (_ || _); [apply resetToStart_keeps; exact Hm | repeat split].
Qed.

Lemma applyWpm_text (isS : char -> bool) (v : Z) (a : App) :
  app_text isLN isS a -> app_text isLN isS (applyWpm isLN v a).
Proof.
  intros (H1 & H2 & H3 & s & H4). unfold applyWpm.
  apply (text_of_keeps isLN isS (set_wpm a (Z.max 50 (Z.min 1500 v)))).
  - split; [exact H1|]. split; [exact H2|]. split; [simpl; lia|]. exists s. exact H4.
  - apply restartIfPlaying_keeps. exact H1.
Qed.

End TextMode.

Lemma app_step_text (isLN isS : char -> bool) (e : ui) (a : App) :
  app_text isLN isS a -> app_text isLN isS (app_step isLN isS e a).
Proof.
  intro Ht. pose proof Ht as (Hm & Hw & Hr & s & Hs).
  destruct e as [| | | | | |k| |k|v|t|total|out|out|ev|]; cbn [app_step].
  - apply (text_of_keeps isLN isS (applyWpm isLN (wpm a) a)).
    + apply applyWpm_text. exact Ht.
    + apply setPlaying_keeps. apply (applyWpm_text isLN isS (wpm a) a Ht).
  - apply (text_of_keeps isLN isS a _ Ht). apply timerFire_keeps. exact Hm.
  - apply (text_of_keeps isLN isS a _ Ht). apply setPlaying_keeps. exact Hm.
  - apply (text_of_keeps isLN isS a _ Ht). apply resetToStart_keeps. exact Hm.
  - destruct (isPlaying a); [exact Ht|]. apply (text_of_keeps isLN isS a _ Ht). repeat split.
  - destruct (isPlaying a); [exact Ht|]. apply (text_of_keeps isLN isS a _ Ht). repeat split.
  - apply (text_of_keeps isLN isS a _ Ht). apply handleKeyDown_keeps. exact Hm.
  - apply (text_of_keeps isLN isS a _ Ht). repeat split.
  - destruct (is_profile k); [|exact Ht].
    apply (text_of_keeps isLN isS a _ Ht).
    apply (keeps_trans _ (set_profile a k)); [repeat split|].
    apply restartIfPlaying_keeps. exact Hm.
  - apply applyWpm_text. exact Ht.
  - rewrite Hm. cbn [andb]. unfold applyText. destruct (trim isS t) as [|c r]; [exact Ht|].
    unfold setText.
    set (b := advanceTo (set_words (set_pdf a false None (pdfWaits a)) (tokenize isLN isS (c :: r))) 0).
    apply (text_of_keeps isLN isS b).
    + split; [reflexivity|]. split; [exact Hw|]. split; [exact Hr|]. exists (c :: r). reflexivity.
    + apply setPlaying_keeps. reflexivity.
  - apply (text_of_keeps isLN isS a _ Ht). repeat split.
  - destruct (pdfLoader a) as [ld|]; [|exact Ht]. unfold loader_update. rewrite Hm. cbn [andb].
    apply (text_of_keeps isLN isS a _ Ht). repeat split; cbn; congruence.
  - destruct (pdfLoader a) as [ld|]; [|exact Ht]. unfold loader_update. rewrite Hm. cbn [andb].
    apply (text_of_keeps isLN isS a _ Ht). repeat split; cbn; congruence.
  - destruct (pdfLoader a) as [ld|]; [|exact Ht]. unfold loader_update. rewrite Hm. cbn [andb].
    apply (text_of_keeps isLN isS a _ Ht). repeat split; cbn; congruence.
  - unfold contentReady. destruct (pdfLoader a) as [ld|]; [|exact Ht]. rewrite Hw. exact Ht.
Qed.

Lemma app_run_text (isLN isS : char -> bool) (evs : list ui) :
  forall a, app_text isLN isS a -> app_text isLN isS (app_run isLN isS a evs).
Proof.
  induction evs as [|e evs IH]; intros a Ha; [exact Ha|].
  change (app_run isLN isS a (e :: evs)) with (app_run isLN isS (app_step isLN isS e a) evs).
  apply IH. apply app_step_text. exact Ha.
Qed.

Lemma app_reachable_text (isLN isS : char -> bool) (a : App) :
  app_reachable isLN isS a -> app_text isLN isS a.
Proof.
  intros (wpmS & profileS & loopS & lastText & evs & ->). apply app_run_text.
  split; [reflexivity|]. split; [reflexivity|]. split.
  - unfold boot, loadNum. simpl. destruct wpmS as [v|]; [|lia].
    destruct (Z.ltb_spec 0 v); lia.
  - exists lastText. reflexivity.
Qed.

(** C5: with a rate [<= 0], [baseIntervalMs] and every dwell are [null];
    but no rate [<= 0] ever arises.  [loadNum] keeps a stored rate only when
    it is finite and positive and falls back to 300 otherwise; [applyWpm],
    the only other assignment (also run by [startApp]), clamps into
    [[50, 1500]].  So every state the app reaches has a positive rate, and
    on JavaScript numbers neither assignment stores a value for which
    [wpm <= 0] holds, whatever was stored or typed ([NaN] included). *)
Theorem rate_never_invalid (isLN isS : char -> bool) :
  (forall w, (w <= 0)%Z ->
     baseIntervalMs w = None /\ forall key tok, dwellMsForToken isLN w key tok = None)
  /\ (forall a, app_reachable isLN isS a -> (0 < wpm a)%Z)
  /\ (forall v, js_nonpos (loadNum_js v) = false)
  /\ (forall v, js_nonpos (clampWpm_js v) = false).
Proof.
  split; [|split; [|split]].
  - intros w Hw.
    assert (Hb : baseIntervalMs w = None).
    { unfold baseIntervalMs. destruct (Z.leb_spec w 0); [reflexivity | lia]. }
    split; [exact Hb|]. intros key tok. unfold dwellMsForToken. now rewrite Hb.
  - intros a Ha. exact (proj1 (proj2 (proj2 (app_reachable_text isLN isS a Ha)))).
  - exact loadNum_js_not_nonpos.
  - exact clampWpm_js_not_nonpos.
Qed.

(** PDF mode is never entered: [isPdfMode] is set only by [applyPdfText],
    which the Apply button calls only when [isPdfMode] already holds, and
    [setText] clears it.  So in every state the app reaches [isPdfMode] is
    false, no [waitForContent] promise is pending, the PDF branch of
    [scheduleNext] is not taken, the Apply button runs [applyText], and the
    words are those [tokenize] gives for some text. *)
Theorem pdf_mode_never_entered (isLN isS : char -> bool) (a : App) :
  app_reachable isLN isS a ->
  isPdfMode a = false /\ pdfWaits a = [] /\ pdf_wait a = None
  /\ (forall s, app_step isLN isS (ApplyButton s) a = applyText isLN isS s a)
  /\ exists s, words a = tokenize isLN isS s.
Proof.
  intro Ha. destruct (app_reachable_text isLN isS a Ha) as (Hm & Hw & _ & Hs).
  split; [exact Hm|]. split; [exact Hw|]. split; [exact (pdf_wait_text a Hm)|].
  split; [|exact Hs].
  intro s. cbn [app_step]. rewrite Hm. reflexivity.
Qed.

Lemma pdf_mode_never_entered_witness :
  let out := fun n : nat => if Nat.leb n 2 then Some (of_string "Page text.") else None in
  let a := app_run ascii_LN ascii_S
             (boot ascii_LN ascii_S (Some 250%Z) None None (of_string "Hello world"))
             [StartApp; OpenPdf 4; QuickStart out; ApplyButton (of_string "Page text.");
              LoaderStep StartBackground; TimerFires; ContentReady] in
  app_reachable ascii_LN ascii_S a /\ isPdfMode a = false /\ pdfWaits a = [].
Proof.
  intros out a.
  assert (Ha : app_reachable ascii_LN ascii_S a)
    by (exists (Some 250%Z), None, None, (of_string "Hello world"),
          [StartApp; OpenPdf 4; QuickStart out; ApplyButton (of_string "Page text.");
           LoaderStep StartBackground; TimerFires; ContentReady]; reflexivity).
  split; [exact Ha|].
  destruct (pdf_mode_never_entered ascii_LN ascii_S a Ha) as (H1 & H2 & _).
  split; [exact H1 | exact H2].
Defined.
